(** * common-lib: bounded queue, thread handle and active objects

    A shallow embedding of
    - [include/common/container/SizedQueue.hpp]   (module [SizedQueue]),
    - [src/common/thread/Thread.cpp]              (module [Thread]),
    - [include/common/thread/Runnable.hpp]        (modules [Runnable] and
      [ActiveRunnable]),
    followed by the properties established about them. *)

From stdpp Require Import base option list numbers strings.



(** ** Exceptions and results of calls that may throw *)

Inductive exn :=
| AlreadyRunningException          (* common/Exception.hpp *)
| FutureError                      (* std::future_error: promise already satisfied *)
| UserException (code : Z).        (* anything thrown by a user supplied __work *)

Inductive result (A : Type) :=
| Returned (a : A)
| Raised (e : exn).
Arguments Returned {A} a.
Arguments Raised {A} e.

(** ** SizedQueue<_tp, _size> *)

Module SizedQueue.
Section SizedQueue.
Context {_tp : Type}.
(** Template parameter [uint64_t _size]; the class carries
    [static_assert(_size != 0)]. *)
Variable _size : N.

(** [std::queue<_tp> _q]: the head of the list is the front. *)
Definition t := list _tp.

Definition front (_q : t) : option _tp := head _q.
Definition back (_q : t) : option _tp := last _q.
Definition empty (_q : t) : bool := match _q with [] => true | _ => false end.
Definition size (_q : t) : N := N.of_nat (length _q).

(** [_q.pop()]; popping an empty [std::queue] is undefined, rendered [None]. *)
Definition pop (_q : t) : option t :=
  match _q with [] => None | _ :: q' => Some q' end.

(** [if(_q.size() == _size) { _q.pop(); }  _q.emplace(args...);] *)
Definition emplace_back (x : _tp) (_q : t) : option t :=
  q' ← (if (size _q =? _size)%N then pop _q else Some _q);
  Some (q' ++ [x]).

Definition push_back (x : _tp) (_q : t) : option t := emplace_back x _q.
Definition pop_front (_q : t) : option t := pop _q.

(** A client pushes through either entry point. *)
Inductive push_op := PushBack (x : _tp) | EmplaceBack (x : _tp).

Definition pushed (o : push_op) : _tp :=
  match o with PushBack x | EmplaceBack x => x end.

Definition apply_push (o : push_op) (_q : t) : option t :=
  match o with
  | PushBack x => push_back x _q
  | EmplaceBack x => emplace_back x _q
  end.

(** A sequence of pushes, left to right; [None] as soon as one is undefined. *)
Fixpoint pushes (os : list push_op) (_q : t) : option t :=
  match os with
  | [] => Some _q
  | o :: os' => q' ← apply_push o _q; pushes os' q'
  end.

(** [push_back] and [emplace_back] take their arguments by reference and
    construct the new element after [_q.pop()]. A client that hands over
    the reference returned by [front()] or [back()] of the same queue, as
    in [q.push_back(q.front())], has the element referred to destroyed
    before it is read when the queue is full and the element is the front
    one. [None]: undefined behaviour, which [front()] and [back()] of an
    empty queue are as well. *)
Definition push_own_front (_q : t) : option t :=
  x ← front _q;
  if (size _q =? _size)%N then None else Some (_q ++ [x]).

Definition push_own_back (_q : t) : option t :=
  x ← back _q;
  q' ← (if (size _q =? _size)%N then pop _q else Some _q);
  if empty q' then None else Some (q' ++ [x]).

(** Any call that changes the queue: a push of a value of the client's
    own, a push of the queue's own front or back element by reference, a
    pop. *)
Inductive queue_op :=
| Push (o : push_op)
| PushOwnFront
| PushOwnBack
| PopFront.

Definition apply_op (o : queue_op) (_q : t) : option t :=
  match o with
  | Push o => apply_push o _q
  | PushOwnFront => push_own_front _q
  | PushOwnBack => push_own_back _q
  | PopFront => pop_front _q
  end.


(** A sequence of calls, left to right; [None] as soon as one is undefined. *)
Fixpoint apply_ops (os : list queue_op) (_q : t) : option t :=
  match os with
  | [] => Some _q
  | o :: os' => q' ← apply_op o _q; apply_ops os' q'
  end.

(** [pop_front()] called [k] times. *)
Fixpoint pops (k : nat) (_q : t) : option t :=
  match k with
  | 0 => Some _q
  | S k' => q' ← pop_front _q; pops k' q'
  end.
End SizedQueue.
End SizedQueue.

(** ** Thread (Thread.hpp, Thread.cpp) *)

Module Thread.

(** [Thread::Priority] is a flat enum on WIN32 and a (policy, level) tuple
    on LINUX; [DEFAULT] is the value the live call is skipped for.
    [call_failed] tells which values returned by the platform's scheduling
    call report a failure; it is the platform's convention, not the test
    [ThreadDetail::set_priority] makes, which is [false == <value>] on
    either platform. *)
Class PriorityModel := {
  Priority : Type;
  Priority_eq_dec :: EqDecision Priority;
  DEFAULT : Priority;
  call_failed : Z → bool;
}.

(** [enum type : int32_t] with the values of <windows.h>. *)
Module WIN32.
Definition THREAD_PRIORITY_NORMAL : Z := 0.
Definition THREAD_PRIORITY_ABOVE_NORMAL : Z := 1.
Definition THREAD_PRIORITY_BELOW_NORMAL : Z := -1.
Definition THREAD_PRIORITY_HIGHEST : Z := 2.
Definition THREAD_PRIORITY_IDLE : Z := -15.
Definition THREAD_PRIORITY_TIME_CRITICAL : Z := 15.

(** [SetThreadPriority]: non-zero on success, zero on failure. *)
#[export] Instance priority : PriorityModel :=
  {| Priority := Z; DEFAULT := THREAD_PRIORITY_NORMAL;
     call_failed := λ r, (r =? 0)%Z |}.
End WIN32.

(** [std::tuple<Policies::type, Level::type>] with the values of <sched.h>. *)
Module LINUX.
Definition SCHED_OTHER : Z := 0.
Definition SCHED_FIFO : Z := 1.
Definition SCHED_RR : Z := 2.
Definition SCHED_BATCH : Z := 3.
Definition SCHED_IDLE : Z := 5.
Definition Level_DEFAULT : Z := 0.

(** [sched_setscheduler]: zero on success, -1 on failure. *)
#[export] Instance priority : PriorityModel :=
  {| Priority := Z * Z; DEFAULT := (SCHED_OTHER, Level_DEFAULT);
     call_failed := λ r, negb (r =? 0)%Z |}.
End LINUX.

Section ThreadDetail.
Context `{PM : PriorityModel}.

(** What a call leaves outside the object: the scheduling request handed
    to the operating system ([SetThreadPriority] / [sched_setscheduler])
    and the line written by [_ERROR_]. *)
Inductive effect :=
| OsSetPriority (p : Priority)
| LogError (code : Z).

(** The operating system as seen by [ThreadDetail]: the value returned by
    the scheduling call, the code read back by [GetLastError()] / [errno],
    and how it schedules a new thread against the thread that creates it:
    [joinable_at_spawn] is what [_thread.joinable()] reads in the first
    statement of the thread spawned by [start], which runs while [start] is
    still assigning [_thread]. *)
Record OS := {
  sched : Priority → Z;
  last_error : Z;
  joinable_at_spawn : bool;
}.

(** [class ThreadDetail]. [_thread] is rendered by [joinable()]: true
    from [start] until [join] or [detach]. [_promise] is true once
    [set_value()] has been called. *)
Record ThreadDetail := {
  _thread : bool;
  _promise : bool;
  _priority : Priority;
  _name : string;
}.

(** [new detail::ThreadDetail] in [Thread::__create]. *)
Definition __create : ThreadDetail :=
  {| _thread := false; _promise := false; _priority := DEFAULT; _name := "" |}.

(** [start]: [_thread = std::thread(...)], as the handle is once the
    assignment is done. The spawned thread itself is kept by the worker
    models below; its first statements, which may run before the
    assignment is done, are [on_spawn]. *)
Definition start (t : ThreadDetail) : ThreadDetail :=
  {| _thread := true; _promise := _promise t;
     _priority := _priority t; _name := _name t |}.

(** [detach]: [std::thread::detach] throws when there is nothing to
    detach, which a [noexcept] function turns into [std::terminate]
    ([None]). *)
Definition detach (t : ThreadDetail) : option ThreadDetail :=
  if _thread t
  then Some {| _thread := false; _promise := _promise t;
               _priority := _priority t; _name := _name t |}
  else None.

(** [join]: [if(_thread.joinable()) _thread.join();]. [finished] tells
    whether the thread function has returned; joining a thread that has
    not makes the caller wait ([None]: no return in this state). *)
Definition join (finished : bool) (t : ThreadDetail) : option ThreadDetail :=
  if _thread t
  then if finished
       then Some {| _thread := false; _promise := _promise t;
                    _priority := _priority t; _name := _name t |}
       else None
  else Some t.

(** The deleter installed by [Thread::__create]:
    [obj->join(); delete obj;]. [Some tt] once the memory is released. *)
Definition release (finished : bool) (t : ThreadDetail) : option () :=
  _ ← join finished t; Some ().

Definition set_value (t : ThreadDetail) : ThreadDetail :=
  {| _thread := _thread t; _promise := true;
     _priority := _priority t; _name := _name t |}.

Definition store_priority (p : Priority) (t : ThreadDetail) : ThreadDetail :=
  {| _thread := _thread t; _promise := _promise t;
     _priority := p; _name := _name t |}.

(** [ThreadDetail::set_priority]. Both platform branches have the same
    shape: skip when [priority] is the default, otherwise call the
    operating system and test [false == <returned value>]. *)
Definition set_priority (os : OS) (priority : Priority) (t : ThreadDetail)
  : bool * ThreadDetail * list effect :=
  if negb (_thread t) then
    (true, store_priority priority t, [])
  else if decide (priority ≠ DEFAULT) then
    if (sched os priority =? 0)%Z then
      (false, t, [OsSetPriority priority; LogError (last_error os)])
    else
      (true, store_priority priority t, [OsSetPriority priority])
  else
    (true, t, []).

Definition get_priority (t : ThreadDetail) : Priority := _priority t.

Definition set_name (name : string) (t : ThreadDetail) : ThreadDetail :=
  {| _thread := _thread t; _promise := _promise t;
     _priority := _priority t; _name := name |}.

Definition get_name (t : ThreadDetail) : string := _name t.

(** The first statements of the thread spawned by [start]:
    [set_priority(_priority); set_name(_name);]. Nothing orders them
    against the assignment to [_thread] in [start]: this [set_priority]
    takes the branch for the value of [_thread.joinable()] it happens to
    read, [joinable_at_spawn os]; the handle is left with the [_thread] the
    assignment gives it. *)
Definition on_spawn (os : OS) (t : ThreadDetail) : ThreadDetail * list effect :=
  let seen := {| _thread := joinable_at_spawn os && _thread t;
                 _promise := _promise t; _priority := _priority t;
                 _name := _name t |} in
  let '(_, t', effs) := set_priority os (_priority t) seen in
  (set_name (_name t')
     {| _thread := _thread t; _promise := _promise t';
        _priority := _priority t'; _name := _name t' |},
   effs).

(** What [set_priority(p)] leaves outside a started handle, spelled out: a
    request for [p] unless it is the default, and a log line when the
    value returned is 0. *)
Definition request_effects (os : OS) (p : Priority) : list effect :=
  if decide (p ≠ DEFAULT) then
    OsSetPriority p
      :: (if (sched os p =? 0)%Z then [LogError (last_error os)] else [])
  else [].

(** The effects of [on_spawn] on a handle caching [p] whose [start] has
    returned: those of a live request when the spawned thread read a
    joinable [_thread], none when it did not. *)
Definition spawn_effects (os : OS) (p : Priority) : list effect :=
  if joinable_at_spawn os then request_effects os p else [].

(** A request that [set_priority] on a started handle takes for granted:
    the live call is made for it and the value returned passes the test
    [false == <value>]. *)
Definition accepted (os : OS) (p : Priority) : bool :=
  bool_decide (p ≠ DEFAULT) && negb (sched os p =? 0)%Z.

(** A request the live call is made for and that the operating system
    grants, by the platform's convention. *)
Definition granted (os : OS) (p : Priority) : bool :=
  bool_decide (p ≠ DEFAULT) && negb (call_failed (sched os p)).

(** A client's calls of [set_priority] on one handle, one after the other:
    the handle they leave, the answers, and what they leave outside the
    object. *)
Fixpoint set_priorities (os : OS) (ps : list Priority) (t : ThreadDetail)
  : ThreadDetail * list bool * list effect :=
  match ps with
  | [] => (t, [], [])
  | p :: ps' =>
      let '(ok, t', effs) := set_priority os p t in
      let '(t'', oks, effs') := set_priorities os ps' t' in
      (t'', ok :: oks, effs ++ effs')
  end.
End ThreadDetail.

(** Modelled from the spec: [Factory<Thread>::create] (common/Factory.hpp,
    a generic named-type factory utility) is not part of the sources at
    hand; it hands out what [Thread::__create] builds. *)
Definition create `{PM : PriorityModel} : ThreadDetail := __create.

(** The handle a worker's [run()] installs when it caches priority [p] and
    name [n]: [create()], [set_priority(p)], [set_name(n)], [start(...)]. *)
Definition started_handle `{PM : PriorityModel} (p : Priority) (n : string)
  : ThreadDetail :=
  start (set_name n (store_priority p create)).

(** How a process stops being a process. *)
Inductive fault :=
| Terminate      (* std::terminate: an exception left a thread function *)
| Undefined.     (* undefined behaviour *)
End Thread.

(** ** Runnable (Runnable.hpp) *)

(** How an object and its thread end. *)
Inductive lifecycle :=
| Live
| Faulted (f : Thread.fault)
| Destroyed.

Module Runnable.
Import Thread.
Section Runnable.
Context `{PM : PriorityModel}.
(** [Self] is the state of the derived class that implements [__work]. *)
Context {Self : Type}.
Variable os : OS.
(** [virtual auto __work() -> void = 0]. *)
Variable __work : Self → result () * Self.

(** Where the thread spawned by [_t->start] stands. *)
Inductive pc :=
| PcSpawned       (* ThreadDetail::start: set_priority(_priority); set_name(_name); *)
| PcLoop          (* while(_running.load()) *)
| PcWork          (* __work(); *)
| PcReturn        (* ThreadDetail::start: _promise.set_value(); *)
| PcDone.         (* the thread function has returned *)

Record State := {
  _t : option ThreadDetail;
  _running : bool;
  _priority : Priority;
  _name : string;
  self : Self;
  thread : option pc;
  life : lifecycle;
  effects : list effect;
}.

Definition with_t (v : option ThreadDetail) (s : State) : State :=
  {| _t := v; _running := _running s; _priority := _priority s;
     _name := _name s; self := self s; thread := thread s; life := life s;
     effects := effects s |}.
Definition with_running (v : bool) (s : State) : State :=
  {| _t := _t s; _running := v; _priority := _priority s; _name := _name s;
     self := self s; thread := thread s; life := life s;
     effects := effects s |}.
Definition with_priority (v : Priority) (s : State) : State :=
  {| _t := _t s; _running := _running s; _priority := v; _name := _name s;
     self := self s; thread := thread s; life := life s;
     effects := effects s |}.
Definition with_name (v : string) (s : State) : State :=
  {| _t := _t s; _running := _running s; _priority := _priority s;
     _name := v; self := self s; thread := thread s; life := life s;
     effects := effects s |}.
Definition with_self (v : Self) (s : State) : State :=
  {| _t := _t s; _running := _running s; _priority := _priority s;
     _name := _name s; self := v; thread := thread s; life := life s;
     effects := effects s |}.
Definition with_thread (v : option pc) (s : State) : State :=
  {| _t := _t s; _running := _running s; _priority := _priority s;
     _name := _name s; self := self s; thread := v; life := life s;
     effects := effects s |}.
Definition with_life (v : lifecycle) (s : State) : State :=
  {| _t := _t s; _running := _running s; _priority := _priority s;
     _name := _name s; self := self s; thread := thread s; life := v;
     effects := effects s |}.
Definition with_effects (v : list effect) (s : State) : State :=
  {| _t := _t s; _running := _running s; _priority := _priority s;
     _name := _name s; self := self s; thread := thread s; life := life s;
     effects := v |}.

(** A freshly constructed object of a derived class in state [w]. *)
Definition init (w : Self) : State :=
  {| _t := None; _running := false; _priority := DEFAULT; _name := "";
     self := w; thread := None; life := Live; effects := [] |}.

Definition finished (s : State) : bool :=
  match thread s with Some PcDone => true | _ => false end.

(** [run()]. The header allows one call per object. A further call that
    finds [_running] false replaces the handle by [_t = Thread::create()],
    and the deleter of the old handle joins the old thread: the call is
    rendered as a whole where that join returns, and as [None], the call
    has not returned, where it does not. Not rendered is what such a call
    has done before it waits, [_running] stored [true] and the new handle
    in [_t], by which a thread that is still in its loop stays there and
    the call never returns. *)
Definition run (s : State) : option (result () * State) :=
  if _running s then Some (Raised AlreadyRunningException, s)
  else
    _ ← match _t s with Some old => release (finished s) old | None => Some () end;
    let '(_, t, _) := Thread.set_priority os (_priority s) create in
    let t := start (Thread.set_name (_name s) t) in
    Some (Returned (),
          with_thread (Some PcSpawned) (with_t (Some t) (with_running true s))).

(** One step of the thread spawned by [run()]; [None] once it has
    returned. *)
Definition thread_step (s : State) : option State :=
  pc ← thread s;
  match pc with
  | PcSpawned =>
      match _t s with
      | Some t =>
          let '(t', effs) := on_spawn os t in
          Some (with_thread (Some PcLoop)
                  (with_effects (effects s ++ effs) (with_t (Some t') s)))
      | None => Some (with_life (Faulted Undefined) s)
      end
  | PcLoop =>
      if _running s then Some (with_thread (Some PcWork) s)
      else Some (with_thread (Some PcReturn) s)
  | PcWork =>
      match __work (self s) with
      | (Returned _, w) => Some (with_thread (Some PcLoop) (with_self w s))
      | (Raised _, w) => Some (with_life (Faulted Terminate) (with_self w s))
      end
  | PcReturn =>
      match _t s with
      | Some t => Some (with_thread (Some PcDone) (with_t (Some (set_value t)) s))
      | None => Some (with_life (Faulted Undefined) s)
      end
  | PcDone => None
  end.

(** [stop()]. *)
Definition stop (s : State) : State := with_running false s.

(** [status()]. *)
Definition status (s : State) : bool := _running s.

(** [set_priority(priority)]. *)
Definition set_priority (priority : Priority) (s : State) : bool * State :=
  let s := with_priority priority s in
  if _running s then
    match _t s with
    | Some t =>
        let '(ok, t', effs) := Thread.set_priority os priority t in
        (ok, with_effects (effects s ++ effs) (with_t (Some t') s))
    | None => (false, with_life (Faulted Undefined) s)
    end
  else (false, s).

Definition get_priority (s : State) : Priority := _priority s.

(** [set_name(name)]. *)
Definition set_name (name : string) (s : State) : State :=
  let s := with_name name s in
  if _running s then
    match _t s with
    | Some t => with_t (Some (Thread.set_name name t)) s
    | None => with_life (Faulted Undefined) s
    end
  else s.

Definition get_name (s : State) : string := _name s.

(** The future handed back by [run()] reads [_promise] of the handle. *)
Definition completed (s : State) : bool :=
  match _t s with Some t => _promise t | None => false end.

(** The implicit destructor; the class declares none. The derived part is
    destroyed first, then the members in reverse order of declaration,
    [_t], declared first, last; releasing [_t] runs the handle's deleter,
    [join(); delete]. Where the join returns (there is no thread, or it has
    returned) the object is gone. A thread that has left the loop touches
    its handle only, which is still there: the join waits for it ([None],
    no return in this state). A thread that is about to enter the loop or
    inside it goes on to read [_running] and to call [__work] on an object
    whose lifetime has ended, while the join waits for a thread that
    nothing has told to stop: undefined behaviour. *)
Definition destroy (s : State) : option State :=
  match (match _t s with Some t => release (finished s) t | None => Some () end) with
  | Some _ => Some (with_life Destroyed (with_t None s))
  | None =>
      match thread s with
      | Some PcReturn => None
      | _ => Some (with_life (Faulted Undefined) s)
      end
  end.

(** What can happen to a live object: a call from a client or a step of
    the spawned thread. *)
Inductive event :=
| Run
| Stop
| SetPriority (priority : Priority)
| SetName (name : string)
| ThreadStep
| Destroy.

Definition step (e : event) (s : State) : option State :=
  match life s with
  | Live =>
      match e with
      | Run => snd <$> run s
      | Stop => Some (stop s)
      | SetPriority priority => Some (snd (set_priority priority s))
      | SetName name => Some (set_name name s)
      | ThreadStep => thread_step s
      | Destroy => destroy s
      end
  | _ => None
  end.

Fixpoint exec (es : list event) (s : State) : option State :=
  match es with
  | [] => Some s
  | e :: es' => s' ← step e s; exec es' s'
  end.

(** The handle is joinable exactly while there is a thread to join. *)
Definition handle_inv (s : State) : Prop :=
  match life s with
  | Live =>
      match thread s with
      | None => _t s = None
      | Some _ => ∃ t, _t s = Some t ∧ _thread t = true
      end
  | Faulted _ => True
  | Destroyed => thread s = None ∨ thread s = Some PcDone
  end.

(** The spawned thread alone, for at most [fuel] steps. *)
Fixpoint drain (fuel : nat) (s : State) : State :=
  match fuel with
  | 0 => s
  | S fuel' =>
      match step ThreadStep s with
      | Some s' => drain fuel' s'
      | None => s
      end
  end.

(** The spawned thread has left the loop. *)
Definition exited (s : State) : bool :=
  match thread s with Some PcReturn | Some PcDone => true | _ => false end.

(** An object on which [run()] has not been called. *)
Definition fresh (s : State) : Prop :=
  _t s = None ∧ _running s = false ∧ thread s = None ∧ life s = Live.

(** What holds of a live object after its one [run()]: there is a thread,
    the handle is joinable, its promise is set exactly when the thread
    function has returned, and the thread leaves the loop only with the flag
    down. *)
Definition started_inv (s : State) : Prop :=
  life s = Live →
  (∃ pc, thread s = Some pc)
  ∧ (∃ t, _t s = Some t ∧ _thread t = true ∧ _promise t = finished s)
  ∧ (exited s = true → _running s = false).

(** The thread is outside the loop, where [__work] is called, and the
    derived object is in state [w]. *)
Definition outside_loop (w : Self) (s : State) : Prop :=
  (thread s = None ∨ thread s = Some PcReturn ∨ thread s = Some PcDone)
  ∧ self s = w.

(** While the flag is up, the handle carries the name the object caches. *)
Definition named_inv (s : State) : Prop :=
  life s = Live → _running s = true →
  ∃ t, _t s = Some t ∧ Thread.get_name t = _name s.
End Runnable.
End Runnable.

(** ** ActiveRunnable<DataType, ReturnType> (Runnable.hpp) *)

Module ActiveRunnable.
Import Thread.
Section ActiveRunnable.
Context `{PM : PriorityModel}.
(** [void] is rendered by [()] for either template parameter: the four
    [if constexpr] branches of the dispatch loop then coincide. [Self] is
    the state of the derived class that implements [__work]. *)
Context {DataType ReturnType Self : Type}.
Variable os : OS.
(** [base::WorkInterface<DataType, ReturnType>::__work]. *)
Variable __work : DataType → Self → result ReturnType * Self.

(** [std::pair<DataType, PromiseType>]: a [std::shared_ptr<std::promise>]
    is the index of its shared state in [promises]. *)
Definition TaskType : Type := DataType * nat.

(** Where the thread spawned by [_t->start] stands. *)
Inductive pc :=
| PcSpawned       (* ThreadDetail::start: set_priority(_priority); set_name(_name); *)
| PcLoop          (* while(_running.load()) *)
| PcLock          (* std::unique_lock<std::mutex> lock(_notifyLock); *)
| PcCheckEmpty    (* if(_tasks.empty()) _cv.wait(lock); *)
| PcWait          (* inside _cv.wait: mutex released, blocked *)
| PcWake          (* inside _cv.wait: unblocked, taking the mutex again *)
| PcCheckStop     (* if(!_running.load()) break; *)
| PcTake          (* task = _tasks[0]; _tasks.erase(_tasks.begin()); lock.unlock(); *)
| PcWork (data : DataType) (promise : nat)
                  (* promise->set_value(this->__work(std::move(data))); *)
| PcReturn        (* ThreadDetail::start: _promise.set_value(); *)
| PcDone.         (* the thread function has returned *)

(** The object ([_t] .. [_name]) and what it shares with its thread and
    its callers. [_notifyLock] is true while the spawned thread owns the
    mutex; [_cv] has no state of its own: its only waiter is the spawned
    thread, at [PcWait]. *)
Record State := {
  _t : option ThreadDetail;
  _running : bool;
  _notifyLock : bool;
  _tasks : list TaskType;
  _priority : Priority;
  _name : string;
  promises : list (option ReturnType);
  self : Self;
  thread : option pc;
  life : lifecycle;
  effects : list effect;
}.

Definition with_t (v : option ThreadDetail) (s : State) : State :=
  {| _t := v; _running := _running s; _notifyLock := _notifyLock s;
     _tasks := _tasks s; _priority := _priority s; _name := _name s;
     promises := promises s; self := self s; thread := thread s;
     life := life s; effects := effects s |}.
Definition with_running (v : bool) (s : State) : State :=
  {| _t := _t s; _running := v; _notifyLock := _notifyLock s;
     _tasks := _tasks s; _priority := _priority s; _name := _name s;
     promises := promises s; self := self s; thread := thread s;
     life := life s; effects := effects s |}.
Definition with_notifyLock (v : bool) (s : State) : State :=
  {| _t := _t s; _running := _running s; _notifyLock := v;
     _tasks := _tasks s; _priority := _priority s; _name := _name s;
     promises := promises s; self := self s; thread := thread s;
     life := life s; effects := effects s |}.
Definition with_tasks (v : list TaskType) (s : State) : State :=
  {| _t := _t s; _running := _running s; _notifyLock := _notifyLock s;
     _tasks := v; _priority := _priority s; _name := _name s;
     promises := promises s; self := self s; thread := thread s;
     life := life s; effects := effects s |}.
Definition with_priority (v : Priority) (s : State) : State :=
  {| _t := _t s; _running := _running s; _notifyLock := _notifyLock s;
     _tasks := _tasks s; _priority := v; _name := _name s;
     promises := promises s; self := self s; thread := thread s;
     life := life s; effects := effects s |}.
Definition with_name (v : string) (s : State) : State :=
  {| _t := _t s; _running := _running s; _notifyLock := _notifyLock s;
     _tasks := _tasks s; _priority := _priority s; _name := v;
     promises := promises s; self := self s; thread := thread s;
     life := life s; effects := effects s |}.
Definition with_promises (v : list (option ReturnType)) (s : State) : State :=
  {| _t := _t s; _running := _running s; _notifyLock := _notifyLock s;
     _tasks := _tasks s; _priority := _priority s; _name := _name s;
     promises := v; self := self s; thread := thread s; life := life s;
     effects := effects s |}.
Definition with_self (v : Self) (s : State) : State :=
  {| _t := _t s; _running := _running s; _notifyLock := _notifyLock s;
     _tasks := _tasks s; _priority := _priority s; _name := _name s;
     promises := promises s; self := v; thread := thread s;
     life := life s; effects := effects s |}.
Definition with_thread (v : option pc) (s : State) : State :=
  {| _t := _t s; _running := _running s; _notifyLock := _notifyLock s;
     _tasks := _tasks s; _priority := _priority s; _name := _name s;
     promises := promises s; self := self s; thread := v;
     life := life s; effects := effects s |}.
Definition with_life (v : lifecycle) (s : State) : State :=
  {| _t := _t s; _running := _running s; _notifyLock := _notifyLock s;
     _tasks := _tasks s; _priority := _priority s; _name := _name s;
     promises := promises s; self := self s; thread := thread s;
     life := v; effects := effects s |}.
Definition with_effects (v : list effect) (s : State) : State :=
  {| _t := _t s; _running := _running s; _notifyLock := _notifyLock s;
     _tasks := _tasks s; _priority := _priority s; _name := _name s;
     promises := promises s; self := self s; thread := thread s;
     life := life s; effects := v |}.

(** A freshly constructed object of a derived class in state [w]. *)
Definition init (w : Self) : State :=
  {| _t := None; _running := false; _notifyLock := false; _tasks := [];
     _priority := DEFAULT; _name := ""; promises := []; self := w;
     thread := None; life := Live; effects := [] |}.

Definition finished (s : State) : bool :=
  match thread s with Some PcDone => true | _ => false end.

(** [_cv.notify_one()]: unblocks the waiter, if there is one. *)
Definition notify_one (s : State) : State :=
  match thread s with
  | Some PcWait => with_thread (Some PcWake) s
  | _ => s
  end.

(** [run()]. The header allows one call per object. A further call that
    finds [_running] false replaces the handle by [_t = Thread::create()],
    and the deleter of the old handle joins the old thread: the call is
    rendered as a whole where that join returns, and as [None], the call
    has not returned, where it does not. Not rendered is what such a call
    has done before it waits, [_running] stored [true] and the new handle
    in [_t], by which a thread that is still in its loop stays there and
    the call never returns. *)
Definition run (s : State) : option (result () * State) :=
  if _running s then Some (Raised AlreadyRunningException, s)
  else
    _ ← match _t s with Some old => release (finished s) old | None => Some () end;
    let '(_, t, _) := Thread.set_priority os (_priority s) create in
    let t := start (Thread.set_name (_name s) t) in
    Some (Returned (),
          with_thread (Some PcSpawned) (with_t (Some t) (with_running true s))).

(** [std::promise::set_value]: throws when already satisfied. *)
Definition promise_set_value (p : nat) (r : ReturnType) (h : list (option ReturnType))
  : option (list (option ReturnType)) :=
  match h !! p with
  | Some None => Some (<[p := Some r]> h)
  | _ => None
  end.

(** One step of the thread spawned by [run()]; [None] when it is blocked
    or has returned. *)
Definition thread_step (s : State) : option State :=
  pc ← thread s;
  match pc with
  | PcSpawned =>
      match _t s with
      | Some t =>
          let '(t', effs) := on_spawn os t in
          Some (with_thread (Some PcLoop)
                  (with_effects (effects s ++ effs) (with_t (Some t') s)))
      | None => Some (with_life (Faulted Undefined) s)
      end
  | PcLoop =>
      if _running s then Some (with_thread (Some PcLock) s)
      else Some (with_thread (Some PcReturn) s)
  | PcLock =>
      if _notifyLock s then None
      else Some (with_thread (Some PcCheckEmpty) (with_notifyLock true s))
  | PcCheckEmpty =>
      match _tasks s with
      | [] => Some (with_thread (Some PcWait) (with_notifyLock false s))
      | _ :: _ => Some (with_thread (Some PcCheckStop) s)
      end
  | PcWait => None
  | PcWake =>
      if _notifyLock s then None
      else Some (with_thread (Some PcCheckStop) (with_notifyLock true s))
  | PcCheckStop =>
      if negb (_running s)
      then Some (with_thread (Some PcReturn) (with_notifyLock false s))
      else Some (with_thread (Some PcTake) s)
  | PcTake =>
      match _tasks s with
      | [] => Some (with_life (Faulted Undefined) s)
      | (data, promise) :: rest =>
          Some (with_thread (Some (PcWork data promise))
                  (with_notifyLock false (with_tasks rest s)))
      end
  | PcWork data promise =>
      match __work data (self s) with
      | (Returned r, w) =>
          match promise_set_value promise r (promises s) with
          | Some h => Some (with_thread (Some PcLoop) (with_promises h (with_self w s)))
          | None => Some (with_life (Faulted Terminate) (with_self w s))
          end
      | (Raised _, w) => Some (with_life (Faulted Terminate) (with_self w s))
      end
  | PcReturn =>
      match _t s with
      | Some t => Some (with_thread (Some PcDone) (with_t (Some (set_value t)) s))
      | None => Some (with_life (Faulted Undefined) s)
      end
  | PcDone => None
  end.

(** [notify(data)]: returns the future of a new promise. [None]: the
    caller is blocked on [_notifyLock]. *)
Definition notify (data : DataType) (s : State) : option (nat * State) :=
  let promise := length (promises s) in
  if _notifyLock s then None
  else Some (promise,
             notify_one (with_tasks (_tasks s ++ [(data, promise)])
                           (with_promises (promises s ++ [None]) s))).

(** [stop()]. *)
Definition stop (s : State) : option State :=
  if _notifyLock s then None
  else Some (notify_one (with_running false s)).

(** [status()]. *)
Definition status (s : State) : bool := _running s.

(** [set_priority(priority)]. *)
Definition set_priority (priority : Priority) (s : State) : bool * State :=
  let s := with_priority priority s in
  if _running s then
    match _t s with
    | Some t =>
        let '(ok, t', effs) := Thread.set_priority os priority t in
        (ok, with_effects (effects s ++ effs) (with_t (Some t') s))
    | None => (false, with_life (Faulted Undefined) s)
    end
  else (false, s).

Definition get_priority (s : State) : Priority := _priority s.

(** [set_name(name)]. *)
Definition set_name (name : string) (s : State) : State :=
  let s := with_name name s in
  if _running s then
    match _t s with
    | Some t => with_t (Some (Thread.set_name name t)) s
    | None => with_life (Faulted Undefined) s
    end
  else s.

Definition get_name (s : State) : string := _name s.

(** The future handed back by [run()] reads [_promise] of the handle. *)
Definition completed (s : State) : bool :=
  match _t s with Some t => _promise t | None => false end.

(** The implicit destructor; the class declares none. The derived part is
    destroyed first, then the members in reverse order of declaration,
    [_tasks], [_cv], [_notifyLock] and [_running] among them, and [_t],
    declared first, last; releasing [_t] runs the handle's deleter,
    [join(); delete]. Where the join returns (there is no thread, or it has
    returned) the object is gone. A thread that has left the loop touches
    its handle only, which is still there: the join waits for it ([None],
    no return in this state). A thread that is about to enter the loop or
    inside it, blocked in [_cv.wait] or not, goes on to use members whose
    lifetime has ended, while the join waits for a thread that nothing has
    told to stop: undefined behaviour. *)
Definition destroy (s : State) : option State :=
  match (match _t s with Some t => release (finished s) t | None => Some () end) with
  | Some _ => Some (with_life Destroyed (with_t None s))
  | None =>
      match thread s with
      | Some PcReturn => None
      | _ => Some (with_life (Faulted Undefined) s)
      end
  end.

(** What can happen to a live object: a call from a client, a step of the
    spawned thread, a wake-up of [_cv.wait] that no [notify_one] caused. *)
Inductive event :=
| Run
| Notify (data : DataType) (future : nat)
| Stop
| SetPriority (priority : Priority)
| SetName (name : string)
| ThreadStep
| SpuriousWake
| Destroy.

Definition step (e : event) (s : State) : option State :=
  match life s with
  | Live =>
      match e with
      | Run => snd <$> run s
      | Notify data future =>
          '(f, s') ← notify data s;
          if decide (f = future) then Some s' else None
      | Stop => stop s
      | SetPriority priority => Some (snd (set_priority priority s))
      | SetName name => Some (set_name name s)
      | ThreadStep => thread_step s
      | SpuriousWake =>
          match thread s with
          | Some PcWait => Some (with_thread (Some PcWake) s)
          | _ => None
          end
      | Destroy => destroy s
      end
  | _ => None
  end.

Fixpoint exec (es : list event) (s : State) : option State :=
  match es with
  | [] => Some s
  | e :: es' => s' ← step e s; exec es' s'
  end.

(** The spawned thread alone, for at most [fuel] steps. *)
Fixpoint drain (fuel : nat) (s : State) : State :=
  match fuel with
  | 0 => s
  | S fuel' =>
      match step ThreadStep s with
      | Some s' => drain fuel' s'
      | None => s
      end
  end.

(** The tasks handed in by a trace, with the futures handed back. *)
Definition notified (es : list event) : list (DataType * nat) :=
  omap (λ e, match e with Notify d f => Some (d, f) | _ => None end) es.

(** The events of a single producer and of the spawned thread. *)
Definition producer_or_thread (e : event) : Prop :=
  match e with Notify _ _ | ThreadStep => True | _ => False end.

(** *** Invariants *)

(** The handle is joinable exactly while there is a thread to join. *)
Definition handle_inv (s : State) : Prop :=
  match life s with
  | Live =>
      match thread s with
      | None => _t s = None
      | Some _ => ∃ t, _t s = Some t ∧ _thread t = true
      end
  | Faulted _ => True
  | Destroyed => thread s = None ∨ thread s = Some PcDone
  end.

(** The task the spawned thread has taken and not yet answered. *)
Definition inflight (s : State) : list TaskType :=
  match thread s with
  | Some (PcWork data promise) => [(data, promise)]
  | _ => []
  end.

(** Payloads paired with consecutive promise indices from [k] on. *)
Fixpoint tickets (k : nat) (ds : list DataType) : list TaskType :=
  match ds with
  | [] => []
  | d :: ds' => (d, k) :: tickets (S k) ds'
  end.

(** Who owns the mutex, and what the queue looks like, at each point of the
    loop of a worker that nobody stops. *)
Definition loop_inv (s : State) : Prop :=
  match thread s with
  | Some PcSpawned | Some PcLoop | Some PcLock | Some (PcWork _ _) =>
      _notifyLock s = false
  | Some PcCheckEmpty => _notifyLock s = true
  | Some PcWait => _notifyLock s = false ∧ _tasks s = []
  | Some PcWake => _notifyLock s = false ∧ _tasks s ≠ []
  | Some PcCheckStop | Some PcTake => _notifyLock s = true ∧ _tasks s ≠ []
  | Some PcReturn | Some PcDone | None => False
  end.

(** A running worker whose clients have handed in the payloads [all], in
    this order, and whose work step returns [f d] on [d]: the promises of
    a prefix [done] hold the answers, the others are pending, and the task
    in flight followed by the queue is the rest, in the order handed in. *)
Definition fifo_inv (f : DataType → ReturnType) (all : list DataType) (s : State)
  : Prop :=
  life s = Live ∧ _running s = true
  ∧ (∃ t, _t s = Some t ∧ _thread t = true)
  ∧ loop_inv s
  ∧ ∃ done todo,
      all = done ++ todo
      ∧ promises s = (Some ∘ f <$> done) ++ replicate (length todo) None
      ∧ inflight s ++ _tasks s = tickets (length done) todo.

(** An upper bound on the steps the spawned thread takes before it blocks
    in [_cv.wait] with nothing left to do. *)
Definition rank (s : State) : nat :=
  6 * length (_tasks s) +
  match thread s with
  | Some PcSpawned => 11
  | Some PcLoop => 9
  | Some PcLock => 8
  | Some PcCheckEmpty | Some PcWake => 7
  | Some PcCheckStop => 6
  | Some PcTake => 5
  | Some (PcWork _ _) => 10
  | Some PcWait | Some PcReturn | Some PcDone | None => 0
  end.

(** What holds of every state after the spawned thread has left the loop
    in [s0], as long as nobody calls [run()] again: the thread never
    returns to the loop, promises are only added (pending), tasks are only
    added behind those left in the queue. *)
Definition abandoned (s0 s : State) : Prop :=
  (thread s = Some PcReturn ∨ thread s = Some PcDone)
  ∧ (∃ n, promises s = promises s0 ++ replicate n None)
  ∧ (∃ more, _tasks s = _tasks s0 ++ more).

(** The spawned thread has left the loop in [s0] with the queue and the
    promises as they were in [s], and nothing short of another [run()]
    serves a task queued in [s] or answers a promise pending in [s]. *)
Definition abandons (s s0 : State) : Prop :=
  thread s0 = Some PcReturn
  ∧ _tasks s0 = _tasks s ∧ promises s0 = promises s
  ∧ ∀ es s', Forall (λ e, e ≠ Run) es → exec es s0 = Some s' →
      (thread s' = Some PcReturn ∨ thread s' = Some PcDone)
      ∧ (∀ task, task ∈ _tasks s → task ∈ _tasks s')
      ∧ (∀ p, promises s !! p = Some None → promises s' !! p = Some None).

(** Where the queue may be touched once clients may also call [stop()]:
    a wake-up is owed to a [notify] (the queue is not empty) or to a
    [stop()] (the flag is down). *)
Definition take_inv (s : State) : Prop :=
  match thread s with
  | Some PcWait => _tasks s = []
  | Some PcWake | Some PcCheckStop => _tasks s ≠ [] ∨ _running s = false
  | Some PcTake => _tasks s ≠ []
  | _ => True
  end.

(** The spawned thread has left the loop. *)
Definition exited (s : State) : bool :=
  match thread s with Some PcReturn | Some PcDone => true | _ => false end.

(** The spawned thread is between [lock(_notifyLock)] and the release of
    the mutex. *)
Definition in_critical_section (s : State) : bool :=
  match thread s with
  | Some PcCheckEmpty | Some PcCheckStop | Some PcTake => true
  | _ => false
  end.

(** An object on which [run()] has not been called. *)
Definition fresh (s : State) : Prop :=
  _t s = None ∧ _running s = false ∧ _notifyLock s = false
  ∧ thread s = None ∧ life s = Live.

(** What holds of a live object after its one [run()]: there is a thread,
    the handle is joinable, its promise is set exactly when the thread
    function has returned, the thread leaves the loop only with the flag
    down, and the mutex is taken exactly while the thread is in its critical
    section. *)
Definition started_inv (s : State) : Prop :=
  life s = Live →
  (∃ pc, thread s = Some pc)
  ∧ (∃ t, _t s = Some t ∧ _thread t = true ∧ _promise t = finished s)
  ∧ (exited s = true → _running s = false)
  ∧ _notifyLock s = in_critical_section s.

(** The thread is outside the loop, where [__work] is called, and the
    derived object is in state [w]. *)
Definition outside_loop (w : Self) (s : State) : Prop :=
  (thread s = None ∨ thread s = Some PcReturn ∨ thread s = Some PcDone)
  ∧ self s = w.

(** While the flag is up, the handle carries the name the object caches. *)
Definition named_inv (s : State) : Prop :=
  life s = Live → _running s = true →
  ∃ t, _t s = Some t ∧ Thread.get_name t = _name s.

(** The promises of the tasks not yet answered are pairwise different and
    pending. *)
Definition promise_inv (s : State) : Prop :=
  NoDup (inflight s ++ _tasks s).*2
  ∧ ∀ p, p ∈ (inflight s ++ _tasks s).*2 → promises s !! p = Some None.

(** No step so far has found [_t] null or the queue empty at its front, and
    none is about to: while the object is live it has its handle and the
    queue is not empty where its front is taken. *)
Definition safe_inv (s : State) : Prop :=
  life s ≠ Faulted Undefined
  ∧ (life s = Live → (∃ t, _t s = Some t) ∧ take_inv s).

(** The work step called on the payloads [ds] one after the other, from
    state [w]: the values returned and the state reached. A call that throws
    ends the run. *)
Fixpoint serve (ds : list DataType) (w : Self) : list ReturnType * Self :=
  match ds with
  | [] => ([], w)
  | d :: ds' =>
      match __work d w with
      | (Returned r, w') => let '(rs, w'') := serve ds' w' in (r :: rs, w'')
      | (Raised _, w') => ([], w')
      end
  end.

(** A fresh object whose clients have handed in the payloads [all]: they
    wait in the queue, in this order, with pending promises. *)
Definition queued_inv (all : list DataType) (s : State) : Prop :=
  fresh s
  ∧ promises s = replicate (length all) None
  ∧ _tasks s = tickets 0 all.

(** [fifo_inv] for a work step with a state of its own: a running worker,
    constructed in state [w0], whose clients have handed in the payloads
    [all]. The promises of a prefix [done] hold what the work step returns
    when called on [done] in this order from [w0], the derived object is in
    the state these calls lead to, and the task in flight followed by the
    queue is the rest. *)
Definition serial_inv (w0 : Self) (all : list DataType) (s : State) : Prop :=
  life s = Live ∧ _running s = true
  ∧ (∃ t, _t s = Some t ∧ _thread t = true ∧ _promise t = false)
  ∧ loop_inv s
  ∧ ∃ done todo,
      all = done ++ todo
      ∧ self s = (serve done w0).2
      ∧ promises s = (Some <$> (serve done w0).1) ++ replicate (length todo) None
      ∧ inflight s ++ _tasks s = tickets (length done) todo.
End ActiveRunnable.
End ActiveRunnable.

(** ** Fixtures *)

Module Fixtures.
Import Thread Thread.WIN32.

(** An operating system that grants every request ([SetThreadPriority]
    answers non-zero), and one that refuses every request (it answers 0
    and [GetLastError()] reads 87, ERROR_INVALID_PARAMETER). *)
Definition os_granting : OS :=
  {| sched := λ _, 1%Z; last_error := 0%Z; joinable_at_spawn := true |}.
Definition os_refusing : OS :=
  {| sched := λ _, 0%Z; last_error := 87%Z; joinable_at_spawn := true |}.


(** A LINUX operating system whose [sched_setscheduler] fails with EPERM
    (it answers -1, [errno] reads 1), and one whose call succeeds (it
    answers 0). *)
Definition linux_refusing : @OS LINUX.priority :=
  {| sched := λ _, (-1)%Z; last_error := 1%Z; joinable_at_spawn := true |}.
Definition linux_granting : @OS LINUX.priority :=
  {| sched := λ _, 0%Z; last_error := 0%Z; joinable_at_spawn := true |}.

(** test_Runnable.cpp, [test_Runnable.run]: [value = true;]. *)
Definition raise_flag (value : bool) : result () * bool := (Returned (), true).

(** test_Runnable.cpp, [test_ActiveRunnable.run_with_data_type_and_return_type]:
    [_last = data; return _last;]. *)
Definition echo (data : Z) (_last : Z) : result Z * Z := (Returned data, data).

(** Work steps that throw. *)
Definition throwing (w : ()) : result () * () := (Raised (UserException 1), w).
Definition throwing_on (bad : Z) (data : Z) (w : ()) : result Z * () :=
  if (data =? bad)%Z then (Raised (UserException data), w) else (Returned data, w).

(** test_Runnable.cpp, [test_ActiveRunnable.run_with_return_type]:
    [uint8_t _count = 0; ... return _count++;]. *)
Definition counter (_ : ()) (_count : Z) : result Z * Z :=
  (Returned _count, ((_count + 1) `mod` 256)%Z).
End Fixtures.

(** * Properties *)

(** ** SizedQueue *)

Section SizedQueue_facts.
Context {_tp : Type}.
Variable _size : N.
Hypothesis size_nonzero : _size ≠ 0%N.

Import SizedQueue.

Let cap : nat := N.to_nat _size.

(** One push never hits the undefined [pop], and keeps the newest [cap]. *)
Lemma apply_push_spec (o : push_op) (q : t (_tp:=_tp)) :
  length q ≤ cap →
  apply_push _size o q = Some (drop (length (q ++ [pushed o]) - cap) (q ++ [pushed o])).
Proof.
  intros Hq.
  assert (Hstep : emplace_back _size (pushed o) q
                  = Some (drop (length (q ++ [pushed o]) - cap) (q ++ [pushed o]))).
  { unfold emplace_back, size. rewrite length_app. simpl.
    destruct (N.eqb_spec (N.of_nat (length q)) _size) as [Heq|Hne].
    - assert (Hlen : length q = cap) by (subst cap; lia).
      destruct q as [|y q]; simpl in *.
      + exfalso. subst cap. lia.
      + replace (S (length q + 1) - cap) with 1 by lia. reflexivity.
    - assert (Hlen : length q < cap) by (subst cap; lia).
      replace (length q + 1 - cap) with 0 by lia. reflexivity. }
  destruct o; exact Hstep.
Qed.

Lemma drop_oldest_app (l l' : list _tp) :
  drop (length (drop (length l - cap) l ++ l') - cap) (drop (length l - cap) l ++ l')
  = drop (length (l ++ l') - cap) (l ++ l').
Proof.
  assert (Hk : length l - cap ≤ length l) by lia.
  rewrite <- (drop_app_le l l' _ Hk), drop_drop, length_drop.
  f_equal. rewrite length_app. lia.
Qed.

Lemma pushes_spec (os : list push_op) (q : t (_tp:=_tp)) :
  length q ≤ cap →
  pushes _size os q
  = Some (drop (length (q ++ (pushed <$> os)) - cap) (q ++ (pushed <$> os))).
Proof.
  revert q. induction os as [|o os IH]; intros q Hq.
  - simpl. rewrite app_nil_r. replace (length q - cap) with 0 by lia. reflexivity.
  - cbn [pushes]. rewrite (apply_push_spec o q Hq). cbn [mbind option_bind].
    rewrite IH by (rewrite length_drop, length_app; simpl; lia).
    rewrite drop_oldest_app, fmap_cons, (cons_middle (pushed o) q).
    by rewrite <- (assoc_L (++)).
Qed.

(** C2. Capacity [_size > 0], more pushes than the capacity, starting from
    the empty queue: every push is defined, the queue ends up holding exactly
    the last [_size] pushed items, oldest first, and after every prefix of
    the pushes [size()] is at most [_size]. *)
Theorem sized_queue_keeps_last (os : list (@push_op _tp)) :
  (_size < N.of_nat (length os))%N →
  pushes _size os [] = Some (drop (length os - cap) (pushed <$> os))
  ∧ (∀ n, ∃ q, pushes _size (take n os) [] = Some q ∧ (size q ≤ _size)%N)
  ∧ length (drop (length os - cap) (pushed <$> os)) = cap.
Proof.
  intros HM. split; [|split].
  - rewrite pushes_spec by (simpl; lia). simpl. by rewrite length_fmap.
  - intros n. eexists. split.
    + apply pushes_spec. simpl. lia.
    + unfold size. rewrite length_drop. simpl. subst cap. lia.
  - rewrite length_drop, length_fmap. subst cap. lia.
Qed.
End SizedQueue_facts.

Lemma sized_queue_keeps_last_witness :
  SizedQueue.pushes 3 (SizedQueue.PushBack <$> [1; 2; 3; 4; 5]%Z) [] = Some [3; 4; 5]%Z
  ∧ SizedQueue.pushes 3
      [SizedQueue.PushBack 1; SizedQueue.EmplaceBack 2; SizedQueue.PushBack 3;
       SizedQueue.EmplaceBack 4; SizedQueue.EmplaceBack 5]%Z [] = Some [3; 4; 5]%Z.
Proof.
  split.
  - refine (proj1 (sized_queue_keeps_last 3%N _
                     (SizedQueue.PushBack <$> [1; 2; 3; 4; 5]%Z) _)).
    + discriminate.
    + vm_compute. reflexivity.
  - refine (proj1 (sized_queue_keeps_last 3%N _
                     [SizedQueue.PushBack 1; SizedQueue.EmplaceBack 2;
                      SizedQueue.PushBack 3; SizedQueue.EmplaceBack 4;
                      SizedQueue.EmplaceBack 5]%Z _)).
    + discriminate.
    + vm_compute. reflexivity.
Defined.

(** ** ThreadDetail *)

Section Thread_facts.
Import Thread.
Context `{PM : PriorityModel}.
Variable os : OS.

Lemma set_priority_not_started (p : Priority) (t : ThreadDetail) :
  _thread t = false →
  set_priority os p t = (true, store_priority p t, []).
Proof. intros Ht. unfold set_priority. by rewrite Ht. Qed.

Lemma set_priority_started_refused (p : Priority) (t : ThreadDetail) :
  _thread t = true → p ≠ DEFAULT → sched os p = 0%Z →
  set_priority os p t = (false, t, [OsSetPriority p; LogError (last_error os)]).
Proof.
  intros Ht Hp Hr. unfold set_priority. rewrite Ht, Hr. simpl.
  by rewrite decide_True.
Qed.

Lemma set_priority_started_accepted (p : Priority) (t : ThreadDetail) :
  _thread t = true → p ≠ DEFAULT → sched os p ≠ 0%Z →
  set_priority os p t = (true, store_priority p t, [OsSetPriority p]).
Proof.
  intros Ht Hp Hr. unfold set_priority. rewrite Ht. simpl.
  rewrite decide_True by done.
  by destruct (Z.eqb_spec (sched os p) 0).
Qed.


Lemma on_spawn_started (t : ThreadDetail) :
  _thread t = true →
  on_spawn os t = (t, spawn_effects os (_priority t)).
Proof.
  intros Ht.
  unfold on_spawn, spawn_effects, request_effects, set_priority.
  rewrite Ht. destruct t as [th pr p n]; simpl in *. subst th.
  destruct (joinable_at_spawn os); simpl; [|done].
  destruct (decide (p ≠ DEFAULT)); [|done].
  by destruct (sched os p =? 0)%Z.
Qed.

(** The deleter waits for a joinable handle's thread. *)
Lemma release_waits (finished : bool) (t : ThreadDetail) :
  _thread t = true →
  release finished t = Some () → finished = true.
Proof.
  unfold release, join. intros ->. by destruct finished.
Qed.

(** After [detach] it no longer does. *)
Lemma release_detached (finished : bool) (t t' : ThreadDetail) :
  detach t = Some t' → release finished t' = Some ().
Proof.
  unfold detach, release, join. destruct (_thread t); [|done].
  by intros [= <-].
Qed.
End Thread_facts.

(** ** Runnable *)

Section Runnable_facts.
Import Thread Runnable.
Context `{PM : PriorityModel} {Self : Type}.
Variable os : OS.
Variable __work : Self → result () * Self.

Local Abbreviation State := (@State PM Self).
Local Abbreviation step := (step os __work).
Local Abbreviation exec := (exec os __work).

Lemma runnable_run_first (s : State) :
  _running s = false → _t s = None →
  run os s = Some (Returned (),
                   with_thread (Some PcSpawned)
                     (with_t (Some (started_handle (_priority s) (_name s)))
                        (with_running true s))).
Proof. intros Hr Ht. unfold run. by rewrite Hr, Ht. Qed.

Lemma runnable_run_again (s : State) :
  _running s = true →
  run os s = Some (Raised AlreadyRunningException, s).
Proof. intros Hr. unfold run. by rewrite Hr. Qed.

Lemma runnable_step_keeps_running (e : event) (s s' : State) :
  e ≠ Stop → step e s = Some s' → _running s = true → _running s' = true.
Proof.
  intros He Hstep Hr. unfold step in Hstep.
  destruct (life s); [|done..].
  destruct e; try done.
  - rewrite (runnable_run_again s Hr) in Hstep. by simplify_eq/=.
  - simplify_eq/=. unfold set_priority. simpl. rewrite Hr.
    repeat case_match; by simplify_eq/=.
  - simplify_eq/=. unfold set_name. simpl. rewrite Hr.
    repeat case_match; by simplify_eq/=.
  - unfold thread_step in Hstep.
    destruct (thread s) as [[]|]; simpl in Hstep;
      repeat case_match; by simplify_eq/=.
  - unfold destroy in Hstep. repeat case_match; by simplify_eq/=.
Qed.

Lemma runnable_exec_keeps_running (es : list event) (s s' : State) :
  Forall (λ e, e ≠ Stop) es → exec es s = Some s' →
  _running s = true → _running s' = true.
Proof.
  intros Hes. revert s. induction Hes as [|e es He _ IH]; intros s Hex Hr.
  - by simplify_eq/=.
  - simpl in Hex. destruct (step e s) as [s1|] eqn:Hs; [|done].
    eapply IH; [done|]. by eapply runnable_step_keeps_running.
Qed.

(** Calling [run()] twice in a row, with anything but [stop()] in between. *)
Lemma runnable_run_twice (s0 : State) :
  _running s0 = false → _t s0 = None →
  ∃ s1, run os s0 = Some (Returned (), s1)
        ∧ completed s1 = false
        ∧ ∀ es s, Forall (λ e, e ≠ Stop) es → exec es s1 = Some s →
                  run os s = Some (Raised AlreadyRunningException, s).
Proof.
  intros Hr Ht. eexists. split; [by apply runnable_run_first|]. split; [done|].
  intros es s Hes Hex. apply runnable_run_again.
  by eapply runnable_exec_keeps_running.
Qed.



(** A throwing work step ends the process; nothing records the error. *)
Lemma runnable_work_throws (s : State) (e : exn) (w : Self) :
  life s = Live → thread s = Some PcWork → __work (self s) = (Raised e, w) →
  ∃ s', step ThreadStep s = Some s'
        ∧ life s' = Faulted Terminate
        ∧ _running s' = _running s
        ∧ completed s' = completed s
        ∧ ∀ e', step e' s' = None.
Proof.
  intros Hl Hpc Hw. eexists. split.
  - unfold step, thread_step. rewrite Hl, Hpc. simpl. by rewrite Hw.
  - done.
Qed.

Lemma runnable_step_handle_inv (e : event) (s s' : State) :
  step e s = Some s' → handle_inv s → handle_inv s'.
Proof.
  unfold step, handle_inv. destruct (life s) eqn:Hl; [|done..].
  destruct e; simpl.
  - unfold run. destruct (_running s); [intros; by simplify_eq/=; rewrite Hl|].
    intros Hstep Hinv.
    destruct (_t s) as [old|] eqn:Ht; simpl in Hstep.
    + destruct (release (finished s) old); simplify_eq/=. rewrite Hl. eauto.
    + simplify_eq/=. rewrite Hl. eauto.
  - intros [= <-]. simpl. by rewrite Hl.
  - intros [= <-]. unfold set_priority. simpl.
    destruct (_running s); simpl; [|by rewrite Hl].
    destruct (_t s) as [t|] eqn:Ht; simpl; [|done].
    destruct (Thread.set_priority os priority t) as [[ok t'] effs] eqn:Hsp.
    simpl. rewrite Hl. destruct (thread s); [|intros; done].
    intros (t0 & [= <-] & Hj). exists t'. split; [done|].
    unfold Thread.set_priority in Hsp. rewrite Hj in Hsp. simpl in Hsp.
    repeat case_match; by simplify_eq/=.
  - intros [= <-]. unfold set_name. simpl.
    destruct (_running s); simpl; [|by rewrite Hl].
    destruct (_t s) as [t|] eqn:Ht; simpl; [|done].
    rewrite Hl. destruct (thread s); [|done].
    intros (t0 & [= <-] & Hj). eauto.
  - unfold thread_step. destruct (thread s) as [[]|] eqn:Hpc; simpl; [..|done].
    + intros Hstep (t & Ht & Hj). rewrite Ht in Hstep.
      rewrite on_spawn_started in Hstep by done. simplify_eq/=.
      rewrite Hl. eauto.
    + intros Hstep Hinv. destruct (_running s); simplify_eq/=; by rewrite Hl.
    + intros Hstep Hinv.
      destruct (__work (self s)) as [[]]; simplify_eq/=; [by rewrite Hl|done].
    + intros Hstep (t & Ht & Hj). rewrite Ht in Hstep. simplify_eq/=.
      rewrite Hl. eauto.
    + done.
  - unfold destroy. intros Hstep Hinv.
    destruct (thread s) as [pc|] eqn:Hpc.
    + destruct Hinv as (t & Ht & Hj). rewrite Ht in Hstep.
      destruct (release (finished s) t) as [[]|] eqn:Hrel.
      * simplify_eq/=. apply release_waits in Hrel; [|done].
        unfold finished in Hrel. rewrite Hpc in Hrel.
        destruct pc; try done. by right.
      * destruct pc; by simplify_eq/=.
    + rewrite Hinv in Hstep. simplify_eq/=. by left.
Qed.

Lemma runnable_exec_handle_inv (es : list event) (s s' : State) :
  exec es s = Some s' → handle_inv s → handle_inv s'.
Proof.
  revert s. induction es as [|e es IH]; intros s Hex Hinv.
  - by simplify_eq/=.
  - simpl in Hex. destruct (step e s) as [s1|] eqn:Hs; [|done].
    eapply IH; [done|]. by eapply runnable_step_handle_inv.
Qed.

(** The destructor where the handle is joinable exactly while there is a
    thread to join. Once the object is gone its thread has returned (or
    never existed). The destructor returns
    where there is no thread or the thread has returned; it waits for a
    thread that has left the loop; with the thread before or inside the
    loop the behaviour is undefined. *)
Lemma runnable_destroy_cases (s : State) :
  handle_inv s →
  (life s = Destroyed → thread s = None ∨ thread s = Some PcDone)
  ∧ (life s = Live → thread s = None ∨ thread s = Some PcDone →
     step Destroy s = Some (with_life Destroyed (with_t None s)))
  ∧ (life s = Live → thread s = Some PcReturn → step Destroy s = None)
  ∧ (life s = Live → thread s ≠ None → thread s ≠ Some PcReturn →
     thread s ≠ Some PcDone →
     step Destroy s = Some (with_life (Faulted Undefined) s)).
Proof.
  intros Hinv. unfold handle_inv in Hinv. split_and!.
  - intros Hl. by rewrite Hl in Hinv.
  - intros Hl Hpc. rewrite Hl in Hinv. unfold step, destroy. rewrite Hl.
    destruct Hpc as [Hpc|Hpc]; rewrite Hpc in Hinv.
    + by rewrite Hinv.
    + destruct Hinv as (t & Ht & Hj). rewrite Ht.
      unfold release, join, finished. by rewrite Hj, Hpc.
  - intros Hl Hpc. rewrite Hl, Hpc in Hinv. destruct Hinv as (t & Ht & Hj).
    unfold step, destroy. rewrite Hl, Ht.
    unfold release, join, finished. by rewrite Hj, Hpc.
  - intros Hl Hsome Hret Hdone. rewrite Hl in Hinv.
    destruct (thread s) as [pc|] eqn:Hpc; [|done].
    destruct Hinv as (t & Ht & Hj).
    unfold step, destroy. rewrite Hl, Ht.
    unfold release, join, finished. rewrite Hj, Hpc. by destruct pc.
Qed.
End Runnable_facts.

(** ** ActiveRunnable *)

Section ActiveRunnable_facts.
Import Thread ActiveRunnable.
Context `{PM : PriorityModel} {DataType ReturnType Self : Type}.
Variable os : OS.
Variable __work : DataType → Self → result ReturnType * Self.

Local Abbreviation State := (@State PM DataType ReturnType Self).
Local Abbreviation event := (@event PM DataType).
Local Abbreviation thread_step := (thread_step os __work).
Local Abbreviation step := (step os __work).
Local Abbreviation exec := (exec os __work).
Local Abbreviation drain := (drain os __work).

Lemma active_run_first (s : State) :
  _running s = false → _t s = None →
  run os s = Some (Returned (),
                   with_thread (Some PcSpawned)
                     (with_t (Some (started_handle (_priority s) (_name s)))
                        (with_running true s))).
Proof. intros Hr Ht. unfold run. by rewrite Hr, Ht. Qed.

Lemma active_run_again (s : State) :
  _running s = true →
  run os s = Some (Raised AlreadyRunningException, s).
Proof. intros Hr. unfold run. by rewrite Hr. Qed.

Lemma notify_one_running (s : State) : _running (notify_one s) = _running s.
Proof. unfold notify_one. by repeat case_match. Qed.

Lemma notify_one_tasks (s : State) : _tasks (notify_one s) = _tasks s.
Proof. unfold notify_one. by repeat case_match. Qed.

Lemma notify_one_promises (s : State) : promises (notify_one s) = promises s.
Proof. unfold notify_one. by repeat case_match. Qed.

Lemma notify_one_life (s : State) : life (notify_one s) = life s.
Proof. unfold notify_one. by repeat case_match. Qed.

Lemma notify_one_t (s : State) : _t (notify_one s) = _t s.
Proof. unfold notify_one. by repeat case_match. Qed.

Lemma active_step_keeps_running (e : event) (s s' : State) :
  e ≠ Stop → step e s = Some s' → _running s = true → _running s' = true.
Proof.
  intros He Hstep Hr. unfold step in Hstep.
  destruct (life s); [|done..].
  destruct e; try done.
  - rewrite (active_run_again s Hr) in Hstep. by simplify_eq/=.
  - unfold notify in Hstep. destruct (_notifyLock s); simplify_eq/=.
    case_decide; simplify_eq/=. by rewrite notify_one_running.
  - simplify_eq/=. unfold set_priority. simpl. rewrite Hr.
    repeat case_match; by simplify_eq/=.
  - simplify_eq/=. unfold set_name. simpl. rewrite Hr.
    repeat case_match; by simplify_eq/=.
  - unfold ActiveRunnable.thread_step in Hstep.
    destruct (thread s) as [[]|]; simpl in Hstep;
      repeat case_match; by simplify_eq/=.
  - repeat case_match; by simplify_eq/=.
  - unfold destroy in Hstep. repeat case_match; by simplify_eq/=.
Qed.

Lemma active_exec_keeps_running (es : list event) (s s' : State) :
  Forall (λ e, e ≠ Stop) es → exec es s = Some s' →
  _running s = true → _running s' = true.
Proof.
  intros Hes. revert s. induction Hes as [|e es He _ IH]; intros s Hex Hr.
  - by simplify_eq/=.
  - simpl in Hex. destruct (step e s) as [s1|] eqn:Hs; [|done].
    eapply IH; [done|]. by eapply active_step_keeps_running.
Qed.

(** Calling [run()] twice in a row, with anything but [stop()] in between. *)
Lemma active_run_twice (s0 : State) :
  _running s0 = false → _t s0 = None →
  ∃ s1, run os s0 = Some (Returned (), s1)
        ∧ completed s1 = false
        ∧ ∀ es s, Forall (λ e, e ≠ Stop) es → exec es s1 = Some s →
                  run os s = Some (Raised AlreadyRunningException, s).
Proof.
  intros Hr Ht. eexists. split; [by apply active_run_first|]. split; [done|].
  intros es s Hes Hex. apply active_run_again.
  by eapply active_exec_keeps_running.
Qed.



(** A throwing work step ends the process: the task's promise stays
    pending, the queue is left as it is, and nothing happens afterwards. *)
Lemma active_work_throws (s : State) (d : DataType) (p : nat) (e : exn) (w : Self) :
  life s = Live → thread s = Some (PcWork d p) →
  __work d (self s) = (Raised e, w) →
  ∃ s', step ThreadStep s = Some s'
        ∧ life s' = Faulted Terminate
        ∧ promises s' = promises s
        ∧ _tasks s' = _tasks s
        ∧ completed s' = completed s
        ∧ ∀ es, es ≠ [] → exec es s' = None.
Proof.
  intros Hl Hpc Hw. eexists. split.
  - unfold ActiveRunnable.step, ActiveRunnable.thread_step.
    rewrite Hl, Hpc. simpl. by rewrite Hw.
  - repeat split; try done. by intros [|e' es].
Qed.

Lemma active_step_handle_inv (e : event) (s s' : State) :
  step e s = Some s' → handle_inv s → handle_inv s'.
Proof.
  unfold ActiveRunnable.step, handle_inv. destruct (life s) eqn:Hl; [|done..].
  destruct e; simpl.
  - unfold run. destruct (_running s); [intros; by simplify_eq/=; rewrite Hl|].
    intros Hstep Hinv.
    destruct (_t s) as [old|] eqn:Ht; simpl in Hstep.
    + destruct (release (finished s) old); simplify_eq/=. rewrite Hl. eauto.
    + simplify_eq/=. rewrite Hl. eauto.
  - unfold notify. destruct (_notifyLock s); [done|]. simpl.
    case_decide; [|done]. intros [= <-].
    rewrite notify_one_life, notify_one_t. simpl. rewrite Hl.
    unfold notify_one. simpl.
    destruct (thread s) as [[]|] eqn:Hpc; simpl; by rewrite ?Hpc.
  - unfold stop. destruct (_notifyLock s); [done|]. intros [= <-].
    rewrite notify_one_life, notify_one_t. simpl. rewrite Hl.
    unfold notify_one. simpl.
    destruct (thread s) as [[]|] eqn:Hpc; simpl; by rewrite ?Hpc.
  - intros [= <-]. unfold set_priority. simpl.
    destruct (_running s); simpl; [|by rewrite Hl].
    destruct (_t s) as [t|] eqn:Ht; simpl; [|done].
    destruct (Thread.set_priority os priority t) as [[ok t'] effs] eqn:Hsp.
    simpl. rewrite Hl. destruct (thread s); [|intros; done].
    intros (t0 & [= <-] & Hj). exists t'. split; [done|].
    unfold Thread.set_priority in Hsp. rewrite Hj in Hsp. simpl in Hsp.
    repeat case_match; by simplify_eq/=.
  - intros [= <-]. unfold set_name. simpl.
    destruct (_running s); simpl; [|by rewrite Hl].
    destruct (_t s) as [t|] eqn:Ht; simpl; [|done].
    rewrite Hl. destruct (thread s); [|done].
    intros (t0 & [= <-] & Hj). eauto.
  - unfold ActiveRunnable.thread_step.
    destruct (thread s) as [[]|] eqn:Hpc; simpl; try done.
    + intros Hstep (t & Ht & Hj). rewrite Ht in Hstep.
      rewrite on_spawn_started in Hstep by done. simplify_eq/=.
      rewrite Hl. eauto.
    + intros Hstep Hinv. destruct (_running s); simplify_eq/=; by rewrite Hl.
    + intros Hstep Hinv. destruct (_notifyLock s); simplify_eq/=; by rewrite Hl.
    + intros Hstep Hinv. destruct (_tasks s); simplify_eq/=; by rewrite Hl.
    + intros Hstep Hinv. destruct (_notifyLock s); simplify_eq/=; by rewrite Hl.
    + intros Hstep Hinv. destruct (_running s); simplify_eq/=; by rewrite Hl.
    + intros Hstep Hinv.
      destruct (_tasks s) as [|[]]; simplify_eq/=; [done|by rewrite Hl].
    + intros Hstep Hinv.
      destruct (__work data (self s)) as [[]]; [|by simplify_eq/=].
      destruct (promise_set_value _ _ _); simplify_eq/=; [by rewrite Hl|done].
    + intros Hstep (t & Ht & Hj). rewrite Ht in Hstep. simplify_eq/=.
      rewrite Hl. eauto.
  - destruct (thread s) as [[]|] eqn:Hpc; try done.
    intros [= <-]. simpl. by rewrite Hl.
  - unfold destroy. intros Hstep Hinv.
    destruct (thread s) as [pc|] eqn:Hpc.
    + destruct Hinv as (t & Ht & Hj). rewrite Ht in Hstep.
      destruct (release (finished s) t) as [[]|] eqn:Hrel.
      * simplify_eq/=. apply release_waits in Hrel; [|done].
        unfold finished in Hrel. rewrite Hpc in Hrel.
        destruct pc; try done. by right.
      * destruct pc; by simplify_eq/=.
    + rewrite Hinv in Hstep. simplify_eq/=. by left.
Qed.

Lemma active_exec_handle_inv (es : list event) (s s' : State) :
  exec es s = Some s' → handle_inv s → handle_inv s'.
Proof.
  revert s. induction es as [|e es IH]; intros s Hex Hinv.
  - by simplify_eq/=.
  - simpl in Hex. destruct (step e s) as [s1|] eqn:Hs; [|done].
    eapply IH; [done|]. by eapply active_step_handle_inv.
Qed.

(** The destructor where the handle is joinable exactly while there is a
    thread to join, as for Runnable. *)
Lemma active_destroy_cases (s : State) :
  handle_inv s →
  (life s = Destroyed → thread s = None ∨ thread s = Some PcDone)
  ∧ (life s = Live → thread s = None ∨ thread s = Some PcDone →
     step Destroy s = Some (with_life Destroyed (with_t None s)))
  ∧ (life s = Live → thread s = Some PcReturn → step Destroy s = None)
  ∧ (life s = Live → thread s ≠ None → thread s ≠ Some PcReturn →
     thread s ≠ Some PcDone →
     step Destroy s = Some (with_life (Faulted Undefined) s)).
Proof.
  intros Hinv. unfold handle_inv in Hinv. split_and!.
  - intros Hl. by rewrite Hl in Hinv.
  - intros Hl Hpc. rewrite Hl in Hinv.
    unfold ActiveRunnable.step, destroy. rewrite Hl.
    destruct Hpc as [Hpc|Hpc]; rewrite Hpc in Hinv.
    + by rewrite Hinv.
    + destruct Hinv as (t & Ht & Hj). rewrite Ht.
      unfold release, join, finished. by rewrite Hj, Hpc.
  - intros Hl Hpc. rewrite Hl, Hpc in Hinv. destruct Hinv as (t & Ht & Hj).
    unfold ActiveRunnable.step, destroy. rewrite Hl, Ht.
    unfold release, join, finished. by rewrite Hj, Hpc.
  - intros Hl Hsome Hret Hdone. rewrite Hl in Hinv.
    destruct (thread s) as [pc|] eqn:Hpc; [|done].
    destruct Hinv as (t & Ht & Hj).
    unfold ActiveRunnable.step, destroy. rewrite Hl, Ht.
    unfold release, join, finished. rewrite Hj, Hpc. by destruct pc.
Qed.

(** *** One task in, one task out *)

(** [notify] allocates a promise nobody else holds, puts the task behind
    all queued ones, and hands back that promise's future. *)
Lemma notify_appends (d : DataType) (s s' : State) (future : nat) :
  notify d s = Some (future, s') →
  promises s !! future = None
  ∧ promises s' = promises s ++ [None]
  ∧ promises s' !! future = Some None
  ∧ _tasks s' = _tasks s ++ [(d, future)].
Proof.
  unfold notify. destruct (_notifyLock s); [done|]. intros [= <- <-].
  rewrite notify_one_promises, notify_one_tasks. simpl. split_and!; try done.
  - by apply lookup_ge_None.
  - by apply list_lookup_middle.
Qed.

(** The loop takes the task at the front and nothing else. *)
Lemma take_front (s : State) (d : DataType) (p : nat) (rest : list TaskType) :
  life s = Live → thread s = Some PcTake → _tasks s = (d, p) :: rest →
  ∃ s', step ThreadStep s = Some s'
        ∧ thread s' = Some (PcWork d p) ∧ _tasks s' = rest
        ∧ promises s' = promises s.
Proof.
  intros Hl Hpc Hts. unfold ActiveRunnable.step, ActiveRunnable.thread_step.
  rewrite Hl, Hpc. simpl. rewrite Hts. by eexists.
Qed.

(** The value the work step returns goes to the promise of the task it
    was called for, and to no other. *)
Lemma work_answers (s : State) (d : DataType) (p : nat) (r : ReturnType) (w : Self) :
  life s = Live → thread s = Some (PcWork d p) →
  __work d (self s) = (Returned r, w) → promises s !! p = Some None →
  ∃ s', step ThreadStep s = Some s'
        ∧ thread s' = Some PcLoop
        ∧ promises s' = <[p := Some r]> (promises s)
        ∧ _tasks s' = _tasks s.
Proof.
  intros Hl Hpc Hw Hp. unfold ActiveRunnable.step, ActiveRunnable.thread_step.
  rewrite Hl, Hpc. simpl. rewrite Hw. unfold promise_set_value. rewrite Hp.
  by eexists.
Qed.

(** *** Leaving the loop *)

(** Reading the lowered flag, at either place the loop reads it, leaves
    the loop at once and touches neither the queue nor a promise. *)
Lemma observe_stop (s : State) :
  life s = Live → _running s = false →
  thread s = Some PcLoop ∨ thread s = Some PcCheckStop →
  ∃ s0, step ThreadStep s = Some s0
        ∧ thread s0 = Some PcReturn
        ∧ _tasks s0 = _tasks s ∧ promises s0 = promises s.
Proof.
  intros Hl Hr Hpc.
  unfold ActiveRunnable.step, ActiveRunnable.thread_step. rewrite Hl.
  destruct Hpc as [-> | ->]; simpl; rewrite Hr; simpl; by eexists.
Qed.

(** [stop()] on a worker whose thread waits: the thread wakes, takes the
    mutex, reads the flag and leaves. *)
Lemma stop_wakes (s : State) :
  life s = Live → thread s = Some PcWait → _notifyLock s = false →
  ∃ s0, exec [Stop; ThreadStep; ThreadStep] s = Some s0
        ∧ thread s0 = Some PcReturn
        ∧ _tasks s0 = _tasks s ∧ promises s0 = promises s.
Proof.
  intros Hl Hpc Hlock. destruct s. simpl in *. subst.
  by eexists.
Qed.

Lemma abandoned_step (e : event) (s0 s s' : State) :
  e ≠ Run → step e s = Some s' → abandoned s0 s → abandoned s0 s'.
Proof.
  intros He Hstep (Hpc & [n Hp] & [more Hq]).
  unfold ActiveRunnable.step in Hstep. destruct (life s); [|done..].
  assert (Hn1 : ∀ x : State, thread x = thread s → notify_one x = x).
  { intros x Hx. unfold notify_one. rewrite Hx. by destruct Hpc as [-> | ->]. }
  destruct e; try done.
  - unfold notify in Hstep. destruct (_notifyLock s); [done|]. simpl in Hstep.
    case_decide; [|done]. injection Hstep as <-.
    rewrite Hn1 by done. unfold abandoned. simpl. split_and!; [done|..].
    + exists (S n). rewrite Hp, replicate_S_end. by rewrite (assoc_L (++)).
    + eexists. rewrite Hq. by rewrite <- (assoc_L (++)).
  - unfold stop in Hstep. destruct (_notifyLock s); [done|].
    injection Hstep as <-. rewrite Hn1 by done.
    unfold abandoned. simpl. eauto.
  - injection Hstep as <-. unfold set_priority. simpl.
    unfold abandoned. repeat case_match; simpl; eauto.
  - injection Hstep as <-. unfold set_name. simpl.
    unfold abandoned. repeat case_match; simpl; eauto.
  - unfold ActiveRunnable.thread_step in Hstep.
    destruct Hpc as [Hpc | Hpc]; rewrite Hpc in Hstep; simpl in Hstep; [|done].
    unfold abandoned.
    destruct (_t s); injection Hstep as <-; simpl; rewrite ?Hpc; eauto 10.
  - destruct Hpc as [Hpc | Hpc]; by rewrite Hpc in Hstep.
  - unfold destroy in Hstep.
    destruct (match _t s with Some t => _ | None => _ end).
    + injection Hstep as <-. unfold abandoned. simpl. eauto.
    + destruct Hpc as [Hpc|Hpc]; rewrite Hpc in Hstep; [done|].
      injection Hstep as <-. unfold abandoned. simpl. rewrite Hpc.
      split_and!; eauto.
Qed.

Lemma abandoned_exec (es : list event) (s0 s s' : State) :
  Forall (λ e, e ≠ Run) es → exec es s = Some s' →
  abandoned s0 s → abandoned s0 s'.
Proof.
  intros Hes. revert s. induction Hes as [|e es He _ IH]; intros s Hex Hab.
  - by simplify_eq/=.
  - simpl in Hex. destruct (step e s) as [s1|] eqn:Hs; [|done].
    eapply IH; [done|]. by eapply abandoned_step.
Qed.

(** *** Taking the front task *)

Lemma set_priority_frame (p : Priority) (s : State) :
  thread (set_priority os p s).2 = thread s
  ∧ _tasks (set_priority os p s).2 = _tasks s
  ∧ _running (set_priority os p s).2 = _running s.
Proof.
  unfold set_priority. simpl. destruct (_running s) eqn:Hr; [|done].
  destruct (_t s); [|done].
  by destruct (Thread.set_priority os p t) as [[]].
Qed.

Lemma set_name_frame (n : string) (s : State) :
  thread (set_name n s) = thread s
  ∧ _tasks (set_name n s) = _tasks s
  ∧ _running (set_name n s) = _running s.
Proof.
  unfold set_name. simpl. destruct (_running s) eqn:Hr; [|done].
  by destruct (_t s).
Qed.

Lemma take_inv_frame (s s' : State) :
  thread s' = thread s → _tasks s' = _tasks s → _running s' = _running s →
  take_inv s → take_inv s'.
Proof. unfold take_inv. by intros -> -> ->. Qed.

Lemma take_inv_step (e : event) (s s' : State) :
  e ≠ SpuriousWake → e ≠ Run →
  step e s = Some s' → take_inv s → take_inv s'.
Proof.
  intros He1 He2 Hstep Hinv.
  unfold ActiveRunnable.step in Hstep. destruct (life s); [|done..].
  destruct e; try done.
  - unfold notify in Hstep. destruct (_notifyLock s); [done|]. simpl in Hstep.
    case_decide; [|done]. injection Hstep as <-.
    unfold take_inv, notify_one in *. simpl.
    destruct (thread s) as [[]|] eqn:Hpc; simpl; rewrite ?Hpc; try done;
      try left; by destruct (_tasks s).
  - unfold stop in Hstep. destruct (_notifyLock s); [done|].
    injection Hstep as <-.
    unfold take_inv, notify_one in *. simpl.
    destruct (thread s) as [[]|] eqn:Hpc; simpl; rewrite ?Hpc; try done; auto.
  - injection Hstep as <-. destruct (set_priority_frame priority s) as (?&?&?).
    by eapply take_inv_frame.
  - injection Hstep as <-. destruct (set_name_frame name s) as (?&?&?).
    by eapply take_inv_frame.
  - unfold ActiveRunnable.thread_step, take_inv in *.
    destruct (thread s) as [[]|] eqn:Hpc; simpl in *; try done.
    + destruct (_t s); [|by injection Hstep as <-; simpl; rewrite Hpc].
      destruct (on_spawn os t). by injection Hstep as <-.
    + destruct (_running s); by injection Hstep as <-.
    + destruct (_notifyLock s); [done|]. by injection Hstep as <-.
    + destruct (_tasks s) eqn:Hts; injection Hstep as <-; simpl;
        [done|left; by rewrite Hts].
    + destruct (_notifyLock s); [done|]. by injection Hstep as <-.
    + destruct (_running s) eqn:Hr; injection Hstep as <-; simpl; [|done].
      by destruct Hinv.
    + destruct (_tasks s) as [|[]]; [done|]. by injection Hstep as <-.
    + destruct (__work data (self s)) as [[]];
        [destruct (promise_set_value _ _ _)|];
        injection Hstep as <-; simpl; by rewrite ?Hpc.
    + destruct (_t s); injection Hstep as <-; simpl; by rewrite ?Hpc.
  - unfold destroy in Hstep.
    destruct (match _t s with Some t => _ | None => _ end);
      [|destruct (thread s) as [[]|] eqn:?; try done];
      by injection Hstep as <-.
Qed.

(** Without a wake-up that nobody caused, and without a second start, the
    queue is never empty where its front is taken. *)
Lemma take_inv_exec (es : list event) (s s' : State) :
  Forall (λ e, e ≠ SpuriousWake ∧ e ≠ Run) es →
  exec es s = Some s' → take_inv s → take_inv s'.
Proof.
  intros Hes. revert s. induction Hes as [|e es [He1 He2] _ IH]; intros s Hex Hinv.
  - by simplify_eq/=.
  - simpl in Hex. destruct (step e s) as [s1|] eqn:Hs; [|done].
    eapply IH; [done|]. by eapply take_inv_step.
Qed.

Lemma take_front_nonempty (s0 s1 s : State) (es : list event) :
  _running s0 = false → _t s0 = None →
  run os s0 = Some (Returned (), s1) →
  Forall (λ e, e ≠ SpuriousWake ∧ e ≠ Run) es →
  exec es s1 = Some s →
  thread s = Some PcTake → _tasks s ≠ [].
Proof.
  intros Hr Ht Hrun Hes Hex Hpc.
  rewrite active_run_first in Hrun by done. injection Hrun as <-.
  assert (Hinv : take_inv s) by (by eapply take_inv_exec).
  unfold take_inv in Hinv. by rewrite Hpc in Hinv.
Qed.
End ActiveRunnable_facts.

(** *** First in, first out *)

Section ActiveRunnable_fifo.
Import Thread ActiveRunnable.
Context `{PM : PriorityModel} {DataType ReturnType Self : Type}.
Variable os : OS.
Variable __work : DataType → Self → result ReturnType * Self.
(** The work step answers [f d] on [d], whatever the state it runs in. *)
Variable f : DataType → ReturnType.
Hypothesis work_f : ∀ d w, (__work d w).1 = Returned (f d).

Local Abbreviation State := (@State PM DataType ReturnType Self).
Local Abbreviation event := (@event PM DataType).
Local Abbreviation step := (step os __work).
Local Abbreviation exec := (exec os __work).
Local Abbreviation drain := (drain os __work).

Lemma tickets_snoc (k : nat) (ds : list DataType) (d : DataType) :
  tickets k (ds ++ [d]) = tickets k ds ++ [(d, k + length ds)].
Proof.
  revert k. induction ds as [|d' ds IH]; intros k; simpl.
  - by rewrite Nat.add_0_r.
  - by rewrite IH, Nat.add_succ_r.
Qed.

Lemma tickets_nil (k : nat) (ds : list DataType) : tickets k ds = [] → ds = [].
Proof. by destruct ds. Qed.

Lemma tickets_cons (k : nat) (ds : list DataType) d p rest :
  tickets k ds = (d, p) :: rest →
  ∃ ds', ds = d :: ds' ∧ p = k ∧ rest = tickets (S k) ds'.
Proof. destruct ds as [|d' ds']; [done|]. simpl. intros [= -> -> <-]. eauto. Qed.

Lemma waiting_or_not (s : State) :
  thread s = Some PcWait ∨ thread s ≠ Some PcWait.
Proof. destruct (thread s) as [[]|]; auto. Qed.

(** A call to [notify] puts one task with a new promise at the back. *)
Lemma fifo_notify (all : list DataType) (d : DataType) (p : nat) (s s' : State) :
  fifo_inv f all s → notify d s = Some (p, s') →
  p = length all ∧ _tasks s' = _tasks s ++ [(d, p)]
  ∧ promises s' = promises s ++ [None]
  ∧ fifo_inv f (all ++ [d]) s'.
Proof.
  intros (Hl & Hr & Ht & Hloop & done & todo & -> & Hp & Hq) Hn.
  unfold notify in Hn. destruct (_notifyLock s) eqn:Hlock; [done|].
  injection Hn as <- <-.
  assert (Hlen : length (promises s) = length (done ++ todo)).
  { rewrite Hp, !length_app, length_fmap, length_replicate. done. }
  rewrite notify_one_tasks, notify_one_promises. simpl.
  split_and!; try done.
  unfold fifo_inv.
  rewrite notify_one_life, notify_one_running, notify_one_t.
  rewrite notify_one_tasks, notify_one_promises. simpl.
  split_and!; try done.
  - unfold loop_inv, notify_one in *. simpl.
    destruct (thread s) as [[]|] eqn:Hpc; simpl; rewrite ?Hpc; try done.
    + split; [done|]. by destruct (_tasks s).
    + split; [done|]. by destruct (_tasks s).
    + split; [tauto|]. by destruct (_tasks s).
    + split; [tauto|]. by destruct (_tasks s).
  - exists done, (todo ++ [d]). split_and!.
    + by rewrite (assoc_L (++)).
    + rewrite Hp, length_app. simpl.
      rewrite Nat.add_1_r, replicate_S_end. by rewrite (assoc_L (++)).
    + assert (Hin : inflight (notify_one
                      (with_tasks (_tasks s ++ [(d, length (promises s))])
                         (with_promises (promises s ++ [None]) s)))
                    = inflight s).
      { unfold inflight, notify_one. simpl.
        destruct (thread s) as [[]|] eqn:Hpc; simpl; by rewrite ?Hpc. }
      rewrite Hin, (assoc_L (++)), Hq, tickets_snoc.
      do 3 f_equal. rewrite Hlen, length_app. done.
Qed.

(** A step of the spawned thread: unless it is waiting for work it can
    move, and what it takes it takes from the front. *)
Lemma fifo_thread_step (all : list DataType) (s : State) :
  fifo_inv f all s → thread s ≠ Some PcWait →
  ∃ s', step ThreadStep s = Some s' ∧ fifo_inv f all s' ∧ rank s' < rank s.
Proof.
  intros (Hl & Hr & (t & Ht & Hj) & Hloop & done & todo & -> & Hp & Hq) Hpc.
  unfold ActiveRunnable.step, ActiveRunnable.thread_step. rewrite Hl.
  unfold fifo_inv, loop_inv, inflight, rank in *.
  destruct (thread s) as [[]|] eqn:Hth; simpl in *; try done.
  - rewrite Ht, on_spawn_started by done.
    eexists. split; [done|]. simpl. split; [|lia].
    split_and!; eauto; try tauto.
  - rewrite Hr. eexists. split; [done|]. simpl. split; [|lia].
    split_and!; eauto; try tauto.
  - rewrite Hloop. eexists. split; [done|]. simpl. split; [|lia].
    split_and!; eauto; try tauto.
  - destruct (_tasks s) as [|task rest] eqn:Hts.
    + eexists. split; [done|]. simpl. rewrite Hts. split; [|simpl; lia].
      split_and!; eauto; try tauto.
    + eexists. split; [done|]. simpl. rewrite Hts. split; [|simpl; lia].
      split_and!; eauto; try tauto.
  - destruct Hloop as [-> Hne]. eexists. split; [done|]. simpl. split; [|lia].
    split_and!; eauto; try tauto.
  - rewrite Hr. simpl. eexists. split; [done|]. simpl. split; [|lia].
    split_and!; eauto; try tauto.
  - destruct Hloop as [Hlock Hne].
    destruct (_tasks s) as [|[d p] rest] eqn:Hts; [done|].
    eexists. split; [done|]. simpl. split; [|lia].
    split_and!; eauto; try tauto.
  - symmetry in Hq. apply tickets_cons in Hq as (todo' & -> & -> & Hrest).
    pose proof (work_f data (self s)) as Hw.
    destruct (__work data (self s)) as [r w] eqn:Hwork. simpl in Hw. subst r.
    assert (Hpend : promises s !! length done = Some None).
    { rewrite Hp, lookup_app_r by (by rewrite length_fmap).
      rewrite length_fmap, Nat.sub_diag. done. }
    unfold promise_set_value. rewrite Hpend.
    eexists. split; [done|]. simpl. split; [|lia].
    split_and!; eauto; try tauto.
    exists (done ++ [data]), todo'. split_and!.
    + by rewrite <- (assoc_L (++)).
    + rewrite Hp. simpl.
      rewrite insert_app_r_alt by (by rewrite length_fmap).
      rewrite length_fmap, Nat.sub_diag. simpl.
      rewrite fmap_app. simpl. by rewrite <- (assoc_L (++)).
    + rewrite Hrest, length_app. simpl. by rewrite Nat.add_1_r.
Qed.

Lemma fifo_waiting (all : list DataType) (s : State) :
  fifo_inv f all s → thread s = Some PcWait →
  step ThreadStep s = None ∧ promises s = Some ∘ f <$> all.
Proof.
  intros (Hl & Hr & Ht & Hloop & done & todo & -> & Hp & Hq) Hpc.
  unfold ActiveRunnable.step, ActiveRunnable.thread_step. rewrite Hl, Hpc.
  split; [done|].
  unfold loop_inv, inflight in *. rewrite Hpc in Hloop, Hq.
  destruct Hloop as [_ Hts]. rewrite Hts in Hq. simpl in Hq.
  symmetry in Hq. apply tickets_nil in Hq as ->.
  rewrite Hp. simpl. by rewrite !app_nil_r.
Qed.

(** At any moment the answered promises are a prefix, in order. *)
Lemma fifo_prefix (all : list DataType) (s : State) :
  fifo_inv f all s →
  ∃ k, k ≤ length all
       ∧ promises s = (Some ∘ f <$> take k all) ++ replicate (length all - k) None.
Proof.
  intros (Hl & Hr & Ht & Hloop & done & todo & -> & Hp & Hq).
  exists (length done). rewrite length_app. split; [lia|].
  rewrite take_app_length. rewrite Hp. do 2 f_equal. lia.
Qed.

Lemma fifo_step (all : list DataType) (e : event) (s s' : State) :
  producer_or_thread e → step e s = Some s' → fifo_inv f all s →
  fifo_inv f (all ++ (notified [e]).*1) s'
  ∧ (notified [e]).*2 = seq (length all) (length (notified [e])).
Proof.
  intros He Hstep Hinv. destruct e; try done.
  - unfold ActiveRunnable.step in Hstep.
    destruct Hinv as (Hl & Hinv'). rewrite Hl in Hstep.
    destruct (notify data s) as [[p s1]|] eqn:Hn; [|done]. simpl in Hstep.
    case_decide; [|done]. simplify_eq/=.
    assert (Hinv : fifo_inv f all s) by done.
    destruct (fifo_notify _ _ _ _ _ Hinv Hn) as (-> & _ & _ & Hinv1).
    done.
  - simpl. rewrite app_nil_r. split; [|done].
    destruct (waiting_or_not s) as [Hw|Hw].
    + destruct (fifo_waiting _ _ Hinv Hw) as [Hnone _]. congruence.
    + destruct (fifo_thread_step _ _ Hinv Hw) as (s1 & Hs1 & Hinv1 & _).
      congruence.
Qed.

Lemma fifo_exec (es : list event) (all : list DataType) (s s' : State) :
  Forall producer_or_thread es → exec es s = Some s' → fifo_inv f all s →
  fifo_inv f (all ++ (notified es).*1) s'
  ∧ (notified es).*2 = seq (length all) (length (notified es)).
Proof.
  intros Hes. revert all s.
  induction Hes as [|e es He _ IH]; intros all s Hex Hinv.
  - simplify_eq/=. by rewrite app_nil_r.
  - simpl in Hex. destruct (step e s) as [s1|] eqn:Hs; [|done]. simpl in Hex.
    destruct (fifo_step _ _ _ _ He Hs Hinv) as [Hinv1 Hf1].
    destruct (IH _ _ Hex Hinv1) as [Hinv2 Hf2].
    change (e :: es) with ([e] ++ es).
    unfold notified in *. rewrite omap_app, !fmap_app, length_app.
    rewrite (assoc_L (++)). split; [done|].
    rewrite Hf1, Hf2, length_app, length_fmap, seq_app. done.
Qed.

(** Left alone, the spawned thread answers everything handed in and then
    waits. *)
Lemma fifo_drain (n : nat) (all : list DataType) (s : State) :
  fifo_inv f all s → rank s ≤ n →
  fifo_inv f all (drain n s) ∧ thread (drain n s) = Some PcWait.
Proof.
  revert s. induction n as [|n IH]; intros s Hinv Hrank.
  - simpl. split; [done|].
    destruct Hinv as (_ & _ & _ & Hloop & _).
    unfold rank, loop_inv in *.
    destruct (thread s) as [[]|]; try done; lia.
  - simpl. destruct (waiting_or_not s) as [Hw|Hw].
    + destruct (fifo_waiting _ _ Hinv Hw) as [-> _]. done.
    + destruct (fifo_thread_step _ _ Hinv Hw) as (s1 & -> & Hinv1 & Hlt).
      apply IH; [done|lia].
Qed.

(** From a fresh object: [run()], then any interleaving of one producer's
    calls to [notify] with the steps of the spawned thread. *)
Lemma fifo_from_init (w : Self) (s1 s : State) (es : list event) :
  run os (init w) = Some (Returned (), s1) →
  Forall producer_or_thread es →
  exec es s1 = Some s →
  fifo_inv f (notified es).*1 s
  ∧ (notified es).*2 = seq 0 (length (notified es)).
Proof.
  intros Hrun Hes Hex.
  assert (Hinv : fifo_inv f [] s1).
  { rewrite active_run_first in Hrun by done. simplify_eq/=.
    unfold fifo_inv. simpl. split_and!; eauto; [done|].
    by exists [], []. }
  apply (fifo_exec es [] s1 s Hes Hex Hinv).
Qed.
End ActiveRunnable_fifo.

(** * The claims *)

Section Claims.
Import Thread.
Context `{PM : PriorityModel}.
Variable os : OS.

(** C1. A QueuedWorker<int,int> whose work step returns its input: after
    [run()], in every interleaving of one producer's [notify] calls for
    0, 1, 2, 3, 4, 5 with the steps of the spawned thread, the futures
    handed back are those of promises 0..5 in this order; at every moment
    the promises answered so far are the first [k] ones, promise [i]
    holding [i]; and the spawned thread, left to run, answers all six with
    [0, 1, 2, 3, 4, 5] and then waits. *)
Theorem queued_worker_identity_fifo {Self : Type}
    (__work : Z → Self → result Z * Self) (w : Self)
    (es : list (@ActiveRunnable.event PM Z))
    (s1 s : @ActiveRunnable.State PM Z Z Self) :
  (∀ d w, (__work d w).1 = Returned d) →
  ActiveRunnable.run os (ActiveRunnable.init w) = Some (Returned (), s1) →
  Forall ActiveRunnable.producer_or_thread es →
  (ActiveRunnable.notified es).*1 = [0; 1; 2; 3; 4; 5]%Z →
  ActiveRunnable.exec os __work es s1 = Some s →
  (ActiveRunnable.notified es).*2 = [0; 1; 2; 3; 4; 5]
  ∧ (∃ k, k ≤ 6
          ∧ ActiveRunnable.promises s
            = (Some <$> take k [0; 1; 2; 3; 4; 5]%Z) ++ replicate (6 - k) None)
  ∧ (∀ n, ActiveRunnable.rank s ≤ n →
          ActiveRunnable.life (ActiveRunnable.drain os __work n s) = Live
          ∧ ActiveRunnable.thread (ActiveRunnable.drain os __work n s)
            = Some ActiveRunnable.PcWait
          ∧ ActiveRunnable.promises (ActiveRunnable.drain os __work n s)
            = Some <$> [0; 1; 2; 3; 4; 5]%Z).
Proof.
  intros Hid Hrun Hes Hdata Hex.
  destruct (fifo_from_init os __work id Hid w s1 s es Hrun Hes Hex) as [Hinv Hfut].
  rewrite Hdata in Hinv.
  assert (Hlen : length (ActiveRunnable.notified es) = 6).
  { rewrite <- (length_fmap fst), Hdata. done. }
  rewrite Hlen in Hfut. split; [done|]. split.
  - destruct (fifo_prefix _ _ _ Hinv) as (k & Hk & Hp).
    exists k. split; [done|]. by rewrite Hp.
  - intros n Hn.
    destruct (fifo_drain os __work id Hid n _ s Hinv Hn) as [Hinv' Hw].
    destruct (fifo_waiting os __work id _ _ Hinv' Hw) as [_ Hp].
    split; [by destruct Hinv'|]. split; [done|].
    rewrite Hp. done.
Qed.

(** C3. For a Runnable and for an ActiveRunnable that has not been started:
    the first [run()] returns (the future of the handle's promise, not yet
    set) without raising, and after any events other than [stop()] a
    further [run()] raises AlreadyRunningException and leaves the object
    as it is. *)
Theorem run_twice_raises :
  (∀ (Self : Type) (__work : Self → result () * Self)
     (s0 : @Runnable.State PM Self),
      Runnable._running s0 = false → Runnable._t s0 = None →
      ∃ s1, Runnable.run os s0 = Some (Returned (), s1)
            ∧ Runnable.completed s1 = false
            ∧ ∀ es s, Forall (λ e, e ≠ Runnable.Stop) es →
                      Runnable.exec os __work es s1 = Some s →
                      Runnable.run os s = Some (Raised AlreadyRunningException, s))
  ∧ (∀ (DataType ReturnType Self : Type)
       (__work : DataType → Self → result ReturnType * Self)
       (s0 : @ActiveRunnable.State PM DataType ReturnType Self),
        ActiveRunnable._running s0 = false → ActiveRunnable._t s0 = None →
        ∃ s1, ActiveRunnable.run os s0 = Some (Returned (), s1)
              ∧ ActiveRunnable.completed s1 = false
              ∧ ∀ es s, Forall (λ e, e ≠ ActiveRunnable.Stop) es →
                        ActiveRunnable.exec os __work es s1 = Some s →
                        ActiveRunnable.run os s
                        = Some (Raised AlreadyRunningException, s)).
Proof.
  split.
  - intros Self __work s0. apply runnable_run_twice.
  - intros D R Self __work s0. apply active_run_twice.
Qed.

(** C4. When the spawned thread of an ActiveRunnable reads the lowered
    flag, at the loop head or right after [_cv.wait], it leaves the loop
    in that very step; a thread blocked in [_cv.wait] gets there by
    [stop()] and two steps of its own. Either way the queue and the
    promises are left as they were, and from then on, whatever happens
    short of another [run()], the thread never re-enters the loop, every
    task that was queued is still queued, and every promise that was
    pending is still pending. *)
Theorem stop_abandons_queued_tasks {DataType ReturnType Self : Type}
    (__work : DataType → Self → result ReturnType * Self)
    (s : @ActiveRunnable.State PM DataType ReturnType Self) :
  ActiveRunnable.life s = Live →
  (ActiveRunnable._running s = false →
   ActiveRunnable.thread s = Some ActiveRunnable.PcLoop
   ∨ ActiveRunnable.thread s = Some ActiveRunnable.PcCheckStop →
   ∃ s0, ActiveRunnable.step os __work ActiveRunnable.ThreadStep s = Some s0
         ∧ ActiveRunnable.abandons os __work s s0)
  ∧ (ActiveRunnable.thread s = Some ActiveRunnable.PcWait →
     ActiveRunnable._notifyLock s = false →
     ∃ s0, ActiveRunnable.exec os __work
             [ActiveRunnable.Stop; ActiveRunnable.ThreadStep;
              ActiveRunnable.ThreadStep] s = Some s0
           ∧ ActiveRunnable.abandons os __work s s0).
Proof.
  intros Hl.
  assert (Hleft : ∀ s0,
    ActiveRunnable.thread s0 = Some ActiveRunnable.PcReturn →
    ActiveRunnable._tasks s0 = ActiveRunnable._tasks s →
    ActiveRunnable.promises s0 = ActiveRunnable.promises s →
    ActiveRunnable.abandons os __work s s0).
  { intros s0 Hpc0 Hq0 Hp0. split_and!; try done.
    intros es s' Hes Hex'.
    assert (Hab : ActiveRunnable.abandoned s0 s0).
    { split; [by left|]. split; [exists 0|exists []]; by rewrite app_nil_r. }
    destruct (abandoned_exec os __work es s0 s0 s' Hes Hex' Hab)
      as (Hpc' & [n Hp'] & [more Hq']).
    split; [done|]. split.
    - intros task Hin. rewrite Hq', Hq0. apply elem_of_app. by left.
    - intros p Hp. rewrite Hp', Hp0. by apply lookup_app_l_Some. }
  split.
  - intros Hr Hpc.
    destruct (observe_stop os __work s Hl Hr Hpc) as (s0 & Hs & ? & ? & ?).
    exists s0. split; [done|]. by apply Hleft.
  - intros Hpc Hlock.
    destruct (stop_wakes os __work s Hl Hpc Hlock) as (s0 & Hs & ? & ? & ?).
    exists s0. split; [done|]. by apply Hleft.
Qed.

(** C6, as the code has it. When the work step of an ActiveRunnable throws
    while a task is being served, the exception leaves the thread function
    and the process is terminated: the task's promise stays pending, the
    queue keeps the tasks it held, the future of [run()] is not set, and no
    further event takes place. *)
Theorem queued_worker_error_terminates {DataType ReturnType Self : Type}
    (__work : DataType → Self → result ReturnType * Self)
    (s : @ActiveRunnable.State PM DataType ReturnType Self)
    (d : DataType) (p : nat) (e : exn) (w : Self) :
  ActiveRunnable.life s = Live →
  ActiveRunnable.thread s = Some (ActiveRunnable.PcWork d p) →
  __work d (ActiveRunnable.self s) = (Raised e, w) →
  ∃ s', ActiveRunnable.step os __work ActiveRunnable.ThreadStep s = Some s'
        ∧ ActiveRunnable.life s' = Faulted Terminate
        ∧ ActiveRunnable.promises s' = ActiveRunnable.promises s
        ∧ ActiveRunnable._tasks s' = ActiveRunnable._tasks s
        ∧ ActiveRunnable.completed s' = ActiveRunnable.completed s
        ∧ ∀ es, es ≠ [] → ActiveRunnable.exec os __work es s' = None.
Proof. apply active_work_throws. Qed.


End Claims.

(** * The claims on concrete runs *)

Section Runs.
Import Thread Thread.WIN32 Fixtures.

Local Abbreviation T := (@ActiveRunnable.ThreadStep priority Z).
Local Abbreviation Put := (@ActiveRunnable.Notify priority Z).
Local Abbreviation fresh_echo := (@ActiveRunnable.init priority Z Z Z (-1)%Z).
Local Abbreviation fresh_throwing := (@ActiveRunnable.init priority Z Z () ()).

(** Instantiate an existential with the value a run evaluates to. *)
Local Ltac exists_value t :=
  let v := eval vm_compute in t in
  match v with Some ?x => exists x end.
Local Ltac by_evaluation := vm_compute; reflexivity.

Lemma queued_worker_identity_fifo_witness :
  ∃ s1 s,
    let es := [Put 0 0; T; T; Put 1 1; T; T; T; T; Put 2 2; T; T;
               Put 3 3; Put 4 4; T; T; T; T; T; Put 5 5]%Z in
    ActiveRunnable.run os_granting fresh_echo = Some (Returned (), s1)
    ∧ ActiveRunnable.exec os_granting echo es s1 = Some s
    ∧ (ActiveRunnable.notified es).*2 = [0; 1; 2; 3; 4; 5]
    ∧ ActiveRunnable.promises (ActiveRunnable.drain os_granting echo 33 s)
      = Some <$> [0; 1; 2; 3; 4; 5]%Z.
Proof.
  exists_value (snd <$> ActiveRunnable.run os_granting fresh_echo).
  match goal with
  | |- ∃ s, let es := ?l in _ = Some (_, ?s1) ∧ _ =>
      exists_value (ActiveRunnable.exec os_granting echo l s1)
  end.
  intros es.
  match goal with
  | |- ?Hrun ∧ ?Hex ∧ _ =>
      assert (H1 : Hrun) by by_evaluation;
      assert (H2 : Hex) by by_evaluation
  end.
  split; [exact H1|]. split; [exact H2|].
  edestruct (queued_worker_identity_fifo os_granting echo (-1)%Z es)
    as (Hfut & _ & Hdrain);
    [reflexivity | exact H1 | repeat constructor | reflexivity | exact H2 |].
  split; [exact Hfut|].
  apply (Hdrain 33). vm_compute. lia.
Defined.

Lemma run_twice_raises_witness :
  (∃ s1 s,
      Runnable.run os_granting (Runnable.init false) = Some (Returned (), s1)
      ∧ Runnable.exec os_granting raise_flag
          [Runnable.ThreadStep; Runnable.ThreadStep; Runnable.Run;
           Runnable.ThreadStep] s1 = Some s
      ∧ Runnable.run os_granting s = Some (Raised AlreadyRunningException, s))
  ∧ (∃ s1 s,
        ActiveRunnable.run os_granting fresh_echo
        = Some (Returned (), s1)
        ∧ ActiveRunnable.exec os_granting echo
            [T; ActiveRunnable.Run; Put 0%Z 0; T; T] s1 = Some s
        ∧ ActiveRunnable.run os_granting s
          = Some (Raised AlreadyRunningException, s)).
Proof.
  split.
  - destruct (proj1 (run_twice_raises os_granting) bool raise_flag
                (Runnable.init false) eq_refl eq_refl) as (s1 & Hrun & _ & Hagain).
    exists s1.
    assert (Hs1 := Hrun). vm_compute in Hs1. injection Hs1 as <-.
    exists_value (Runnable.exec os_granting raise_flag
          [Runnable.Run; Runnable.ThreadStep; Runnable.ThreadStep; Runnable.Run;
           Runnable.ThreadStep] (Runnable.init false)).
    split; [exact Hrun|].
    match goal with |- ?Hex ∧ _ => assert (H : Hex) by by_evaluation end.
    split; [exact H|].
    apply (Hagain [Runnable.ThreadStep; Runnable.ThreadStep; Runnable.Run;
                   Runnable.ThreadStep]);
      [repeat constructor; discriminate | exact H].
  - destruct (proj2 (run_twice_raises os_granting) Z Z Z echo
                fresh_echo eq_refl eq_refl)
      as (s1 & Hrun & _ & Hagain).
    exists s1.
    assert (Hs1 := Hrun). vm_compute in Hs1. injection Hs1 as <-.
    exists_value (ActiveRunnable.exec os_granting echo
          [ActiveRunnable.Run; T; ActiveRunnable.Run; Put 0%Z 0; T; T] fresh_echo).
    split; [exact Hrun|].
    match goal with |- ?Hex ∧ _ => assert (H : Hex) by by_evaluation end.
    split; [exact H|].
    apply (Hagain [T; ActiveRunnable.Run; Put 0%Z 0; T; T]);
      [repeat constructor; discriminate | exact H].
Defined.

Lemma stop_abandons_queued_tasks_witness :
  ∃ s s0 s',
    ActiveRunnable.exec os_granting echo
      [ActiveRunnable.Run; T; T; T; T; Put 7%Z 0; ActiveRunnable.Stop; T]
      fresh_echo = Some s
    ∧ ActiveRunnable.step os_granting echo T s = Some s0
    ∧ ActiveRunnable.exec os_granting echo [Put 8%Z 1; T] s0 = Some s'
    ∧ ActiveRunnable._tasks s = [(7%Z, 0)]
    ∧ (7%Z, 0) ∈ ActiveRunnable._tasks s'
    ∧ ActiveRunnable.promises s' !! 0 = Some None.
Proof.
  exists_value (ActiveRunnable.exec os_granting echo
      [ActiveRunnable.Run; T; T; T; T; Put 7%Z 0; ActiveRunnable.Stop; T]
      fresh_echo).
  match goal with
  | |- ∃ s0 s', _ ∧ ActiveRunnable.step _ _ _ ?s = Some s0 ∧ _ =>
      destruct (proj1 (stop_abandons_queued_tasks os_granting echo s eq_refl)
                  eq_refl (or_intror eq_refl))
        as (s0 & Hstep & _ & _ & _ & Hnever)
  end.
  exists s0.
  assert (Hs0 := Hstep). vm_compute in Hs0. injection Hs0 as <-.
  exists_value (ActiveRunnable.exec os_granting echo [Put 8%Z 1; T]
                  (default fresh_echo
                     (ActiveRunnable.exec os_granting echo
                        [ActiveRunnable.Run; T; T; T; T; Put 7%Z 0;
                         ActiveRunnable.Stop; T; T] fresh_echo))).
  match goal with
  | |- _ ∧ _ ∧ ?Hex ∧ _ => assert (H2 : Hex) by by_evaluation
  end.
  split; [by_evaluation|]. split; [exact Hstep|]. split; [exact H2|].
  split; [reflexivity|].
  assert (Hes : Forall (λ e, e ≠ ActiveRunnable.Run) [Put 8%Z 1; T])
    by (repeat constructor; discriminate).
  destruct (Hnever _ _ Hes H2) as (_ & Htask & Hpend).
  split; [apply Htask; by left | by apply Hpend].
Defined.

(** C5, on the code. A Runnable whose work step throws: the exception
    leaves the loop and the thread function, the process is terminated,
    the promise behind the future of [run()] has not been set and nothing
    carries the error, [status()] still reads [true], and no further event
    takes place. *)
Theorem continuous_worker_error_terminates :
  ∃ s, Runnable.exec os_granting throwing
         [Runnable.Run; Runnable.ThreadStep; Runnable.ThreadStep;
          Runnable.ThreadStep] (Runnable.init ()) = Some s
       ∧ Runnable.life s = Faulted Terminate
       ∧ Runnable.completed s = false
       ∧ Runnable.status s = true
       ∧ ∀ e, Runnable.step os_granting throwing e s = None.
Proof.
  exists_value (Runnable.exec os_granting throwing
         [Runnable.Run; Runnable.ThreadStep; Runnable.ThreadStep;
          Runnable.ThreadStep] (Runnable.init ())).
  split; [by_evaluation|]. by repeat split.
Qed.

(** C6 fails on the code: with 7 and 8 queued and a work step that throws
    on 7, the process is terminated while 7 is served; the promise of 7
    holds neither value nor error, 8 is never served and its promise stays
    pending, and no further event takes place. *)
Lemma queued_worker_error_not_isolated :
  ∃ s, ActiveRunnable.exec os_granting (throwing_on 7)
         [ActiveRunnable.Run; Put 7%Z 0; Put 8%Z 1; T; T; T; T; T; T; T]
         fresh_throwing = Some s
       ∧ ActiveRunnable.life s = Faulted Terminate
       ∧ ActiveRunnable.promises s = [None; None]
       ∧ ActiveRunnable._tasks s = [(8%Z, 1)]
       ∧ ∀ e, ActiveRunnable.step os_granting (throwing_on 7) e s = None.
Proof.
  exists_value (ActiveRunnable.exec os_granting (throwing_on 7)
         [ActiveRunnable.Run; Put 7%Z 0; Put 8%Z 1; T; T; T; T; T; T; T]
         fresh_throwing).
  split; [by_evaluation|]. by repeat split.
Qed.

Lemma queued_worker_error_terminates_witness :
  ∃ s s',
    ActiveRunnable.exec os_granting (throwing_on 7)
      [ActiveRunnable.Run; Put 7%Z 0; Put 8%Z 1; T; T; T; T; T; T]
      fresh_throwing = Some s
    ∧ ActiveRunnable.thread s = Some (ActiveRunnable.PcWork 7%Z 0)
    ∧ ActiveRunnable.step os_granting (throwing_on 7) T s = Some s'
    ∧ ActiveRunnable.life s' = Faulted Terminate
    ∧ ActiveRunnable.promises s' = [None; None].
Proof.
  exists_value (ActiveRunnable.exec os_granting (throwing_on 7)
      [ActiveRunnable.Run; Put 7%Z 0; Put 8%Z 1; T; T; T; T; T; T]
      fresh_throwing).
  match goal with
  | |- ∃ s', _ ∧ _ ∧ ActiveRunnable.step _ _ _ ?s = Some s' ∧ _ =>
      destruct (queued_worker_error_terminates os_granting (throwing_on 7) s
                  7%Z 0 (UserException 7) () eq_refl eq_refl eq_refl)
        as (s' & Hstep & Hlife & Hp & _)
  end.
  exists s'. split; [by_evaluation|]. split; [reflexivity|].
  split; [exact Hstep|]. split; [exact Hlife|exact Hp].
Defined.





(** C10, on the code. After [run()] the spawned thread finds the queue
    empty and blocks in [_cv.wait]; a wake-up that no [notify_one] caused
    lets it pass the stop check with the flag still up, and it reaches
    [_tasks[0]] and [erase] with the queue empty. *)
Theorem spurious_wake_takes_from_empty_queue :
  ∃ s s',
    ActiveRunnable.exec os_granting echo
      [ActiveRunnable.Run; T; T; T; T; ActiveRunnable.SpuriousWake; T; T]
      fresh_echo = Some s
    ∧ ActiveRunnable.life s = Live
    ∧ ActiveRunnable._running s = true
    ∧ ActiveRunnable.thread s = Some ActiveRunnable.PcTake
    ∧ ActiveRunnable._tasks s = []
    ∧ ActiveRunnable.step os_granting echo T s = Some s'
    ∧ ActiveRunnable.life s' = Faulted Undefined.
Proof.
  exists_value (ActiveRunnable.exec os_granting echo
      [ActiveRunnable.Run; T; T; T; T; ActiveRunnable.SpuriousWake; T; T]
      fresh_echo).
  exists_value (ActiveRunnable.exec os_granting echo
      [ActiveRunnable.Run; T; T; T; T; ActiveRunnable.SpuriousWake; T; T; T]
      fresh_echo).
  split; [by_evaluation|]. by repeat split.
Qed.
End Runs.

(** * Further properties *)

(** ** SizedQueue: all of its calls *)

Section SizedQueue_calls.
Context {_tp : Type}.
Variable _size : N.
Hypothesis size_nonzero : _size ≠ 0%N.

Import SizedQueue.

Let cap : nat := N.to_nat _size.

Lemma pops_spec (k : nat) (q : t (_tp:=_tp)) :
  pops k q = if decide (k ≤ length q) then Some (drop k q) else None.
Proof.
  revert q. induction k as [|k IH]; intros q.
  - rewrite decide_True by lia. by rewrite drop_0.
  - destruct q as [|x q]; cbn [pops pop_front pop mbind option_bind].
    + by rewrite decide_False by (simpl; lia).
    + rewrite IH. simpl. repeat case_decide; try done; lia.
Qed.

(** X1. As long as the queue and the pushed items together do not exceed
    the capacity, nothing is evicted: the queue holds what it held followed
    by every pushed item, in the order pushed. *)
Theorem sized_queue_below_capacity (os : list (@push_op _tp)) (q : t) :
  length q + length os ≤ cap →
  pushes _size os q = Some (q ++ (pushed <$> os))
  ∧ size (q ++ (pushed <$> os)) = (size q + N.of_nat (length os))%N.
Proof.
  intros Hlen. split.
  - rewrite (pushes_spec _size size_nonzero) by (fold cap; lia).
    fold cap. rewrite length_app, length_fmap.
    replace (length q + length os - cap) with 0 by lia. done.
  - unfold size. rewrite length_app, length_fmap. lia.
Qed.


Lemma apply_ops_app (pre post : list queue_op) (q : t (_tp:=_tp)) :
  apply_ops _size (pre ++ post) q
  = apply_ops _size pre q ≫= apply_ops _size post.
Proof.
  revert q. induction pre as [|o pre IH]; intros q; [done|].
  simpl. destruct (apply_op _size o q); [apply IH|done].
Qed.


(** X3. After a push onto a queue within its capacity, [back()] is the item
    just pushed and [size()] has grown by one unless the queue was full;
    [front()] is what it was unless the queue was empty or full, and on a
    full queue of capacity above one it is the item that was second. *)
Theorem sized_queue_push_observed (o : @push_op _tp) (q : t) :
  length q ≤ cap →
  ∃ q', apply_push _size o q = Some q'
        ∧ back q' = Some (pushed o)
        ∧ size q' = N.min (size q + 1) _size
        ∧ (q ≠ [] → length q < cap → front q' = front q)
        ∧ (length q = cap → 1 < cap → front q' = q !! 1)
        ∧ (q = [] → front q' = Some (pushed o)).
Proof.
  intros Hq. eexists. split; [by apply (apply_push_spec _size size_nonzero)|].
  fold cap. rewrite length_app. simpl.
  assert (Hcap : 0 < cap) by (subst cap; lia).
  split_and!.
  - unfold back. rewrite drop_app_le by lia. apply last_snoc.
  - unfold size. rewrite length_drop, length_app. simpl. subst cap. lia.
  - intros Hne Hlt. replace (length q + 1 - cap) with 0 by lia.
    rewrite drop_0. destruct q; done.
  - intros Hfull Hone. replace (length q + 1 - cap) with 1 by lia.
    destruct q as [|x [|y q]]; simpl in *; try done; lia.
  - intros ->. simpl. replace (1 - cap) with 0 by lia. done.
Qed.

(** X4. First in, first out: after any pushes onto the empty queue, [k]
    calls of [pop_front] are defined exactly when [k] is at most the number
    of items held, the smaller of the number pushed and the capacity; they
    leave the items pushed after the first [M - _size + k], in the order
    pushed, and [front()] is then the next of them. *)
Theorem sized_queue_first_in_first_out (os : list (@push_op _tp)) (k : nat) :
  (pushes _size os [] ≫= pops k)
  = (if decide (k ≤ length os `min` cap)
     then Some (drop (length os - cap + k) (pushed <$> os))
     else None)
  ∧ (k ≤ length os `min` cap →
     front (drop (length os - cap + k) (pushed <$> os))
     = (pushed <$> os) !! (length os - cap + k)).
Proof.
  split.
  - rewrite (pushes_spec _size size_nonzero) by (simpl; lia). fold cap. simpl.
    rewrite pops_spec, length_drop, !length_fmap, drop_drop.
    repeat case_decide; try done; lia.
  - intros _. unfold front. by rewrite head_lookup, lookup_drop, Nat.add_0_r.
Qed.
End SizedQueue_calls.

Lemma sized_queue_below_capacity_witness :
  SizedQueue.pushes 3 [SizedQueue.PushBack 2; SizedQueue.EmplaceBack 3]%Z [1%Z]
  = Some [1; 2; 3]%Z.
Proof.
  refine (proj1 (sized_queue_below_capacity 3%N _
                   [SizedQueue.PushBack 2; SizedQueue.EmplaceBack 3]%Z [1%Z] _)).
  - discriminate.
  - vm_compute. lia.
Defined.


Lemma sized_queue_push_observed_witness :
  ∃ q', SizedQueue.apply_push 3 (SizedQueue.PushBack 4%Z) [1; 2; 3]%Z = Some q'
        ∧ SizedQueue.back q' = Some 4%Z
        ∧ SizedQueue.front q' = Some 2%Z.
Proof.
  destruct (sized_queue_push_observed 3%N ltac:(discriminate)
              (SizedQueue.PushBack 4%Z) [1; 2; 3]%Z ltac:(vm_compute; lia))
    as (q' & Hpush & Hback & _ & _ & Hfront & _).
  exists q'. split; [exact Hpush|]. split; [exact Hback|].
  apply Hfront; vm_compute; lia.
Defined.

Lemma sized_queue_first_in_first_out_witness :
  (SizedQueue.pushes 3 (SizedQueue.PushBack <$> [1; 2; 3; 4; 5]%Z) []
     ≫= SizedQueue.pops 2) = Some [5%Z]
  ∧ (SizedQueue.pushes 3 (SizedQueue.PushBack <$> [1; 2; 3; 4; 5]%Z) []
       ≫= SizedQueue.pops 4) = None.
Proof.
  split.
  - exact (proj1 (sized_queue_first_in_first_out 3%N ltac:(discriminate)
                    (SizedQueue.PushBack <$> [1; 2; 3; 4; 5]%Z) 2)).
  - exact (proj1 (sized_queue_first_in_first_out 3%N ltac:(discriminate)
                    (SizedQueue.PushBack <$> [1; 2; 3; 4; 5]%Z) 4)).
Defined.

(** ** ThreadDetail: join and detach *)

Section Thread_calls.
Import Thread.
Context `{PM : PriorityModel}.
Variable os : OS.

Lemma set_priority_keeps (p : Priority) (t : ThreadDetail) :
  _thread (set_priority os p t).1.2 = _thread t
  ∧ _promise (set_priority os p t).1.2 = _promise t
  ∧ _name (set_priority os p t).1.2 = _name t.
Proof. unfold set_priority. by repeat case_match. Qed.

Lemma on_spawn_keeps (t : ThreadDetail) :
  _thread (on_spawn os t).1 = _thread t
  ∧ _promise (on_spawn os t).1 = _promise t
  ∧ _name (on_spawn os t).1 = _name t.
Proof.
  unfold on_spawn.
  match goal with
  | |- context [set_priority os ?p ?seen] =>
      destruct (set_priority_keeps p seen) as (_ & Hp & Hk);
      destruct (set_priority os p seen) as [[ok t'] effs]
  end.
  simpl in *. by rewrite Hp, Hk.
Qed.

Lemma join_not_joinable (finished : bool) (t t' : ThreadDetail) :
  join finished t = Some t' → _thread t' = false.
Proof.
  unfold join. destruct (_thread t) eqn:Ht.
  - destruct finished; [|done]. by intros [= <-].
  - by intros [= <-].
Qed.

(** X5. [join()] does not return exactly when the handle is joinable and
    its thread has not returned. When it returns, the handle is no longer
    joinable, its priority, name and promise are what they were, and every
    further [join()] returns at once and changes nothing. *)
Theorem join_returns_once (finished : bool) (t : ThreadDetail) :
  (join finished t = None ↔ _thread t = true ∧ finished = false)
  ∧ (∀ t', join finished t = Some t' →
           _thread t' = false
           ∧ get_priority t' = get_priority t ∧ get_name t' = get_name t
           ∧ _promise t' = _promise t
           ∧ ∀ finished', join finished' t' = Some t').
Proof.
  split.
  - unfold join. destruct (_thread t), finished; intuition congruence.
  - intros t' Hj. unfold join in Hj. destruct (_thread t) eqn:Ht.
    + destruct finished; [|done]. injection Hj as <-.
      unfold join. simpl. by split_and!.
    + injection Hj as <-. unfold join. rewrite Ht. by split_and!.
Qed.


(** X7. Once a handle has been joined or detached, [set_priority] takes it
    for a handle that has not started: it stores the priority and answers
    [true] without asking the operating system, also when the detached
    thread is still running. *)
Theorem set_priority_after_join_or_detach
    (finished : bool) (p : Priority) (t t' : ThreadDetail) :
  join finished t = Some t' ∨ detach t = Some t' →
  set_priority os p t' = (true, store_priority p t', [])
  ∧ get_priority (set_priority os p t').1.2 = p.
Proof.
  intros Hcase.
  assert (Ht' : _thread t' = false).
  { destruct Hcase as [Hj | Hd].
    - by eapply join_not_joinable.
    - unfold detach in Hd. destruct (_thread t); by simplify_eq/=. }
  rewrite set_priority_not_started by done. done.
Qed.
End Thread_calls.

(** ** Runnable: from [run()] to the end of the thread *)

Section Runnable_lifecycle.
Import Thread Runnable.
Context `{PM : PriorityModel} {Self : Type}.
Variable os : OS.
Variable __work : Self → result () * Self.

Local Abbreviation State := (@State PM Self).
Local Abbreviation step := (step os __work).
Local Abbreviation exec := (exec os __work).
Local Abbreviation drain := (drain os __work).

Lemma runnable_started_run (s0 : State) :
  fresh s0 →
  ∃ s1, run os s0 = Some (Returned (), s1) ∧ started_inv s1.
Proof.
  intros (Ht & Hr & Hth & Hl). eexists. split; [by apply runnable_run_first|].
  intros _. simpl. split_and!; eauto.
Qed.

Lemma runnable_started_step (e : event) (s s' : State) :
  e ≠ Run → step e s = Some s' → started_inv s → started_inv s'.
Proof.
  intros He Hstep Hinv. unfold Runnable.step in Hstep.
  destruct (life s) eqn:Hl; [|done..].
  destruct (Hinv Hl) as ((pc & Hpc) & (t & Ht & Hj & Hp) & Hex).
  clear Hinv. unfold started_inv, finished, exited in *.
  rewrite Hpc in Hp, Hex.
  destruct e; try done.
  - injection Hstep as <-. simpl. rewrite Hpc. intros _. split_and!; eauto.
  - injection Hstep as <-. unfold set_priority. simpl.
    destruct (_running s) eqn:Hr; simpl;
      [|rewrite Hpc; intros _; split_and!; eauto].
    rewrite Ht. destruct (set_priority_keeps os priority t) as (H1 & H2 & _).
    destruct (Thread.set_priority os priority t) as [[ok t'] effs]. simpl in *.
    rewrite Hpc. intros _. split_and!; eauto. exists t'. by rewrite H1, H2.
  - injection Hstep as <-. unfold set_name. simpl.
    destruct (_running s) eqn:Hr; simpl;
      [|rewrite Hpc; intros _; split_and!; eauto].
    rewrite Ht. simpl. rewrite Hpc. intros _. split_and!; eauto.
  - unfold thread_step in Hstep. rewrite Hpc in Hstep. simpl in Hstep.
    destruct pc; simpl in *.
    + rewrite Ht, on_spawn_started in Hstep by done. injection Hstep as <-.
      simpl. intros _. split_and!; eauto.
    + destruct (_running s) eqn:Hr; injection Hstep as <-; simpl;
        intros _; split_and!; eauto.
    + destruct (__work (self s)) as [[]]; injection Hstep as <-; simpl;
        [intros _; split_and!; eauto|done].
    + rewrite Ht in Hstep. injection Hstep as <-. simpl.
      intros _. split_and!; eauto.
    + done.
  - unfold destroy in Hstep.
    destruct (match _t s with Some t => _ | None => _ end);
      [|destruct (thread s) as [[]|] eqn:?; try done];
      by injection Hstep as <-.
Qed.

Lemma runnable_started_exec (es : list event) (s s' : State) :
  Forall (λ e, e ≠ Run) es → exec es s = Some s' →
  started_inv s → started_inv s'.
Proof.
  intros Hes. revert s. induction Hes as [|e es He _ IH]; intros s Hex Hinv.
  - by simplify_eq/=.
  - simpl in Hex. destruct (step e s) as [s1|] eqn:Hs; [|done].
    eapply IH; [done|]. by eapply runnable_started_step.
Qed.

Lemma runnable_outside_step (w : Self) (e : event) (s s' : State) :
  e ≠ Run → step e s = Some s' → outside_loop w s → outside_loop w s'.
Proof.
  intros He Hstep [Hpc Hw]. unfold Runnable.step in Hstep.
  destruct (life s); [|done..]. unfold outside_loop.
  destruct e; try done.
  - by injection Hstep as <-.
  - injection Hstep as <-. unfold set_priority. simpl.
    by repeat case_match.
  - injection Hstep as <-. unfold set_name. simpl.
    by repeat case_match.
  - unfold thread_step in Hstep.
    destruct Hpc as [Hpc | [Hpc | Hpc]]; rewrite Hpc in Hstep;
      simpl in Hstep; try done.
    destruct (_t s); injection Hstep as <-; simpl; rewrite ?Hpc; auto.
  - unfold destroy in Hstep.
    destruct (match _t s with Some t => _ | None => _ end).
    + by injection Hstep as <-.
    + destruct Hpc as [Hpc | [Hpc | Hpc]]; rewrite Hpc in Hstep; try done;
        injection Hstep as <-; simpl; rewrite Hpc; auto.
Qed.

Lemma runnable_outside_exec (w : Self) (es : list event) (s s' : State) :
  Forall (λ e, e ≠ Run) es → exec es s = Some s' →
  outside_loop w s → outside_loop w s'.
Proof.
  intros Hes. revert s. induction Hes as [|e es He _ IH]; intros s Hex Hinv.
  - by simplify_eq/=.
  - simpl in Hex. destruct (step e s) as [s1|] eqn:Hs; [|done].
    eapply IH; [done|]. by eapply runnable_outside_step.
Qed.

(** X8. A Runnable whose work step does not throw, at any moment after its
    one [run()]: [stop()] makes [status()] false at once, and three steps of
    the spawned thread at most (the call of [__work] under way, the reading
    of the flag, the setting of the promise) bring the thread function to
    its end with the future of [run()] ready; the work step is called at
    most once more. *)
Theorem runnable_stop_completes (s0 s1 s : State) (es : list event) :
  (∀ w, (__work w).1 = Returned ()) →
  fresh s0 → run os s0 = Some (Returned (), s1) →
  Forall (λ e, e ≠ Run) es → exec es s1 = Some s →
  life s = Live →
  status (stop s) = false
  ∧ life (drain 3 (stop s)) = Live
  ∧ thread (drain 3 (stop s)) = Some PcDone
  ∧ completed (drain 3 (stop s)) = true
  ∧ status (drain 3 (stop s)) = false
  ∧ (self (drain 3 (stop s)) = self s
     ∨ self (drain 3 (stop s)) = (__work (self s)).2).
Proof.
  intros Hwork Hfresh Hrun Hes Hex Hl.
  destruct (runnable_started_run s0 Hfresh) as (s1' & Hrun' & Hinv1).
  rewrite Hrun in Hrun'. injection Hrun' as <-.
  pose proof (runnable_started_exec es s1 s Hes Hex Hinv1) as Hinv.
  destruct (Hinv Hl) as ((pc & Hpc) & (t & Ht & Hj & Hp) & Hexit).
  split; [done|].
  pose proof (Hwork (self s)) as Hw.
  destruct (__work (self s)) as [r w] eqn:Hws. simpl in Hw. subst r.
  destruct s as [t_ running priority name w0 th lf effs].
  simpl in *. subst. clear Hinv Hex.
  destruct pc; simpl; unfold Runnable.step, thread_step; simpl;
    rewrite ?on_spawn_started by done; simpl; rewrite ?Hws; simpl;
    auto 10.
Qed.

(** After its one [run()], as long as a Runnable is live:
    the future of [run()] is ready exactly when the thread function has
    returned, and then [status()] is false. *)
Lemma runnable_future_ready (s0 s1 s : State) (es : list event) :
  fresh s0 → run os s0 = Some (Returned (), s1) →
  Forall (λ e, e ≠ Run) es → exec es s1 = Some s →
  life s = Live →
  (completed s = true ↔ thread s = Some PcDone)
  ∧ (completed s = true → status s = false).
Proof.
  intros Hfresh Hrun Hes Hex Hl.
  destruct (runnable_started_run s0 Hfresh) as (s1' & Hrun' & Hinv1).
  rewrite Hrun in Hrun'. injection Hrun' as <-.
  pose proof (runnable_started_exec es s1 s Hes Hex Hinv1) as Hinv.
  destruct (Hinv Hl) as ((pc & Hpc) & (t & Ht & Hj & Hp) & Hexit).
  unfold completed, status, finished, exited in *. rewrite Ht, Hp, Hpc in *.
  split.
  - destruct pc; split; try done.
  - destruct pc; try done; intros _; by apply Hexit.
Qed.
End Runnable_lifecycle.

(** ** ActiveRunnable: from [run()] to the end of the thread *)

Section ActiveRunnable_lifecycle.
Import Thread ActiveRunnable.
Context `{PM : PriorityModel} {DataType ReturnType Self : Type}.
Variable os : OS.
Variable __work : DataType → Self → result ReturnType * Self.

Local Abbreviation State := (@State PM DataType ReturnType Self).
Local Abbreviation event := (@event PM DataType).
Local Abbreviation step := (step os __work).
Local Abbreviation exec := (exec os __work).
Local Abbreviation drain := (drain os __work).

Lemma active_started_run (s0 : State) :
  fresh s0 →
  ∃ s1, run os s0 = Some (Returned (), s1) ∧ started_inv s1.
Proof.
  intros (Ht & Hr & Hlock & Hth & Hl). eexists.
  split; [by apply active_run_first|].
  intros _. unfold finished, exited, in_critical_section. simpl.
  split_and!; eauto.
Qed.

Lemma active_started_step (e : event) (s s' : State) :
  e ≠ Run → step e s = Some s' → started_inv s → started_inv s'.
Proof.
  intros He Hstep Hinv. unfold ActiveRunnable.step in Hstep.
  destruct (life s) eqn:Hl; [|done..].
  destruct (Hinv Hl) as ((pc & Hpc) & (t & Ht & Hj & Hp) & Hex & Hlock).
  clear Hinv. unfold started_inv, finished, exited, in_critical_section in *.
  rewrite Hpc in Hp, Hex, Hlock.
  destruct e; try done.
  - unfold notify in Hstep. rewrite Hlock in Hstep.
    destruct pc; simpl in Hstep; try done; case_decide; try done;
      injection Hstep as <-; unfold notify_one; simpl; rewrite Hpc; simpl;
      rewrite ?Hpc; intros _; split_and!; eauto.
  - unfold stop in Hstep. rewrite Hlock in Hstep.
    destruct pc; simpl in Hstep; try done;
      injection Hstep as <-; unfold notify_one; simpl; rewrite Hpc; simpl;
      rewrite ?Hpc; intros _; split_and!; eauto.
  - injection Hstep as <-. unfold set_priority. simpl.
    destruct (_running s) eqn:Hr; simpl;
      [|rewrite Hpc; intros _; split_and!; eauto].
    rewrite Ht. destruct (set_priority_keeps os priority t) as (H1 & H2 & _).
    destruct (Thread.set_priority os priority t) as [[ok t'] effs]. simpl in *.
    rewrite Hpc. intros _. split_and!; eauto. exists t'. by rewrite H1, H2.
  - injection Hstep as <-. unfold set_name. simpl.
    destruct (_running s) eqn:Hr; simpl;
      [|rewrite Hpc; intros _; split_and!; eauto].
    rewrite Ht. simpl. rewrite Hpc. intros _. split_and!; eauto.
  - unfold ActiveRunnable.thread_step in Hstep. rewrite Hpc in Hstep.
    simpl in Hstep. destruct pc; simpl in *.
    + rewrite Ht, on_spawn_started in Hstep by done. injection Hstep as <-.
      simpl. intros _. split_and!; eauto.
    + destruct (_running s) eqn:Hr; injection Hstep as <-; simpl;
        intros _; split_and!; eauto.
    + rewrite Hlock in Hstep. injection Hstep as <-. simpl.
      intros _. split_and!; eauto.
    + destruct (_tasks s); injection Hstep as <-; simpl;
        intros _; split_and!; eauto.
    + done.
    + rewrite Hlock in Hstep. injection Hstep as <-. simpl.
      intros _. split_and!; eauto.
    + destruct (_running s) eqn:Hr; injection Hstep as <-; simpl;
        intros _; split_and!; eauto.
    + destruct (_tasks s) as [|[]]; injection Hstep as <-; simpl;
        [done|intros _; split_and!; eauto].
    + destruct (__work data (self s)) as [[]];
        [destruct (promise_set_value _ _ _)|];
        injection Hstep as <-; simpl; try done; intros _; split_and!; eauto.
    + rewrite Ht in Hstep. injection Hstep as <-. simpl.
      intros _. split_and!; eauto.
    + done.
  - rewrite Hpc in Hstep. destruct pc; try done. injection Hstep as <-.
    simpl. intros _. split_and!; eauto.
  - unfold destroy in Hstep.
    destruct (match _t s with Some t => _ | None => _ end);
      [|destruct (thread s) as [[]|] eqn:?; try done];
      by injection Hstep as <-.
Qed.

Lemma active_started_exec (es : list event) (s s' : State) :
  Forall (λ e, e ≠ Run) es → exec es s = Some s' →
  started_inv s → started_inv s'.
Proof.
  intros Hes. revert s. induction Hes as [|e es He _ IH]; intros s Hex Hinv.
  - by simplify_eq/=.
  - simpl in Hex. destruct (step e s) as [s1|] eqn:Hs; [|done].
    eapply IH; [done|]. by eapply active_started_step.
Qed.

Lemma active_started_from (s0 s1 s : State) (es : list event) :
  fresh s0 → run os s0 = Some (Returned (), s1) →
  Forall (λ e, e ≠ Run) es → exec es s1 = Some s →
  started_inv s.
Proof.
  intros Hfresh Hrun Hes Hex.
  destruct (active_started_run s0 Hfresh) as (s1' & Hrun' & Hinv1).
  rewrite Hrun in Hrun'. injection Hrun' as <-.
  by eapply active_started_exec.
Qed.

Lemma active_outside_step (w : Self) (e : event) (s s' : State) :
  e ≠ Run → step e s = Some s' → outside_loop w s → outside_loop w s'.
Proof.
  intros He Hstep [Hpc Hw]. unfold ActiveRunnable.step in Hstep.
  destruct (life s); [|done..]. unfold outside_loop.
  assert (Hn1 : ∀ x : State, thread x = thread s → notify_one x = x).
  { intros x Hx. unfold notify_one. rewrite Hx.
    by destruct Hpc as [-> | [-> | ->]]. }
  destruct e; try done.
  - unfold notify in Hstep. destruct (_notifyLock s); [done|]. simpl in Hstep.
    case_decide; [|done]. injection Hstep as <-. by rewrite Hn1.
  - unfold stop in Hstep. destruct (_notifyLock s); [done|].
    injection Hstep as <-. by rewrite Hn1.
  - injection Hstep as <-. unfold set_priority. simpl.
    by repeat case_match.
  - injection Hstep as <-. unfold set_name. simpl.
    by repeat case_match.
  - unfold ActiveRunnable.thread_step in Hstep.
    destruct Hpc as [Hpc | [Hpc | Hpc]]; rewrite Hpc in Hstep;
      simpl in Hstep; try done.
    destruct (_t s); injection Hstep as <-; simpl; rewrite ?Hpc; auto.
  - destruct Hpc as [Hpc | [Hpc | Hpc]]; by rewrite Hpc in Hstep.
  - unfold destroy in Hstep.
    destruct (match _t s with Some t => _ | None => _ end).
    + by injection Hstep as <-.
    + destruct Hpc as [Hpc | [Hpc | Hpc]]; rewrite Hpc in Hstep; try done;
        injection Hstep as <-; simpl; rewrite Hpc; auto.
Qed.

Lemma active_outside_exec (w : Self) (es : list event) (s s' : State) :
  Forall (λ e, e ≠ Run) es → exec es s = Some s' →
  outside_loop w s → outside_loop w s'.
Proof.
  intros Hes. revert s. induction Hes as [|e es He _ IH]; intros s Hex Hinv.
  - by simplify_eq/=.
  - simpl in Hex. destruct (step e s) as [s1|] eqn:Hs; [|done].
    eapply IH; [done|]. by eapply active_outside_step.
Qed.

Lemma active_future_ready (s0 s1 s : State) (es : list event) :
  fresh s0 → run os s0 = Some (Returned (), s1) →
  Forall (λ e, e ≠ Run) es → exec es s1 = Some s →
  life s = Live →
  (completed s = true ↔ thread s = Some PcDone)
  ∧ (completed s = true → status s = false).
Proof.
  intros Hfresh Hrun Hes Hex Hl.
  pose proof (active_started_from s0 s1 s es Hfresh Hrun Hes Hex) as Hinv.
  destruct (Hinv Hl) as ((pc & Hpc) & (t & Ht & Hj & Hp) & Hexit & _).
  unfold completed, status, finished, exited in *. rewrite Ht, Hp, Hpc in *.
  split.
  - destruct pc; split; try done.
  - destruct pc; try done; intros _; by apply Hexit.
Qed.

(** X11. After its one [run()], as long as an ActiveRunnable is live, the
    mutex is free whenever the spawned thread is outside the few statements
    between [lock(_notifyLock)] and [lock.unlock()]; in particular while a
    work step is under way and while the thread waits, [notify] and
    [stop()] return at once. *)
Theorem producers_not_blocked (s0 s1 s : State) (es : list event) :
  fresh s0 → run os s0 = Some (Returned (), s1) →
  Forall (λ e, e ≠ Run) es → exec es s1 = Some s →
  life s = Live →
  (_notifyLock s = in_critical_section s)
  ∧ (in_critical_section s = false →
     (∀ d, ∃ s', notify d s = Some (length (promises s), s'))
     ∧ (∃ s', stop s = Some s'))
  ∧ (∀ d p, thread s = Some (PcWork d p) → in_critical_section s = false)
  ∧ (thread s = Some PcWait → in_critical_section s = false).
Proof.
  intros Hfresh Hrun Hes Hex Hl.
  pose proof (active_started_from s0 s1 s es Hfresh Hrun Hes Hex) as Hinv.
  destruct (Hinv Hl) as (_ & _ & _ & Hlock).
  split; [done|]. split_and!.
  - intros Hfree. rewrite Hfree in Hlock. unfold notify, stop.
    rewrite Hlock. split; [intros d|]; by eexists.
  - intros d p Hpc. unfold in_critical_section. by rewrite Hpc.
  - intros Hpc. unfold in_critical_section. by rewrite Hpc.
Qed.

(** X12. A [stop()] that comes between the loop's reading of the flag and
    its [_cv.wait] is not seen: with the queue empty, the thread takes the
    mutex, finds nothing to do and blocks in [_cv.wait] with the flag
    already down; it cannot move, and the future of [run()] stays as it is.
    Only a further [notify], [stop()] or wake-up gets it out, and what a
    [notify] hands in then is not served. *)
Theorem stop_before_wait_is_missed (s : State) :
  life s = Live → thread s = Some PcLock →
  _notifyLock s = false → _tasks s = [] →
  ∃ s',
    exec [Stop; ThreadStep; ThreadStep] s = Some s'
    ∧ life s' = Live ∧ thread s' = Some PcWait ∧ status s' = false
    ∧ step ThreadStep s' = None
    ∧ completed s' = completed s
    ∧ (∀ d, ∃ s'',
         exec [Notify d (length (promises s')); ThreadStep; ThreadStep] s'
         = Some s''
         ∧ thread s'' = Some PcReturn
         ∧ _tasks s'' = [(d, length (promises s'))]
         ∧ promises s'' = promises s' ++ [None]).
Proof.
  intros Hl Hpc Hlock Hts. destruct s. simpl in *. subst.
  match goal with
  | |- ∃ s', ?run = Some s' ∧ _ =>
      let v := eval vm_compute in run in
      match v with Some ?x => exists x end
  end.
  split; [vm_compute; reflexivity|]. split_and!; try done.
  intros d. unfold ActiveRunnable.exec, ActiveRunnable.step. simpl.
  rewrite decide_True by done. simpl. by eexists.
Qed.
End ActiveRunnable_lifecycle.

(** ** ActiveRunnable: promises and undefined behaviour *)

Section ActiveRunnable_promises.
Import Thread ActiveRunnable.
Context `{PM : PriorityModel} {DataType ReturnType Self : Type}.
Variable os : OS.
Variable __work : DataType → Self → result ReturnType * Self.

Local Abbreviation State := (@State PM DataType ReturnType Self).
Local Abbreviation event := (@event PM DataType).
Local Abbreviation step := (step os __work).
Local Abbreviation exec := (exec os __work).

Lemma promise_inv_frame (s s' : State) :
  inflight s' = inflight s → _tasks s' = _tasks s → promises s' = promises s →
  promise_inv s → promise_inv s'.
Proof. unfold promise_inv. by intros -> -> ->. Qed.

Lemma promise_inv_fewer (s s' : State) :
  inflight s' = [] → _tasks s' = _tasks s → promises s' = promises s →
  promise_inv s → promise_inv s'.
Proof.
  unfold promise_inv. intros -> -> -> [Hnd Hp]. simpl.
  rewrite fmap_app in Hnd. apply NoDup_app in Hnd as (_ & _ & Hnd).
  split; [done|]. intros p Hin. apply Hp. rewrite fmap_app.
  apply elem_of_app. by right.
Qed.

Lemma set_priority_promises (p : Priority) (s : State) :
  inflight (set_priority os p s).2 = inflight s
  ∧ _tasks (set_priority os p s).2 = _tasks s
  ∧ promises (set_priority os p s).2 = promises s.
Proof.
  unfold set_priority, inflight. simpl. destruct (_running s); [|done].
  destruct (_t s); [|done].
  by destruct (Thread.set_priority os p t) as [[]].
Qed.

Lemma set_name_promises (n : string) (s : State) :
  inflight (set_name n s) = inflight s
  ∧ _tasks (set_name n s) = _tasks s
  ∧ promises (set_name n s) = promises s.
Proof.
  unfold set_name, inflight. simpl. destruct (_running s); [|done].
  by destruct (_t s).
Qed.

Lemma notify_one_inflight (s : State) : inflight (notify_one s) = inflight s.
Proof.
  unfold inflight, notify_one.
  destruct (thread s) as [[]|] eqn:Hpc; simpl; by rewrite ?Hpc.
Qed.

Lemma promise_inv_step (e : event) (s s' : State) :
  step e s = Some s' → promise_inv s → promise_inv s'.
Proof.
  intros Hstep Hinv. unfold ActiveRunnable.step in Hstep.
  destruct (life s); [|done..].
  destruct e.
  - unfold run in Hstep. destruct (_running s); [by simplify_eq/=|].
    destruct (match _t s with Some old => _ | None => _ end); [|done].
    simpl in Hstep. injection Hstep as <-. by apply (promise_inv_fewer s).
  - unfold notify in Hstep. destruct (_notifyLock s); [done|]. simpl in Hstep.
    case_decide; [|done]. injection Hstep as <-.
    destruct Hinv as [Hnd Hp]. unfold promise_inv.
    rewrite notify_one_inflight, notify_one_tasks, notify_one_promises.
    change (inflight (with_tasks _ (with_promises _ s))) with (inflight s).
    simpl. rewrite (assoc_L (++)), fmap_app. simpl. split.
    + apply NoDup_app. split; [done|]. split; [|apply NoDup_singleton].
      intros p Hin ->%list_elem_of_singleton.
      apply Hp, lookup_lt_Some in Hin. lia.
    + intros p [Hin | ->%list_elem_of_singleton]%elem_of_app.
      * apply lookup_app_l_Some. by apply Hp.
      * by apply list_lookup_middle.
  - unfold stop in Hstep. destruct (_notifyLock s); [done|].
    injection Hstep as <-. apply (promise_inv_frame s); [..|done].
    + by rewrite notify_one_inflight.
    + by rewrite notify_one_tasks.
    + by rewrite notify_one_promises.
  - injection Hstep as <-.
    destruct (set_priority_promises priority s) as (?&?&?).
    by apply (promise_inv_frame s).
  - injection Hstep as <-.
    destruct (set_name_promises name s) as (?&?&?).
    by apply (promise_inv_frame s).
  - unfold ActiveRunnable.thread_step in Hstep.
    destruct (thread s) as [[]|] eqn:Hpc; simpl in Hstep; try done.
    + destruct (_t s); [destruct (on_spawn os t)|]; injection Hstep as <-;
        (apply (promise_inv_frame s); [..|done]); unfold inflight; simpl;
        by rewrite ?Hpc.
    + destruct (_running s); injection Hstep as <-;
        (apply (promise_inv_frame s); [..|done]); unfold inflight; simpl;
        by rewrite ?Hpc.
    + destruct (_notifyLock s); [done|]. injection Hstep as <-.
      apply (promise_inv_frame s); [..|done]; unfold inflight; simpl;
        by rewrite ?Hpc.
    + destruct (_tasks s); injection Hstep as <-;
        (apply (promise_inv_frame s); [..|done]); unfold inflight; simpl;
        by rewrite ?Hpc.
    + destruct (_notifyLock s); [done|]. injection Hstep as <-.
      apply (promise_inv_frame s); [..|done]; unfold inflight; simpl;
        by rewrite ?Hpc.
    + destruct (_running s); injection Hstep as <-;
        (apply (promise_inv_frame s); [..|done]); unfold inflight; simpl;
        by rewrite ?Hpc.
    + destruct (_tasks s) as [|[d p] rest] eqn:Hts; injection Hstep as <-.
      * apply (promise_inv_frame s); [..|done]; unfold inflight; simpl;
          by rewrite ?Hpc.
      * unfold promise_inv, inflight in *. simpl.
        rewrite Hpc, Hts in Hinv. done.
    + destruct Hinv as [Hnd Hp]. unfold promise_inv, inflight in *.
      rewrite Hpc in Hnd, Hp. simpl in Hnd, Hp.
      destruct (__work data (self s)) as [[r|] w].
      * unfold promise_set_value in Hstep.
        rewrite (Hp promise) in Hstep by (by left).
        injection Hstep as <-. simpl.
        apply NoDup_cons in Hnd as [Hnotin Hnd]. split; [done|].
        intros q Hq. rewrite list_lookup_insert_ne by (by intros ->).
        apply Hp. by right.
      * injection Hstep as <-. simpl. by rewrite Hpc.
    + destruct (_t s); injection Hstep as <-;
        (apply (promise_inv_frame s); [..|done]); unfold inflight; simpl;
        by rewrite ?Hpc.
  - destruct (thread s) as [[]|] eqn:Hpc; try done. injection Hstep as <-.
    apply (promise_inv_frame s); [..|done]; unfold inflight; simpl;
      by rewrite ?Hpc.
  - unfold destroy in Hstep.
    destruct (match _t s with Some t => _ | None => _ end);
      [|destruct (thread s) as [[]|] eqn:?; try done];
      injection Hstep as <-; by apply (promise_inv_frame s).
Qed.

Lemma promise_inv_exec (es : list event) (s s' : State) :
  exec es s = Some s' → promise_inv s → promise_inv s'.
Proof.
  revert s. induction es as [|e es IH]; intros s Hex Hinv.
  - by simplify_eq/=.
  - simpl in Hex. destruct (step e s) as [s1|] eqn:Hs; [|done].
    eapply IH; [done|]. by eapply promise_inv_step.
Qed.

(** X13. No promise is set twice. In every state an ActiveRunnable reaches
    from its construction, whatever its clients do, the tasks in the queue
    and the task in flight have pairwise different promises, all pending;
    so when the work step returns, [set_value] does not throw: the promise
    of the task in flight takes the value and the thread goes on. *)
Theorem promise_set_once (w0 : Self) (es : list event) (s : State) :
  exec es (init w0) = Some s →
  NoDup (inflight s ++ _tasks s).*2
  ∧ (∀ p, p ∈ (inflight s ++ _tasks s).*2 → promises s !! p = Some None)
  ∧ (∀ d p r w, life s = Live → thread s = Some (PcWork d p) →
                __work d (self s) = (Returned r, w) →
                ∃ s', step ThreadStep s = Some s' ∧ life s' = Live
                      ∧ thread s' = Some PcLoop
                      ∧ promises s' = <[p := Some r]> (promises s)).
Proof.
  intros Hex.
  assert (Hinv : promise_inv s).
  { eapply promise_inv_exec; [done|]. split; [constructor|].
    intros p Hp. by apply elem_of_nil in Hp. }
  destruct Hinv as [Hnd Hp]. split; [done|]. split; [done|].
  intros d p r w Hl Hpc Hw.
  assert (Hpend : promises s !! p = Some None).
  { apply Hp. unfold inflight. rewrite Hpc. by left. }
  unfold ActiveRunnable.step, ActiveRunnable.thread_step.
  rewrite Hl, Hpc. simpl. rewrite Hw. unfold promise_set_value. rewrite Hpend.
  by eexists.
Qed.

Lemma safe_inv_step (e : event) (s s' : State) :
  e ≠ SpuriousWake → e ≠ Run → e ≠ Destroy →
  step e s = Some s' → safe_inv s → safe_inv s'.
Proof.
  intros He1 He2 He3 Hstep [Hnu Hlive].
  assert (Htake : take_inv s') by
    (eapply (take_inv_step os __work); [done..|];
     unfold ActiveRunnable.step in Hstep; destruct (life s); try done;
     by apply Hlive).
  unfold ActiveRunnable.step in Hstep.
  destruct (life s) eqn:Hl; [|done..].
  destruct (Hlive eq_refl) as [[t Ht] Htk]. clear Hlive.
  unfold safe_inv. destruct e; try done.
  - unfold notify in Hstep. destruct (_notifyLock s); [done|]. simpl in Hstep.
    case_decide; [|done]. injection Hstep as <-.
    rewrite notify_one_life. simpl. rewrite Hl. split; [done|].
    intros _. split; [|done]. rewrite notify_one_t. eauto.
  - unfold stop in Hstep. destruct (_notifyLock s); [done|].
    injection Hstep as <-.
    rewrite notify_one_life. simpl. rewrite Hl. split; [done|].
    intros _. split; [|done]. rewrite notify_one_t. eauto.
  - injection Hstep as <-. unfold set_priority in *. simpl in *.
    destruct (_running s); simpl; [|rewrite Hl; eauto].
    rewrite Ht in *. destruct (Thread.set_priority os priority t) as [[]].
    simpl in *. rewrite Hl. eauto.
  - injection Hstep as <-. unfold set_name in *. simpl in *.
    destruct (_running s); simpl; [|rewrite Hl; eauto].
    rewrite Ht in *. simpl. rewrite Hl. eauto.
  - unfold ActiveRunnable.thread_step in Hstep.
    destruct (thread s) as [[]|] eqn:Hpc; simpl in Hstep; try done.
    + rewrite Ht in Hstep. destruct (on_spawn os t).
      injection Hstep as <-. simpl in *. rewrite Hl. eauto.
    + destruct (_running s); injection Hstep as <-; simpl in *; rewrite Hl;
        eauto.
    + destruct (_notifyLock s); [done|]. injection Hstep as <-.
      simpl in *. rewrite Hl. eauto.
    + destruct (_tasks s); injection Hstep as <-; simpl in *; rewrite Hl;
        eauto.
    + destruct (_notifyLock s); [done|]. injection Hstep as <-.
      simpl in *. rewrite Hl. eauto.
    + destruct (_running s); injection Hstep as <-; simpl in *; rewrite Hl;
        eauto.
    + unfold take_inv in Htk. rewrite Hpc in Htk.
      destruct (_tasks s) as [|[]]; [done|]. injection Hstep as <-.
      simpl in *. rewrite Hl. eauto.
    + destruct (__work data (self s)) as [[]];
        [destruct (promise_set_value _ _ _)|];
        injection Hstep as <-; simpl in *; try rewrite Hl; eauto;
        split; done.
    + rewrite Ht in Hstep. injection Hstep as <-. simpl in *. rewrite Hl.
      eauto.
Qed.

Lemma safe_inv_exec (es : list event) (s s' : State) :
  Forall (λ e, e ≠ SpuriousWake ∧ e ≠ Run ∧ e ≠ Destroy) es →
  exec es s = Some s' → safe_inv s → safe_inv s'.
Proof.
  intros Hes. revert s.
  induction Hes as [|e es (He1 & He2 & He3) _ IH]; intros s Hex Hinv.
  - by simplify_eq/=.
  - simpl in Hex. destruct (step e s) as [s1|] eqn:Hs; [|done].
    eapply IH; [done|]. by eapply safe_inv_step.
Qed.

(** X14. From its one [run()] to its destruction, and without a wake-up
    of [_cv.wait] that nobody caused, two faults do not occur in an
    ActiveRunnable, whatever [notify], [stop()], [set_priority] and
    [set_name] calls its clients make in whatever order and however the
    steps of the spawned thread fall in between: [_t] is not null where it
    is dereferenced, and the queue is not empty where its front is
    taken. *)
Theorem handle_and_queue_present (s0 s1 s : State) (es : list event) :
  fresh s0 → run os s0 = Some (Returned (), s1) →
  Forall (λ e, e ≠ SpuriousWake ∧ e ≠ Run ∧ e ≠ Destroy) es →
  exec es s1 = Some s →
  life s ≠ Faulted Undefined
  ∧ (life s = Live →
     (∃ t, _t s = Some t)
     ∧ (thread s = Some PcTake → _tasks s ≠ [])).
Proof.
  intros (Ht & Hr & Hlock & Hth & Hl) Hrun Hes Hex.
  rewrite active_run_first in Hrun by done. injection Hrun as <-.
  assert (Hinv : safe_inv s).
  { eapply safe_inv_exec; [done..|]. split; [simpl; by rewrite Hl|].
    intros _. split; [simpl; eauto|]. by unfold take_inv. }
  destruct Hinv as [Hnu Hlive]. split; [done|].
  intros Hls. destruct (Hlive Hls) as [Hh Htk]. split; [done|].
  intros Hpc. unfold take_inv in Htk. by rewrite Hpc in Htk.
Qed.
End ActiveRunnable_promises.

(** ** ActiveRunnable: one call of the work step after the other *)

Section ActiveRunnable_serial.
Import Thread ActiveRunnable.
Context `{PM : PriorityModel} {DataType ReturnType Self : Type}.
Variable os : OS.
Variable __work : DataType → Self → result ReturnType * Self.
(** The work step does not throw. *)
Hypothesis work_returns : ∀ d w, ∃ r, (__work d w).1 = Returned r.

Local Abbreviation State := (@State PM DataType ReturnType Self).
Local Abbreviation event := (@event PM DataType).
Local Abbreviation step := (step os __work).
Local Abbreviation exec := (exec os __work).
Local Abbreviation drain := (drain os __work).
Local Abbreviation serve := (serve __work).
Local Abbreviation serial_inv := (serial_inv __work).

Lemma serve_app (ds1 ds2 : list DataType) (w : Self) :
  serve (ds1 ++ ds2) w
  = ((serve ds1 w).1 ++ (serve ds2 (serve ds1 w).2).1,
     (serve ds2 (serve ds1 w).2).2).
Proof.
  revert w. induction ds1 as [|d ds1 IH]; intros w; simpl.
  - by destruct (serve ds2 w).
  - destruct (work_returns d w) as [r Hr].
    destruct (__work d w) as [r' w'] eqn:Hw. simpl in Hr. subst r'.
    rewrite IH. by destruct (serve ds1 w').
Qed.

Lemma serve_length (ds : list DataType) (w : Self) :
  length (serve ds w).1 = length ds.
Proof.
  revert w. induction ds as [|d ds IH]; intros w; simpl; [done|].
  destruct (work_returns d w) as [r Hr].
  destruct (__work d w) as [r' w'] eqn:Hw. simpl in Hr. subst r'.
  specialize (IH w'). destruct (serve ds w'). simpl in *. by rewrite IH.
Qed.

Lemma serve_snoc (ds : list DataType) (d : DataType) (w0 w : Self) (r : ReturnType) :
  __work d (serve ds w0).2 = (Returned r, w) →
  serve (ds ++ [d]) w0 = ((serve ds w0).1 ++ [r], w).
Proof. intros Hw. rewrite serve_app. simpl. by rewrite Hw. Qed.

Lemma queued_notify (all : list DataType) (d : DataType) (p : nat) (s s' : State) :
  queued_inv all s → notify d s = Some (p, s') →
  p = length all ∧ queued_inv (all ++ [d]) s'.
Proof.
  intros ((Ht & Hr & Hlock & Hth & Hl) & Hp & Hq) Hn.
  unfold notify in Hn. rewrite Hlock in Hn. injection Hn as <- <-.
  assert (Hone : ∀ x : State, thread x = None → notify_one x = x).
  { intros x Hx. unfold notify_one. by rewrite Hx. }
  rewrite Hone by done. rewrite Hp, length_replicate. split; [done|].
  unfold queued_inv, fresh. simpl. split_and!; try done.
  - rewrite length_app. simpl. by rewrite Nat.add_1_r, replicate_S_end.
  - by rewrite Hq, tickets_snoc.
Qed.

Lemma queued_exec (es : list event) (all : list DataType) (s s' : State) :
  Forall (λ e, ∃ d f, e = Notify d f) es →
  exec es s = Some s' → queued_inv all s →
  queued_inv (all ++ (notified es).*1) s'
  ∧ (notified es).*2 = seq (length all) (length (notified es)).
Proof.
  intros Hes. revert all s.
  induction Hes as [|e es (d & f & ->) _ IH]; intros all s Hex Hinv.
  - simplify_eq/=. by rewrite app_nil_r.
  - simpl in Hex. unfold ActiveRunnable.step in Hex.
    destruct Hinv as (Hfresh & Hinv).
    rewrite (proj2 (proj2 (proj2 (proj2 Hfresh)))) in Hex.
    destruct (notify d s) as [[p s1]|] eqn:Hn; [|done]. simpl in Hex.
    case_decide; [|done]. subst f.
    destruct (queued_notify all d p s s1 (conj Hfresh Hinv) Hn) as [-> Hinv1].
    destruct (IH _ _ Hex Hinv1) as [Hinv2 Hf2].
    rewrite <- (assoc_L (++)) in Hinv2. split; [done|].
    rewrite length_app, Nat.add_1_r in Hf2. simpl. f_equal. exact Hf2.
Qed.

Lemma queued_run (all : list DataType) (s0 : State) :
  queued_inv all s0 →
  ∃ s1, run os s0 = Some (Returned (), s1)
        ∧ serial_inv (self s0) all s1.
Proof.
  intros ((Ht & Hr & Hlock & Hth & Hl) & Hp & Hq). eexists.
  split; [by apply active_run_first|].
  unfold ActiveRunnable.serial_inv, loop_inv, inflight. simpl. split_and!; eauto.
  by exists [], all.
Qed.

Lemma serial_notify (w0 : Self) (all : list DataType) (d : DataType) (p : nat)
    (s s' : State) :
  serial_inv w0 all s → notify d s = Some (p, s') →
  p = length all ∧ serial_inv w0 (all ++ [d]) s'.
Proof.
  intros (Hl & Hr & Ht & Hloop & done & todo & -> & Hself & Hp & Hq) Hn.
  unfold notify in Hn. destruct (_notifyLock s) eqn:Hlock; [done|].
  injection Hn as <- <-.
  assert (Hlen : length (promises s) = length (done ++ todo)).
  { rewrite Hp, !length_app, length_fmap, length_replicate, serve_length. done. }
  split; [done|]. unfold ActiveRunnable.serial_inv.
  rewrite notify_one_life, notify_one_running, notify_one_t.
  rewrite notify_one_tasks, notify_one_promises. simpl.
  split_and!; try done.
  - unfold loop_inv, notify_one in *. simpl.
    destruct (thread s) as [[]|] eqn:Hpc; simpl; rewrite ?Hpc; try done;
      (split; [tauto|]); by destruct (_tasks s).
  - exists done, (todo ++ [d]). split_and!.
    + by rewrite (assoc_L (++)).
    + unfold notify_one. simpl. by destruct (thread s) as [[]|].
    + rewrite Hp, length_app. simpl.
      rewrite Nat.add_1_r, replicate_S_end. by rewrite (assoc_L (++)).
    + assert (Hin : inflight (notify_one
                      (with_tasks (_tasks s ++ [(d, length (promises s))])
                         (with_promises (promises s ++ [None]) s)))
                    = inflight s).
      { unfold inflight, notify_one. simpl.
        destruct (thread s) as [[]|] eqn:Hpc; simpl; by rewrite ?Hpc. }
      rewrite Hin, (assoc_L (++)), Hq, tickets_snoc.
      do 3 f_equal. rewrite Hlen, length_app. done.
Qed.

Lemma serial_thread_step (w0 : Self) (all : list DataType) (s : State) :
  serial_inv w0 all s → thread s ≠ Some PcWait →
  ∃ s', step ThreadStep s = Some s' ∧ serial_inv w0 all s' ∧ rank s' < rank s.
Proof.
  intros (Hl & Hr & (t & Ht & Hj & Hpr) & Hloop & done & todo & -> & Hself & Hp & Hq) Hpc.
  unfold ActiveRunnable.step, ActiveRunnable.thread_step. rewrite Hl.
  unfold ActiveRunnable.serial_inv, loop_inv, inflight, rank in *.
  destruct (thread s) as [[]|] eqn:Hth; simpl in *; try done.
  - rewrite Ht, on_spawn_started by done.
    eexists. split; [done|]. simpl. split; [|lia].
    split_and!; eauto; try tauto; try (exists done, todo; by split_and!).
  - rewrite Hr. eexists. split; [done|]. simpl. split; [|lia].
    split_and!; eauto; try tauto; try (exists done, todo; by split_and!).
  - rewrite Hloop. eexists. split; [done|]. simpl. split; [|lia].
    split_and!; eauto; try tauto; try (exists done, todo; by split_and!).
  - destruct (_tasks s) as [|task rest] eqn:Hts.
    + eexists. split; [done|]. simpl. rewrite Hts. split; [|simpl; lia].
      split_and!; eauto; try tauto; try (exists done, todo; by split_and!).
    + eexists. split; [done|]. simpl. rewrite Hts. split; [|simpl; lia].
      split_and!; eauto; try tauto; try (exists done, todo; by split_and!).
  - destruct Hloop as [-> Hne]. eexists. split; [done|]. simpl. split; [|lia].
    split_and!; eauto; try tauto; try (exists done, todo; by split_and!).
  - rewrite Hr. simpl. eexists. split; [done|]. simpl. split; [|lia].
    split_and!; eauto; try tauto; try (exists done, todo; by split_and!).
  - destruct Hloop as [Hlock Hne].
    destruct (_tasks s) as [|[d p] rest] eqn:Hts; [done|].
    eexists. split; [done|]. simpl. split; [|lia].
    split_and!; eauto; try tauto; try (exists done, todo; by split_and!).
  - symmetry in Hq. apply tickets_cons in Hq as (todo' & -> & -> & Hrest).
    destruct (work_returns data (self s)) as [r Hw].
    destruct (__work data (self s)) as [r' w] eqn:Hwork. simpl in Hw. subst r'.
    assert (Hpend : promises s !! length done = Some None).
    { rewrite Hp, lookup_app_r by (by rewrite length_fmap, serve_length).
      rewrite length_fmap, serve_length, Nat.sub_diag. done. }
    unfold promise_set_value. rewrite Hpend.
    eexists. split; [done|]. simpl. split; [|lia].
    rewrite Hself in Hwork.
    split_and!; eauto.
    exists (done ++ [data]), todo'. rewrite (serve_snoc _ _ _ _ _ Hwork).
    split_and!.
    + by rewrite <- (assoc_L (++)).
    + done.
    + rewrite Hp. simpl.
      rewrite insert_app_r_alt by (by rewrite length_fmap, serve_length).
      rewrite length_fmap, serve_length, Nat.sub_diag. simpl.
      rewrite fmap_app. simpl. by rewrite <- (assoc_L (++)).
    + rewrite Hrest, length_app. simpl. by rewrite Nat.add_1_r.
Qed.

Lemma serial_waiting (w0 : Self) (all : list DataType) (s : State) :
  serial_inv w0 all s → thread s = Some PcWait →
  step ThreadStep s = None
  ∧ promises s = Some <$> (serve all w0).1
  ∧ self s = (serve all w0).2
  ∧ _tasks s = [].
Proof.
  intros (Hl & Hr & Ht & Hloop & done & todo & -> & Hself & Hp & Hq) Hpc.
  unfold ActiveRunnable.step, ActiveRunnable.thread_step. rewrite Hl, Hpc.
  split; [done|].
  unfold loop_inv, inflight in *. rewrite Hpc in Hloop, Hq.
  destruct Hloop as [_ Hts]. rewrite Hts in Hq. simpl in Hq.
  symmetry in Hq. apply tickets_nil in Hq as ->.
  rewrite Hp, Hself. simpl. by rewrite !app_nil_r.
Qed.

Lemma serial_prefix (w0 : Self) (all : list DataType) (s : State) :
  serial_inv w0 all s →
  ∃ k, k ≤ length all
       ∧ promises s
         = (Some <$> take k (serve all w0).1) ++ replicate (length all - k) None.
Proof.
  intros (Hl & Hr & Ht & Hloop & done & todo & -> & Hself & Hp & Hq).
  exists (length done). rewrite length_app. split; [lia|].
  rewrite serve_app. simpl.
  rewrite take_app_le by (by rewrite serve_length).
  rewrite firstn_all2 by (by rewrite serve_length).
  rewrite Hp. do 2 f_equal. lia.
Qed.

Lemma serial_step (w0 : Self) (all : list DataType) (e : event) (s s' : State) :
  producer_or_thread e → step e s = Some s' → serial_inv w0 all s →
  serial_inv w0 (all ++ (notified [e]).*1) s'
  ∧ (notified [e]).*2 = seq (length all) (length (notified [e])).
Proof.
  intros He Hstep Hinv. destruct e; try done.
  - unfold ActiveRunnable.step in Hstep.
    destruct Hinv as (Hl & Hinv'). rewrite Hl in Hstep.
    destruct (notify data s) as [[p s1]|] eqn:Hn; [|done]. simpl in Hstep.
    case_decide; [|done]. simplify_eq/=.
    assert (Hinv : serial_inv w0 all s) by done.
    by destruct (serial_notify _ _ _ _ _ _ Hinv Hn) as (-> & Hinv1).
  - simpl. rewrite app_nil_r. split; [|done].
    destruct (waiting_or_not s) as [Hw|Hw].
    + destruct (serial_waiting _ _ _ Hinv Hw) as [Hnone _]. congruence.
    + destruct (serial_thread_step _ _ _ Hinv Hw) as (s1 & Hs1 & Hinv1 & _).
      congruence.
Qed.

Lemma serial_exec (w0 : Self) (es : list event) (all : list DataType) (s s' : State) :
  Forall producer_or_thread es → exec es s = Some s' → serial_inv w0 all s →
  serial_inv w0 (all ++ (notified es).*1) s'
  ∧ (notified es).*2 = seq (length all) (length (notified es)).
Proof.
  intros Hes. revert all s.
  induction Hes as [|e es He _ IH]; intros all s Hex Hinv.
  - simplify_eq/=. by rewrite app_nil_r.
  - simpl in Hex. destruct (step e s) as [s1|] eqn:Hs; [|done]. simpl in Hex.
    destruct (serial_step _ _ _ _ _ He Hs Hinv) as [Hinv1 Hf1].
    destruct (IH _ _ Hex Hinv1) as [Hinv2 Hf2].
    change (e :: es) with ([e] ++ es).
    unfold notified in *. rewrite omap_app, !fmap_app, length_app.
    rewrite (assoc_L (++)). split; [done|].
    rewrite Hf1, Hf2, length_app, length_fmap, seq_app. done.
Qed.

Lemma serial_drain (w0 : Self) (n : nat) (all : list DataType) (s : State) :
  serial_inv w0 all s → rank s ≤ n →
  serial_inv w0 all (drain n s) ∧ thread (drain n s) = Some PcWait.
Proof.
  revert s. induction n as [|n IH]; intros s Hinv Hrank.
  - simpl. split; [done|].
    destruct Hinv as (_ & _ & _ & Hloop & _).
    unfold rank, loop_inv in *.
    destruct (thread s) as [[]|]; try done; lia.
  - simpl. destruct (waiting_or_not s) as [Hw|Hw].
    + destruct (serial_waiting _ _ _ Hinv Hw) as [-> _]. done.
    + destruct (serial_thread_step _ _ _ Hinv Hw) as (s1 & -> & Hinv1 & Hlt).
      apply IH; [done|lia].
Qed.

(** Everything answered and the thread waiting: [stop()] and three steps
    end the thread. *)
Lemma serial_stop (w0 : Self) (all : list DataType) (s : State) :
  serial_inv w0 all s → thread s = Some PcWait →
  ∃ s', exec [Stop; ThreadStep; ThreadStep; ThreadStep] s = Some s'
        ∧ life s' = Live ∧ thread s' = Some PcDone
        ∧ completed s' = true ∧ status s' = false
        ∧ promises s' = promises s ∧ self s' = self s ∧ _tasks s' = _tasks s.
Proof.
  intros (Hl & Hr & (t & Ht & Hj & Hpr) & Hloop & _) Hpc.
  unfold loop_inv in Hloop. rewrite Hpc in Hloop. destruct Hloop as [Hlock _].
  destruct s. simpl in *. subst.
  eexists. split; [done|]. by simpl.
Qed.
End ActiveRunnable_serial.

(** ** Both workers, and the serial worker from the client's side *)

Section Workers.
Import Thread.
Context `{PM : PriorityModel}.
Variable os : OS.

(** X9. For a Runnable and for an ActiveRunnable after its one [run()], as
    long as the object is live: the future handed back by [run()] is ready
    exactly when the thread function has returned, and whenever it is ready
    [status()] is false. *)
Theorem future_ready_means_returned :
  (∀ (Self : Type) (__work : Self → result () * Self)
     (s0 s1 s : @Runnable.State PM Self) (es : list Runnable.event),
      Runnable.fresh s0 → Runnable.run os s0 = Some (Returned (), s1) →
      Forall (λ e, e ≠ Runnable.Run) es →
      Runnable.exec os __work es s1 = Some s →
      Runnable.life s = Live →
      (Runnable.completed s = true ↔ Runnable.thread s = Some Runnable.PcDone)
      ∧ (Runnable.completed s = true → Runnable.status s = false))
  ∧ (∀ (DataType ReturnType Self : Type)
       (__work : DataType → Self → result ReturnType * Self)
       (s0 s1 s : @ActiveRunnable.State PM DataType ReturnType Self)
       (es : list ActiveRunnable.event),
        ActiveRunnable.fresh s0 →
        ActiveRunnable.run os s0 = Some (Returned (), s1) →
        Forall (λ e, e ≠ ActiveRunnable.Run) es →
        ActiveRunnable.exec os __work es s1 = Some s →
        ActiveRunnable.life s = Live →
        (ActiveRunnable.completed s = true
         ↔ ActiveRunnable.thread s = Some ActiveRunnable.PcDone)
        ∧ (ActiveRunnable.completed s = true → ActiveRunnable.status s = false)).
Proof.
  split.
  - intros Self __work s0 s1 s es. apply runnable_future_ready.
  - intros D R Self __work s0 s1 s es. apply active_future_ready.
Qed.

(** X10. The work step is called inside the loop only: while the thread of
    a Runnable or of an ActiveRunnable does not exist yet, or has left the
    loop, nothing that happens short of a [run()] changes the state of the
    derived object or brings the thread into the loop. *)
Theorem work_only_inside_loop :
  (∀ (Self : Type) (__work : Self → result () * Self)
     (s s' : @Runnable.State PM Self) (es : list Runnable.event),
      Forall (λ e, e ≠ Runnable.Run) es →
      Runnable.exec os __work es s = Some s' →
      Runnable.thread s = None ∨ Runnable.thread s = Some Runnable.PcReturn
      ∨ Runnable.thread s = Some Runnable.PcDone →
      Runnable.self s' = Runnable.self s
      ∧ (Runnable.thread s' = None ∨ Runnable.thread s' = Some Runnable.PcReturn
         ∨ Runnable.thread s' = Some Runnable.PcDone))
  ∧ (∀ (DataType ReturnType Self : Type)
       (__work : DataType → Self → result ReturnType * Self)
       (s s' : @ActiveRunnable.State PM DataType ReturnType Self)
       (es : list ActiveRunnable.event),
        Forall (λ e, e ≠ ActiveRunnable.Run) es →
        ActiveRunnable.exec os __work es s = Some s' →
        ActiveRunnable.thread s = None
        ∨ ActiveRunnable.thread s = Some ActiveRunnable.PcReturn
        ∨ ActiveRunnable.thread s = Some ActiveRunnable.PcDone →
        ActiveRunnable.self s' = ActiveRunnable.self s
        ∧ (ActiveRunnable.thread s' = None
           ∨ ActiveRunnable.thread s' = Some ActiveRunnable.PcReturn
           ∨ ActiveRunnable.thread s' = Some ActiveRunnable.PcDone)).
Proof.
  split.
  - intros Self __work s s' es Hes Hex Hpc.
    destruct (runnable_outside_exec os __work (Runnable.self s) es s s' Hes Hex)
      as [Hpc' Hself]; [by split|]. by split.
  - intros D R Self __work s s' es Hes Hex Hpc.
    destruct (active_outside_exec os __work (ActiveRunnable.self s) es s s' Hes Hex)
      as [Hpc' Hself]; [by split|]. by split.
Qed.

Section Serial.
Import ActiveRunnable.
Context {DataType ReturnType Self : Type}.
Variable __work : DataType → Self → result ReturnType * Self.
Hypothesis work_returns : ∀ d w, ∃ r, (__work d w).1 = Returned r.

Local Abbreviation State := (@State PM DataType ReturnType Self).
Local Abbreviation event := (@event PM DataType).

Lemma serial_from_init (w0 : Self) (s1 s : State) (es : list event) :
  run os (init w0) = Some (Returned (), s1) →
  Forall producer_or_thread es →
  exec os __work es s1 = Some s →
  serial_inv __work w0 (notified es).*1 s
  ∧ (notified es).*2 = seq 0 (length (notified es)).
Proof.
  intros Hrun Hes Hex.
  assert (Hq : queued_inv [] (init w0 : State)) by done.
  destruct (queued_run os __work [] (init w0) Hq) as (s1' & Hrun' & Hinv).
  rewrite Hrun in Hrun'. injection Hrun' as <-.
  exact (serial_exec os __work work_returns w0 es [] s1 s Hes Hex Hinv).
Qed.

(** X15. An ActiveRunnable whose work step keeps a state of its own and
    does not throw, constructed in state [w0]: after [run()], in every
    interleaving of one producer's [notify] calls with the steps of the
    spawned thread, the futures handed back are those of promises 0, 1, ...
    in this order; at every moment the promises answered are the first [k],
    and they hold what the work step returns when it is called on the
    payloads one after the other, in the order handed in, from [w0]; left
    to run, the thread answers all of them, leaves the derived object in
    the state these calls lead to, and waits. *)
Theorem queued_worker_serial (w0 : Self) (s1 s : State) (es : list event) :
  run os (init w0) = Some (Returned (), s1) →
  Forall producer_or_thread es →
  exec os __work es s1 = Some s →
  (notified es).*2 = seq 0 (length (notified es))
  ∧ (∃ k, k ≤ length (notified es)
          ∧ promises s
            = (Some <$> take k (serve __work (notified es).*1 w0).1)
              ++ replicate (length (notified es) - k) None)
  ∧ (∀ n, rank s ≤ n →
          life (drain os __work n s) = Live
          ∧ thread (drain os __work n s) = Some PcWait
          ∧ promises (drain os __work n s)
            = Some <$> (serve __work (notified es).*1 w0).1
          ∧ self (drain os __work n s) = (serve __work (notified es).*1 w0).2).
Proof.
  intros Hrun Hes Hex.
  destruct (serial_from_init w0 s1 s es Hrun Hes Hex) as [Hinv Hfut].
  split; [done|]. split.
  - destruct (serial_prefix __work work_returns w0 _ s Hinv) as (k & Hk & Hp).
    rewrite length_fmap in Hk, Hp. by exists k.
  - intros n Hn.
    destruct (serial_drain os __work work_returns w0 n _ s Hinv Hn) as [Hinv' Hw].
    destruct (serial_waiting os __work w0 _ _ Hinv' Hw) as (_ & Hp & Hself & _).
    split; [by destruct Hinv'|]. done.
Qed.

(** X16. [notify] does not need a running worker: what is handed in before
    [run()] waits in the queue with its promise pending, and once [run()]
    is called the spawned thread serves it, in the order handed in. *)
Theorem notify_before_run_is_served (w0 : Self) (pre : list event) (s0 : State) :
  Forall (λ e, ∃ d f, e = Notify d f) pre →
  exec os __work pre (init w0) = Some s0 →
  (notified pre).*2 = seq 0 (length (notified pre))
  ∧ _tasks s0 = tickets 0 (notified pre).*1
  ∧ promises s0 = replicate (length (notified pre)) None
  ∧ self s0 = w0
  ∧ ∃ s1, run os s0 = Some (Returned (), s1)
          ∧ ∀ n, rank s1 ≤ n →
                 life (drain os __work n s1) = Live
                 ∧ thread (drain os __work n s1) = Some PcWait
                 ∧ promises (drain os __work n s1)
                   = Some <$> (serve __work (notified pre).*1 w0).1
                 ∧ self (drain os __work n s1)
                   = (serve __work (notified pre).*1 w0).2.
Proof.
  intros Hpre Hex.
  assert (Hq : queued_inv [] (init w0 : State)) by done.
  destruct (queued_exec os __work pre [] (init w0) s0 Hpre Hex Hq) as [Hq0 Hfut].
  simpl in Hq0, Hfut. split; [done|].
  assert (Hself : self s0 = w0).
  { assert (Hgen : ∀ s : State, exec os __work pre s = Some s0 → self s0 = self s).
    { clear Hex Hq0 Hfut Hq.
      induction Hpre as [|e es (d & f & ->) _ IH]; intros s Hs.
      - by simplify_eq/=.
      - simpl in Hs. unfold ActiveRunnable.step in Hs.
        destruct (life s); try done. unfold notify in Hs.
        destruct (_notifyLock s); try done. simpl in Hs.
        case_decide; try done. simpl in Hs. rewrite (IH _ Hs).
        unfold notify_one. simpl. by destruct (thread s) as [[]|]. }
    by rewrite (Hgen _ Hex). }
  destruct Hq0 as (Hfresh & Hp & Hts). rewrite length_fmap in Hp.
  split; [done|]. split; [done|].
  split; [done|].
  destruct (queued_run os __work (notified pre).*1 s0) as (s1 & Hrun & Hinv).
  { split; [done|]. by rewrite length_fmap. }
  exists s1. split; [done|]. intros n Hn.
  destruct (serial_drain os __work work_returns _ n _ s1 Hinv Hn) as [Hinv' Hw].
  destruct (serial_waiting os __work _ _ _ Hinv' Hw) as (_ & Hp' & Hself' & _).
  rewrite Hself in Hp', Hself'.
  split; [by destruct Hinv'|]. done.
Qed.

(** X17. The course the tests take: [run()], any interleaving of one
    producer's [notify] calls with the steps of the spawned thread, the
    thread left to answer what is queued; then [stop()] and three steps of
    the thread end the thread function with the future of [run()] ready,
    [status()] false, the queue empty and every promise holding its
    answer. *)
Theorem stop_after_work_completes (w0 : Self) (s1 s : State) (es : list event)
    (n : nat) :
  run os (init w0) = Some (Returned (), s1) →
  Forall producer_or_thread es →
  exec os __work es s1 = Some s →
  rank s ≤ n →
  ∃ s', exec os __work [Stop; ThreadStep; ThreadStep; ThreadStep]
          (drain os __work n s) = Some s'
        ∧ life s' = Live ∧ thread s' = Some PcDone
        ∧ completed s' = true ∧ status s' = false
        ∧ _tasks s' = []
        ∧ promises s' = Some <$> (serve __work (notified es).*1 w0).1
        ∧ self s' = (serve __work (notified es).*1 w0).2.
Proof.
  intros Hrun Hes Hex Hn.
  destruct (serial_from_init w0 s1 s es Hrun Hes Hex) as [Hinv _].
  destruct (serial_drain os __work work_returns w0 n _ s Hinv Hn) as [Hinv' Hw].
  destruct (serial_waiting os __work w0 _ _ Hinv' Hw) as (_ & Hp & Hself & Hts).
  destruct (serial_stop os __work w0 _ _ Hinv' Hw)
    as (s' & Hs' & Hl & Hpc & Hc & Hst & Hp' & Hself' & Hts').
  exists s'. split; [done|]. split_and!; try done; congruence.
Qed.
End Serial.
End Workers.

(** ** Destruction *)

Section Runnable_destruction.
Import Thread Runnable.
Context `{PM : PriorityModel} {Self : Type}.
Variable os : OS.
Variable __work : Self → result () * Self.

Local Abbreviation State := (@State PM Self).
Local Abbreviation step := (step os __work).
Local Abbreviation exec := (exec os __work).

Lemma runnable_destroy_running (w : Self) (s1 s : State) (es : list event) :
  run os (init w) = Some (Returned (), s1) →
  Forall (λ e, e ≠ Run ∧ e ≠ Stop) es →
  exec es s1 = Some s →
  life s = Live →
  status s = true
  ∧ completed s = false
  ∧ (∃ pc, thread s = Some pc ∧ pc ≠ PcReturn ∧ pc ≠ PcDone)
  ∧ ∃ s', step Destroy s = Some s'
          ∧ life s' = Faulted Undefined
          ∧ thread s' = thread s
          ∧ ∀ e, step e s' = None.
Proof.
  intros Hrun Hes Hex Hl.
  assert (Hfresh : fresh (init w)) by (by repeat split).
  destruct (runnable_started_run os (init w) Hfresh) as (s1' & Hrun' & Hinv1).
  rewrite Hrun in Hrun'. injection Hrun' as <-.
  assert (Hr1 : _running s1 = true).
  { rewrite runnable_run_first in Hrun by done. by injection Hrun as <-. }
  assert (Hr : _running s = true).
  { eapply runnable_exec_keeps_running; [|exact Hex|exact Hr1].
    eapply Forall_impl; [exact Hes|]. by intros e [_ ?]. }
  assert (Hinv : started_inv s).
  { eapply runnable_started_exec; [|exact Hex|exact Hinv1].
    eapply Forall_impl; [exact Hes|]. by intros e [? _]. }
  destruct (Hinv Hl) as ((pc & Hpc) & (t & Ht & Hj & Hp) & Hexit).
  assert (Hin : pc ≠ PcReturn ∧ pc ≠ PcDone).
  { unfold exited in Hexit. rewrite Hpc in Hexit.
    split; intros ->; by rewrite Hexit in Hr. }
  destruct Hin as [Hret Hdone].
  split; [done|]. split.
  { unfold completed. rewrite Ht, Hp. unfold finished. rewrite Hpc.
    by destruct pc. }
  split; [by exists pc|].
  exists (with_life (Faulted Undefined) s). split; [|done].
  unfold Runnable.step, destroy. rewrite Hl, Ht.
  unfold release, join, finished. rewrite Hj, Hpc. by destruct pc.
Qed.

Lemma runnable_destroy_fresh (s0 : State) :
  fresh s0 →
  ∃ s', step Destroy s0 = Some s' ∧ life s' = Destroyed.
Proof.
  intros (Ht & _ & _ & Hl). unfold Runnable.step, destroy. rewrite Hl, Ht.
  by eexists.
Qed.

Lemma runnable_destroy_returns (s0 s1 s : State) (es : list event) :
  fresh s0 → run os s0 = Some (Returned (), s1) →
  Forall (λ e, e ≠ Run) es → exec es s1 = Some s →
  (life s = Destroyed → thread s = None ∨ thread s = Some PcDone)
  ∧ (life s = Live → thread s = Some PcDone →
     ∃ s', step Destroy s = Some s' ∧ life s' = Destroyed ∧ _t s' = None)
  ∧ (life s = Live → thread s = Some PcReturn →
     step Destroy s = None
     ∧ ∃ s2 s', step ThreadStep s = Some s2
                ∧ step Destroy s2 = Some s' ∧ life s' = Destroyed).
Proof.
  intros (Ht & Hr & Hth & Hl0) Hrun _ Hex.
  rewrite runnable_run_first in Hrun by done. injection Hrun as <-.
  assert (Hinv : handle_inv s).
  { eapply runnable_exec_handle_inv; [exact Hex|].
    unfold handle_inv. simpl. rewrite Hl0. eauto. }
  destruct (runnable_destroy_cases os __work s Hinv) as (H1 & H2 & H3 & _).
  split; [done|]. split.
  - intros Hl Hpc. eexists. split; [apply H2; auto|]. done.
  - intros Hl Hpc. split; [by apply H3|].
    unfold handle_inv in Hinv. rewrite Hl, Hpc in Hinv.
    destruct Hinv as (t & Ht' & Hj).
    unfold Runnable.step, thread_step, destroy. rewrite Hl, Hpc. simpl.
    rewrite Ht'. eexists. eexists. split; [done|]. simpl. rewrite Hl.
    unfold release, join, finished. simpl. rewrite Hj. done.
Qed.
End Runnable_destruction.

Section ActiveRunnable_destruction.
Import Thread ActiveRunnable.
Context `{PM : PriorityModel} {DataType ReturnType Self : Type}.
Variable os : OS.
Variable __work : DataType → Self → result ReturnType * Self.

Local Abbreviation State := (@State PM DataType ReturnType Self).
Local Abbreviation step := (step os __work).
Local Abbreviation exec := (exec os __work).

Lemma active_destroy_running (w : Self) (s1 s : State) (es : list event) :
  run os (init w) = Some (Returned (), s1) →
  Forall (λ e, e ≠ Run ∧ e ≠ Stop) es →
  exec es s1 = Some s →
  life s = Live →
  status s = true
  ∧ completed s = false
  ∧ (∃ pc, thread s = Some pc ∧ pc ≠ PcReturn ∧ pc ≠ PcDone)
  ∧ ∃ s', step Destroy s = Some s'
          ∧ life s' = Faulted Undefined
          ∧ thread s' = thread s
          ∧ ∀ e, step e s' = None.
Proof.
  intros Hrun Hes Hex Hl.
  assert (Hfresh : fresh (init w : State)) by (by repeat split).
  destruct (active_started_run os (init w) Hfresh) as (s1' & Hrun' & Hinv1).
  rewrite Hrun in Hrun'. injection Hrun' as <-.
  assert (Hr1 : _running s1 = true).
  { rewrite active_run_first in Hrun by done. by injection Hrun as <-. }
  assert (Hr : _running s = true).
  { eapply active_exec_keeps_running; [|exact Hex|exact Hr1].
    eapply Forall_impl; [exact Hes|]. by intros e [_ ?]. }
  assert (Hinv : started_inv s).
  { eapply active_started_exec; [|exact Hex|exact Hinv1].
    eapply Forall_impl; [exact Hes|]. by intros e [? _]. }
  destruct (Hinv Hl) as ((pc & Hpc) & (t & Ht & Hj & Hp) & Hexit & _).
  assert (Hin : pc ≠ PcReturn ∧ pc ≠ PcDone).
  { unfold exited in Hexit. rewrite Hpc in Hexit.
    split; intros ->; by rewrite Hexit in Hr. }
  destruct Hin as [Hret Hdone].
  split; [done|]. split.
  { unfold completed. rewrite Ht, Hp. unfold finished. rewrite Hpc.
    by destruct pc. }
  split; [by exists pc|].
  exists (with_life (Faulted Undefined) s). split; [|done].
  unfold ActiveRunnable.step, destroy. rewrite Hl, Ht.
  unfold release, join, finished. rewrite Hj, Hpc. by destruct pc.
Qed.

Lemma active_destroy_fresh (s0 : State) :
  fresh s0 →
  ∃ s', step Destroy s0 = Some s' ∧ life s' = Destroyed.
Proof.
  intros (Ht & _ & _ & _ & Hl). unfold ActiveRunnable.step, destroy.
  rewrite Hl, Ht. by eexists.
Qed.

Lemma active_destroy_returns (s0 s1 s : State) (es : list event) :
  fresh s0 → run os s0 = Some (Returned (), s1) →
  Forall (λ e, e ≠ Run) es → exec es s1 = Some s →
  (life s = Destroyed → thread s = None ∨ thread s = Some PcDone)
  ∧ (life s = Live → thread s = Some PcDone →
     ∃ s', step Destroy s = Some s' ∧ life s' = Destroyed ∧ _t s' = None)
  ∧ (life s = Live → thread s = Some PcReturn →
     step Destroy s = None
     ∧ ∃ s2 s', step ThreadStep s = Some s2
                ∧ step Destroy s2 = Some s' ∧ life s' = Destroyed).
Proof.
  intros (Ht & Hr & Hlock & Hth & Hl0) Hrun _ Hex.
  rewrite active_run_first in Hrun by done. injection Hrun as <-.
  assert (Hinv : handle_inv s).
  { eapply active_exec_handle_inv; [exact Hex|].
    unfold handle_inv. simpl. rewrite Hl0. eauto. }
  destruct (active_destroy_cases os __work s Hinv) as (H1 & H2 & H3 & _).
  split; [done|]. split.
  - intros Hl Hpc. eexists. split; [apply H2; auto|]. done.
  - intros Hl Hpc. split; [by apply H3|].
    unfold handle_inv in Hinv. rewrite Hl, Hpc in Hinv.
    destruct Hinv as (t & Ht' & Hj).
    unfold ActiveRunnable.step, thread_step, destroy. rewrite Hl, Hpc. simpl.
    rewrite Ht'. eexists. eexists. split; [done|]. simpl. rewrite Hl.
    unfold release, join, finished. simpl. rewrite Hj. done.
Qed.
End ActiveRunnable_destruction.

Section Destruction.
Import Thread.
Context `{PM : PriorityModel}.
Variable os : OS.

(** C9, on the code. A Runnable or an ActiveRunnable on which [run()] has
    been called and [stop()] has not, whatever else has happened to it:
    [status()] is true, the thread function has not returned, and the
    thread is before or inside the loop, which nothing has told it to
    leave. Dropping the object there destroys the derived part and the
    members and then joins that thread through the handle's deleter: the
    behaviour is undefined, the thread is where it was, not returned, and
    the object never comes to be destroyed with its thread gone. *)
Theorem destruction_while_running :
  (∀ (Self : Type) (__work : Self → result () * Self) (w : Self)
     (s1 s : @Runnable.State PM Self) (es : list Runnable.event),
      Runnable.run os (Runnable.init w) = Some (Returned (), s1) →
      Forall (λ e, e ≠ Runnable.Run ∧ e ≠ Runnable.Stop) es →
      Runnable.exec os __work es s1 = Some s →
      Runnable.life s = Live →
      Runnable.status s = true
      ∧ Runnable.completed s = false
      ∧ (∃ pc, Runnable.thread s = Some pc
               ∧ pc ≠ Runnable.PcReturn ∧ pc ≠ Runnable.PcDone)
      ∧ ∃ s', Runnable.step os __work Runnable.Destroy s = Some s'
              ∧ Runnable.life s' = Faulted Undefined
              ∧ Runnable.thread s' = Runnable.thread s
              ∧ ∀ e, Runnable.step os __work e s' = None)
  ∧ (∀ (DataType ReturnType Self : Type)
       (__work : DataType → Self → result ReturnType * Self) (w : Self)
       (s1 s : @ActiveRunnable.State PM DataType ReturnType Self)
       (es : list ActiveRunnable.event),
        ActiveRunnable.run os (ActiveRunnable.init w) = Some (Returned (), s1) →
        Forall (λ e, e ≠ ActiveRunnable.Run ∧ e ≠ ActiveRunnable.Stop) es →
        ActiveRunnable.exec os __work es s1 = Some s →
        ActiveRunnable.life s = Live →
        ActiveRunnable.status s = true
        ∧ ActiveRunnable.completed s = false
        ∧ (∃ pc, ActiveRunnable.thread s = Some pc
                 ∧ pc ≠ ActiveRunnable.PcReturn ∧ pc ≠ ActiveRunnable.PcDone)
        ∧ ∃ s', ActiveRunnable.step os __work ActiveRunnable.Destroy s = Some s'
                ∧ ActiveRunnable.life s' = Faulted Undefined
                ∧ ActiveRunnable.thread s' = ActiveRunnable.thread s
                ∧ ∀ e, ActiveRunnable.step os __work e s' = None).
Proof.
  split.
  - intros Self __work w s1 s es. apply runnable_destroy_running.
  - intros D R Self __work w s1 s es. apply active_destroy_running.
Qed.

(** X20. Where the destructor of a Runnable or of an ActiveRunnable does
    return. On an object on which [run()] has not been called it returns
    at once. After the one [run()], whatever else the clients have called:
    an object that is gone has no thread left; the destructor returns at
    once, and releases the handle, where the thread function has returned;
    where the thread has left the loop and not yet set the promise, the
    destructor waits, and returns after the one step the thread has
    left. *)
Theorem destruction_after_return :
  (∀ (Self : Type) (__work : Self → result () * Self)
     (s0 : @Runnable.State PM Self),
      Runnable.fresh s0 →
      (∃ s', Runnable.step os __work Runnable.Destroy s0 = Some s'
             ∧ Runnable.life s' = Destroyed)
      ∧ ∀ (s1 s : Runnable.State) (es : list Runnable.event),
          Runnable.run os s0 = Some (Returned (), s1) →
          Forall (λ e, e ≠ Runnable.Run) es →
          Runnable.exec os __work es s1 = Some s →
          (Runnable.life s = Destroyed →
           Runnable.thread s = None ∨ Runnable.thread s = Some Runnable.PcDone)
          ∧ (Runnable.life s = Live →
             Runnable.thread s = Some Runnable.PcDone →
             ∃ s', Runnable.step os __work Runnable.Destroy s = Some s'
                   ∧ Runnable.life s' = Destroyed ∧ Runnable._t s' = None)
          ∧ (Runnable.life s = Live →
             Runnable.thread s = Some Runnable.PcReturn →
             Runnable.step os __work Runnable.Destroy s = None
             ∧ ∃ s2 s',
                 Runnable.step os __work Runnable.ThreadStep s = Some s2
                 ∧ Runnable.step os __work Runnable.Destroy s2 = Some s'
                 ∧ Runnable.life s' = Destroyed))
  ∧ (∀ (DataType ReturnType Self : Type)
       (__work : DataType → Self → result ReturnType * Self)
       (s0 : @ActiveRunnable.State PM DataType ReturnType Self),
        ActiveRunnable.fresh s0 →
        (∃ s', ActiveRunnable.step os __work ActiveRunnable.Destroy s0 = Some s'
               ∧ ActiveRunnable.life s' = Destroyed)
        ∧ ∀ (s1 s : ActiveRunnable.State) (es : list ActiveRunnable.event),
            ActiveRunnable.run os s0 = Some (Returned (), s1) →
            Forall (λ e, e ≠ ActiveRunnable.Run) es →
            ActiveRunnable.exec os __work es s1 = Some s →
            (ActiveRunnable.life s = Destroyed →
             ActiveRunnable.thread s = None
             ∨ ActiveRunnable.thread s = Some ActiveRunnable.PcDone)
            ∧ (ActiveRunnable.life s = Live →
               ActiveRunnable.thread s = Some ActiveRunnable.PcDone →
               ∃ s', ActiveRunnable.step os __work ActiveRunnable.Destroy s
                     = Some s'
                     ∧ ActiveRunnable.life s' = Destroyed
                     ∧ ActiveRunnable._t s' = None)
            ∧ (ActiveRunnable.life s = Live →
               ActiveRunnable.thread s = Some ActiveRunnable.PcReturn →
               ActiveRunnable.step os __work ActiveRunnable.Destroy s = None
               ∧ ∃ s2 s',
                   ActiveRunnable.step os __work ActiveRunnable.ThreadStep s
                   = Some s2
                   ∧ ActiveRunnable.step os __work ActiveRunnable.Destroy s2
                     = Some s'
                   ∧ ActiveRunnable.life s' = Destroyed)).
Proof.
  split.
  - intros Self __work s0 Hfresh. split.
    + by apply runnable_destroy_fresh.
    + intros s1 s es. by apply runnable_destroy_returns.
  - intros D R Self __work s0 Hfresh. split.
    + by apply active_destroy_fresh.
    + intros s1 s es. by apply active_destroy_returns.
Qed.
End Destruction.

(** ** Priorities and names *)

Section Thread_priorities.
Import Thread.
Context `{PM : PriorityModel}.
Variable os : OS.

Lemma request_effects_started (p : Priority) (t : ThreadDetail) :
  _thread t = true → (set_priority os p t).2 = request_effects os p.
Proof.
  intros Ht. unfold set_priority, request_effects. rewrite Ht. simpl.
  by repeat case_match.
Qed.

(** X18. Any calls of [set_priority] on a started handle, one after the
    other: afterwards [get_priority()] returns the last priority asked for
    that is not the default and for which the scheduling call answered a
    value other than 0, or what it returned before when there is none, so
    asking for the default does not bring a raised thread back; a call
    answers [true] exactly when it asks for the default or the scheduling
    call answers a value other than 0; the operating system is asked once
    for every priority that is not the default, and never for the default;
    the handle stays joinable and keeps its name. Where 0 is the value by
    which the scheduling call reports a failure, a call that answered
    another value is a request granted; where the call reports a failure
    by any value other than 0, it is a request refused. *)
Theorem set_priority_keeps_last_accepted (ps : list Priority) (t : ThreadDetail) :
  _thread t = true →
  (get_priority (set_priorities os ps t).1.1
   = default (get_priority t) (last (filter (λ p, accepted os p) ps))
   ∧ (set_priorities os ps t).1.2
     = (λ p, bool_decide (p = DEFAULT) || accepted os p) <$> ps
   ∧ (set_priorities os ps t).2 = ps ≫= request_effects os
   ∧ _thread (set_priorities os ps t).1.1 = true
   ∧ get_name (set_priorities os ps t).1.1 = get_name t)
  ∧ ((∀ r, call_failed r = (r =? 0)%Z) → ∀ p, accepted os p = granted os p)
  ∧ ((∀ r, call_failed r = negb (r =? 0)%Z) →
     ∀ p, p ≠ DEFAULT → accepted os p = negb (granted os p)).
Proof.
  intros Ht. split; [|split].
  2: { intros Hconv p. unfold accepted, granted. by rewrite Hconv. }
  2: { intros Hconv p Hp. unfold accepted, granted. rewrite Hconv.
       rewrite (bool_decide_eq_true_2 _ Hp). simpl. by rewrite negb_involutive. }
  revert t Ht. induction ps as [|p ps IH]; intros t Ht; [done|].
  simpl. pose proof (request_effects_started p t Ht) as Heff.
  assert (Hcase : (set_priority os p t).1 = (true, store_priority p t)
                  ∧ accepted os p = true
                  ∨ (set_priority os p t).1
                    = (bool_decide (p = DEFAULT), t)
                    ∧ accepted os p = false).
  { unfold set_priority, accepted. rewrite Ht. simpl.
    destruct (decide (p ≠ DEFAULT)) as [Hp|Hp].
    - rewrite (bool_decide_eq_true_2 _ Hp).
      rewrite (bool_decide_eq_false_2 (p = DEFAULT)) by done.
      destruct (sched os p =? 0)%Z; simpl; auto.
    - right. rewrite (bool_decide_eq_false_2 _ Hp).
      apply dec_stable in Hp. by rewrite (bool_decide_eq_true_2 _ Hp). }
  destruct (set_priority os p t) as [[ok t'] effs]. simpl in Heff. subst effs.
  destruct Hcase as [[[= -> ->] Hg] | [[= -> ->] Hg]].
  - destruct (IH (store_priority p t) Ht) as (H1 & H2 & H3 & H4 & H5).
    destruct (set_priorities os ps (store_priority p t)) as [[t'' oks] effs'].
    simpl in *. rewrite filter_cons_True by (by rewrite Hg).
    rewrite last_cons, Hg, orb_true_r, H1, H2, H3.
    split_and!; try done. by destruct (last _).
  - destruct (IH t Ht) as (H1 & H2 & H3 & H4 & H5).
    destruct (set_priorities os ps t) as [[t'' oks] effs'].
    simpl in *. rewrite filter_cons_False by (rewrite Hg; by intros []).
    rewrite Hg, orb_false_r, H1, H2, H3. by split_and!.
Qed.
End Thread_priorities.

Section Thread_linux.
Import Thread Thread.LINUX.
Variable os : OS.

(** X21. On LINUX, where [sched_setscheduler] answers 0 when it succeeds
    and -1 when it fails, the test [false == sched_setscheduler(...)] of
    [set_priority] takes a success for a failure and a failure for a
    success: on a started handle and for a priority other than the
    default, a call that fails is answered [true], caches the priority the
    operating system refused and logs nothing; a call that succeeds is
    logged as an error and answered [false], and the priority the
    operating system has applied is not cached. *)
Theorem linux_failure_test_inverted (p : Priority) (t : ThreadDetail) :
  _thread t = true → p ≠ DEFAULT →
  (call_failed (sched os p) = true →
   set_priority os p t = (true, store_priority p t, [OsSetPriority p])
   ∧ get_priority (set_priority os p t).1.2 = p)
  ∧ (call_failed (sched os p) = false →
     set_priority os p t
     = (false, t, [OsSetPriority p; LogError (last_error os)])
     ∧ get_priority (set_priority os p t).1.2 = get_priority t).
Proof.
  intros Ht Hp. unfold call_failed. simpl. split.
  - intros Hr. apply negb_true_iff, Z.eqb_neq in Hr.
    by rewrite set_priority_started_accepted.
  - intros Hr. apply negb_false_iff, Z.eqb_eq in Hr.
    by rewrite set_priority_started_refused.
Qed.
End Thread_linux.

Section Runnable_names.
Import Thread Runnable.
Context `{PM : PriorityModel} {Self : Type}.
Variable os : OS.
Variable __work : Self → result () * Self.

Local Abbreviation State := (@State PM Self).

Lemma runnable_named_step (e : event) (s s' : State) :
  step os __work e s = Some s' → named_inv s → named_inv s'.
Proof.
  intros Hstep Hinv. unfold Runnable.step in Hstep.
  destruct (life s) eqn:Hl; [|done..]. destruct e.
  - unfold run in Hstep. destruct (_running s) eqn:Hr; simpl in Hstep.
    + by injection Hstep as <-.
    + destruct (match _t s with Some _ => _ | None => _ end); [|done].
      simpl in Hstep.
      destruct (Thread.set_priority os (_priority s) create) as [[ok t] effs].
      injection Hstep as <-. intros _ _. simpl. eauto.
  - injection Hstep as <-. by intros _.
  - injection Hstep as <-. unfold set_priority. simpl.
    destruct (_running s) eqn:Hr; simpl;
      [|by intros _; simpl; rewrite Hr].
    destruct (Hinv Hl Hr) as (t & Ht & Hn). rewrite Ht.
    destruct (set_priority_keeps os priority t) as (_ & _ & Hk).
    destruct (Thread.set_priority os priority t) as [[ok t'] effs].
    simpl in *. intros _ _. exists t'. split; [done|].
    unfold Thread.get_name in *. simpl. congruence.
  - injection Hstep as <-. unfold set_name. simpl.
    destruct (_running s) eqn:Hr; simpl;
      [|by intros _; simpl; rewrite Hr].
    destruct (Hinv Hl Hr) as (t & Ht & Hn). rewrite Ht.
    intros _ _. simpl. eauto.
  - unfold thread_step in Hstep.
    destruct (thread s) as [pc|]; [|done]. simpl in Hstep.
    destruct pc.
    + destruct (_t s) as [t|] eqn:Ht; [|by injection Hstep as <-].
      destruct (on_spawn_keeps os t) as (_ & _ & Hk).
      destruct (on_spawn os t) as [t' effs].
      injection Hstep as <-. simpl in *. intros _ Hr.
      destruct (Hinv Hl Hr) as (t0 & Ht0 & Hn).
      rewrite Ht in Ht0. injection Ht0 as <-. eexists. split; [done|].
      unfold Thread.get_name in *. simpl in *. congruence.
    + destruct (_running s) eqn:Hr; injection Hstep as <-; intros _ Hr';
        simpl in *; [by apply Hinv|congruence].
    + destruct (__work (self s)) as [[]]; injection Hstep as <-; [|done].
      intros _ Hr. by apply Hinv.
    + destruct (_t s) as [t|] eqn:Ht; injection Hstep as <-; [|done].
      simpl. intros _ Hr. destruct (Hinv Hl Hr) as (t0 & Ht0 & Hn).
      rewrite Ht in Ht0. injection Ht0 as <-. eauto.
    + done.
  - unfold destroy in Hstep.
    destruct (match _t s with Some _ => _ | None => _ end);
      [|destruct (thread s) as [[]|] eqn:?; try done];
      by injection Hstep as <-.
Qed.

Lemma runnable_named_exec (es : list event) (s s' : State) :
  exec os __work es s = Some s' → named_inv s → named_inv s'.
Proof.
  revert s. induction es as [|e es IH]; intros s Hex Hinv.
  - by simplify_eq/=.
  - simpl in Hex. destruct (step os __work e s) as [s1|] eqn:Hs; [|done].
    eapply IH; [done|]. by eapply runnable_named_step.
Qed.
End Runnable_names.

Section ActiveRunnable_names.
Import Thread ActiveRunnable.
Context `{PM : PriorityModel} {DataType ReturnType Self : Type}.
Variable os : OS.
Variable __work : DataType → Self → result ReturnType * Self.

Local Abbreviation State := (@State PM DataType ReturnType Self).

Lemma named_inv_frame (s s' : State) :
  _t s' = _t s → _name s' = _name s → _running s' = _running s →
  (life s' = Live → life s = Live) →
  named_inv s → named_inv s'.
Proof.
  unfold named_inv. intros -> -> -> Hl Hinv Hl' Hr. by apply Hinv; [apply Hl|].
Qed.

Lemma notify_one_name (s : State) : _name (notify_one s) = _name s.
Proof. unfold notify_one. by repeat case_match. Qed.

Lemma active_named_step (e : event) (s s' : State) :
  step os __work e s = Some s' → named_inv s → named_inv s'.
Proof.
  intros Hstep Hinv. unfold ActiveRunnable.step in Hstep.
  destruct (life s) eqn:Hl; [|done..]. destruct e.
  - unfold run in Hstep. destruct (_running s) eqn:Hr; simpl in Hstep.
    + by injection Hstep as <-.
    + destruct (match _t s with Some _ => _ | None => _ end); [|done].
      simpl in Hstep.
      destruct (Thread.set_priority os (_priority s) create) as [[ok t] effs].
      injection Hstep as <-. intros _ _. simpl. eauto.
  - unfold notify in Hstep. destruct (_notifyLock s); [done|].
    simpl in Hstep. case_decide; [|done]. injection Hstep as <-.
    eapply named_inv_frame; [..|exact Hinv];
      by rewrite ?notify_one_t, ?notify_one_name, ?notify_one_running,
           ?notify_one_life.
  - unfold stop in Hstep. destruct (_notifyLock s); [done|].
    injection Hstep as <-. intros _. by rewrite notify_one_running.
  - injection Hstep as <-. unfold set_priority. simpl.
    destruct (_running s) eqn:Hr; simpl;
      [|by intros _; simpl; rewrite Hr].
    destruct (Hinv Hl Hr) as (t & Ht & Hn). rewrite Ht.
    destruct (set_priority_keeps os priority t) as (_ & _ & Hk).
    destruct (Thread.set_priority os priority t) as [[ok t'] effs].
    simpl in *. intros _ _. exists t'. split; [done|].
    unfold Thread.get_name in *. simpl. congruence.
  - injection Hstep as <-. unfold set_name. simpl.
    destruct (_running s) eqn:Hr; simpl;
      [|by intros _; simpl; rewrite Hr].
    destruct (Hinv Hl Hr) as (t & Ht & Hn). rewrite Ht.
    intros _ _. simpl. eauto.
  - unfold thread_step in Hstep.
    destruct (thread s) as [pc|]; [|done]. simpl in Hstep.
    destruct pc.
    + destruct (_t s) as [t|] eqn:Ht; [|by injection Hstep as <-].
      destruct (on_spawn_keeps os t) as (_ & _ & Hk).
      destruct (on_spawn os t) as [t' effs].
      injection Hstep as <-. simpl in *. intros _ Hr.
      destruct (Hinv Hl Hr) as (t0 & Ht0 & Hn).
      rewrite Ht in Ht0. injection Ht0 as <-. eexists. split; [done|].
      unfold Thread.get_name in *. simpl in *. congruence.
    + destruct (_running s) eqn:Hr; injection Hstep as <-;
        (eapply named_inv_frame; [..|exact Hinv]; done).
    + destruct (_notifyLock s); [done|]. injection Hstep as <-.
      eapply named_inv_frame; [..|exact Hinv]; done.
    + destruct (_tasks s); injection Hstep as <-;
        (eapply named_inv_frame; [..|exact Hinv]; done).
    + done.
    + destruct (_notifyLock s); [done|]. injection Hstep as <-.
      eapply named_inv_frame; [..|exact Hinv]; done.
    + destruct (negb (_running s)); injection Hstep as <-;
        (eapply named_inv_frame; [..|exact Hinv]; done).
    + destruct (_tasks s) as [|[d p] rest]; injection Hstep as <-; [done|].
      eapply named_inv_frame; [..|exact Hinv]; done.
    + destruct (__work data (self s)) as [[r|x] w];
        [destruct (promise_set_value promise r (promises s))|];
        by injection Hstep as <-.
    + destruct (_t s) as [t|] eqn:Ht; injection Hstep as <-; [|done].
      simpl. intros _ Hr. destruct (Hinv Hl Hr) as (t0 & Ht0 & Hn).
      rewrite Ht in Ht0. injection Ht0 as <-. eauto.
    + done.
  - destruct (thread s) as [[]|]; try done. injection Hstep as <-.
    eapply named_inv_frame; [..|exact Hinv]; done.
  - unfold destroy in Hstep.
    destruct (match _t s with Some _ => _ | None => _ end);
      [|destruct (thread s) as [[]|] eqn:?; try done];
      by injection Hstep as <-.
Qed.

Lemma active_named_exec (es : list event) (s s' : State) :
  exec os __work es s = Some s' → named_inv s → named_inv s'.
Proof.
  revert s. induction es as [|e es IH]; intros s Hex Hinv.
  - by simplify_eq/=.
  - simpl in Hex. destruct (step os __work e s) as [s1|] eqn:Hs; [|done].
    eapply IH; [done|]. by eapply active_named_step.
Qed.
End ActiveRunnable_names.

Section Names.
Import Thread.
Context `{PM : PriorityModel}.
Variable os : OS.

(** X19. From its one [run()] on, whatever else its clients call: as long
    as a Runnable or an ActiveRunnable is live and [status()] is true, the
    handle carries the name that [get_name()] returns. Once [status()] is
    false, [set_name] changes what [get_name()] returns and leaves the
    handle as it is. No call of [set_name] leaves anything outside the
    object. *)
Theorem running_worker_name_reaches_handle :
  (∀ (Self : Type) (__work : Self → result () * Self)
     (s0 s1 s : @Runnable.State PM Self) (es : list Runnable.event),
      Runnable.fresh s0 → Runnable.run os s0 = Some (Returned (), s1) →
      Forall (λ e, e ≠ Runnable.Run) es →
      Runnable.exec os __work es s1 = Some s →
      (Runnable.life s = Live → Runnable.status s = true →
       ∃ t, Runnable._t s = Some t ∧ get_name t = Runnable.get_name s)
      ∧ (∀ n, Runnable.status s = false →
              Runnable._t (Runnable.set_name n s) = Runnable._t s
              ∧ Runnable.get_name (Runnable.set_name n s) = n)
      ∧ (∀ n, Runnable.effects (Runnable.set_name n s) = Runnable.effects s))
  ∧ (∀ (DataType ReturnType Self : Type)
       (__work : DataType → Self → result ReturnType * Self)
       (s0 s1 s : @ActiveRunnable.State PM DataType ReturnType Self)
       (es : list ActiveRunnable.event),
        ActiveRunnable.fresh s0 →
        ActiveRunnable.run os s0 = Some (Returned (), s1) →
        Forall (λ e, e ≠ ActiveRunnable.Run) es →
        ActiveRunnable.exec os __work es s1 = Some s →
        (ActiveRunnable.life s = Live → ActiveRunnable.status s = true →
         ∃ t, ActiveRunnable._t s = Some t
              ∧ get_name t = ActiveRunnable.get_name s)
        ∧ (∀ n, ActiveRunnable.status s = false →
                ActiveRunnable._t (ActiveRunnable.set_name n s)
                = ActiveRunnable._t s
                ∧ ActiveRunnable.get_name (ActiveRunnable.set_name n s) = n)
        ∧ (∀ n, ActiveRunnable.effects (ActiveRunnable.set_name n s)
                = ActiveRunnable.effects s)).
Proof.
  split.
  - intros Self __work s0 s1 s es (Ht & Hr & _) Hrun _ Hex.
    rewrite runnable_run_first in Hrun by done. injection Hrun as <-.
    split_and!.
    + eapply runnable_named_exec; [exact Hex|]. intros _ _. simpl. eauto.
    + intros n Hs. unfold Runnable.status in Hs.
      unfold Runnable.set_name. simpl. by rewrite Hs.
    + intros n. unfold Runnable.set_name. simpl. by repeat case_match.
  - intros D R Self __work s0 s1 s es (Ht & Hr & _) Hrun _ Hex.
    rewrite active_run_first in Hrun by done. injection Hrun as <-.
    split_and!.
    + eapply active_named_exec; [exact Hex|]. intros _ _. simpl. eauto.
    + intros n Hs. unfold ActiveRunnable.status in Hs.
      unfold ActiveRunnable.set_name. simpl. by rewrite Hs.
    + intros n. unfold ActiveRunnable.set_name. simpl. by repeat case_match.
Qed.
End Names.

(** * The further properties on concrete runs *)

Section Further_runs.
Import Thread Thread.WIN32 Fixtures.

Local Abbreviation T := (@ActiveRunnable.ThreadStep priority Z).
Local Abbreviation Put := (@ActiveRunnable.Notify priority Z).
Local Abbreviation fresh_echo := (@ActiveRunnable.init priority Z Z Z (-1)%Z).
Local Abbreviation Tick := (@ActiveRunnable.ThreadStep priority ()).
Local Abbreviation Call := (@ActiveRunnable.Notify priority () ()).
Local Abbreviation fresh_counter := (@ActiveRunnable.init priority () Z Z 0%Z).
Local Abbreviation Raise :=
  (@ActiveRunnable.SetPriority priority Z THREAD_PRIORITY_HIGHEST).
Local Abbreviation Name := (@ActiveRunnable.SetName priority Z "queue").
Local Abbreviation worker_handle :=
  (@started_handle priority THREAD_PRIORITY_NORMAL "worker").

(** Instantiate an existential with the value a run evaluates to. *)
Local Ltac exists_value t :=
  let v := eval vm_compute in t in
  match v with Some ?x => exists x end.
Local Ltac by_evaluation := vm_compute; reflexivity.

Lemma echo_returns (d w : Z) : ∃ r, (echo d w).1 = Returned r.
Proof. by exists d. Qed.

Lemma counter_returns (d : ()) (w : Z) : ∃ r, (counter d w).1 = Returned r.
Proof. by exists w. Qed.

Lemma join_returns_once_witness :
  join false worker_handle = None
  ∧ ∃ t', join true worker_handle = Some t'
          ∧ _thread t' = false ∧ join false t' = Some t'.
Proof.
  split.
  - apply (proj1 (join_returns_once false worker_handle)). by split.
  - exists_value (join true worker_handle).
    match goal with
    | |- ?Hj ∧ _ =>
        assert (H : Hj) by reflexivity;
        destruct (proj2 (join_returns_once true worker_handle) _ H)
          as (H1 & _ & _ & _ & H2)
    end.
    split; [exact H|]. split; [exact H1|apply H2].
Defined.


Lemma set_priority_after_join_or_detach_witness :
  ∃ t', detach worker_handle = Some t'
        ∧ set_priority os_refusing THREAD_PRIORITY_HIGHEST t'
          = (true, store_priority THREAD_PRIORITY_HIGHEST t', []).
Proof.
  exists_value (detach worker_handle).
  match goal with |- ?Hd ∧ _ => assert (H : Hd) by reflexivity end.
  split; [exact H|].
  exact (proj1 (set_priority_after_join_or_detach os_refusing false
                  THREAD_PRIORITY_HIGHEST worker_handle _ (or_intror H))).
Defined.

Lemma runnable_stop_completes_witness :
  ∃ s1 s,
    Runnable.run os_granting (Runnable.init false) = Some (Returned (), s1)
    ∧ Runnable.exec os_granting raise_flag
        [Runnable.ThreadStep; Runnable.ThreadStep] s1 = Some s
    ∧ Runnable.thread s = Some Runnable.PcWork
    ∧ Runnable.completed
        (Runnable.drain os_granting raise_flag 3 (Runnable.stop s)) = true.
Proof.
  exists_value (snd <$> Runnable.run os_granting (Runnable.init false)).
  match goal with
  | |- ∃ s, _ = Some (_, ?s1) ∧ _ =>
      exists_value (Runnable.exec os_granting raise_flag
                      [Runnable.ThreadStep; Runnable.ThreadStep] s1)
  end.
  match goal with
  | |- ?Hrun ∧ ?Hex ∧ _ =>
      assert (H1 : Hrun) by by_evaluation;
      assert (H2 : Hex) by by_evaluation
  end.
  split; [exact H1|]. split; [exact H2|]. split; [reflexivity|].
  refine (proj1 (proj2 (proj2 (proj2
            (runnable_stop_completes os_granting raise_flag
               (Runnable.init false) _ _
               [Runnable.ThreadStep; Runnable.ThreadStep]
               (λ _, eq_refl) _ H1 _ H2 _))))).
  - by repeat split.
  - repeat constructor; discriminate.
  - reflexivity.
Defined.

Lemma future_ready_means_returned_witness :
  (∃ s, Runnable.exec os_granting raise_flag
          [Runnable.Run; Runnable.ThreadStep; Runnable.ThreadStep;
           Runnable.Stop; Runnable.ThreadStep; Runnable.ThreadStep;
           Runnable.ThreadStep] (Runnable.init false) = Some s
        ∧ Runnable.completed s = true ∧ Runnable.status s = false)
  ∧ (∃ s, ActiveRunnable.exec os_granting echo
            [ActiveRunnable.Run; T; T; T; T; ActiveRunnable.Stop; T; T; T]
            fresh_echo = Some s
          ∧ ActiveRunnable.completed s = true
          ∧ ActiveRunnable.status s = false).
Proof.
  split.
  - exists_value (Runnable.exec os_granting raise_flag
          [Runnable.Run; Runnable.ThreadStep; Runnable.ThreadStep;
           Runnable.Stop; Runnable.ThreadStep; Runnable.ThreadStep;
           Runnable.ThreadStep] (Runnable.init false)).
    match goal with |- ?Hex ∧ _ => assert (H : Hex) by by_evaluation end.
    split; [exact H|]. split; [reflexivity|].
    match goal with
    | |- Runnable.status ?s = false =>
        refine (proj2 (proj1 (future_ready_means_returned os_granting)
                         bool raise_flag (Runnable.init false)
                         (default (Runnable.init false)
                            (snd <$> Runnable.run os_granting (Runnable.init false)))
                         s
                         [Runnable.ThreadStep; Runnable.ThreadStep;
                          Runnable.Stop; Runnable.ThreadStep;
                          Runnable.ThreadStep; Runnable.ThreadStep]
                         _ _ _ _ _) _)
    end;
      [by repeat split | by_evaluation | repeat constructor; discriminate
      | by_evaluation | reflexivity | reflexivity].
  - exists_value (ActiveRunnable.exec os_granting echo
            [ActiveRunnable.Run; T; T; T; T; ActiveRunnable.Stop; T; T; T]
            fresh_echo).
    match goal with |- ?Hex ∧ _ => assert (H : Hex) by by_evaluation end.
    split; [exact H|]. split; [reflexivity|].
    match goal with
    | |- ActiveRunnable.status ?s = false =>
        refine (proj2 (proj2 (future_ready_means_returned os_granting)
                         Z Z Z echo fresh_echo
                         (default fresh_echo
                            (snd <$> ActiveRunnable.run os_granting fresh_echo))
                         s [T; T; T; T; ActiveRunnable.Stop; T; T; T]
                         _ _ _ _ _) _)
    end;
      [by repeat split | by_evaluation | repeat constructor; discriminate
      | by_evaluation | reflexivity | reflexivity].
Defined.

Lemma work_only_inside_loop_witness :
  (∃ s', Runnable.exec os_granting raise_flag
           [Runnable.SetName "idle"; Runnable.Stop]
           (Runnable.init false) = Some s'
         ∧ Runnable.self s' = false)
  ∧ (∃ s s',
        ActiveRunnable.exec os_granting echo
          [ActiveRunnable.Run; T; T; T; T; ActiveRunnable.Stop; T; T]
          fresh_echo = Some s
        ∧ ActiveRunnable.thread s = Some ActiveRunnable.PcReturn
        ∧ ActiveRunnable.exec os_granting echo [Put 7%Z 0; T] s = Some s'
        ∧ ActiveRunnable.self s' = (-1)%Z
        ∧ (ActiveRunnable.thread s' = None
           ∨ ActiveRunnable.thread s' = Some ActiveRunnable.PcReturn
           ∨ ActiveRunnable.thread s' = Some ActiveRunnable.PcDone)).
Proof.
  split.
  - exists_value (Runnable.exec os_granting raise_flag
           [Runnable.SetName "idle"; Runnable.Stop]
           (Runnable.init false)).
    match goal with |- ?Hex ∧ _ => assert (H : Hex) by by_evaluation end.
    split; [exact H|].
    refine (proj1 (proj1 (work_only_inside_loop os_granting) bool raise_flag
                     (Runnable.init false) _
                     [Runnable.SetName "idle"; Runnable.Stop] _ H (or_introl eq_refl))).
    repeat constructor; discriminate.
  - exists_value (ActiveRunnable.exec os_granting echo
          [ActiveRunnable.Run; T; T; T; T; ActiveRunnable.Stop; T; T]
          fresh_echo).
    match goal with
    | |- ∃ s', _ ∧ _ ∧ ActiveRunnable.exec _ _ ?l ?s = Some s' ∧ _ =>
        exists_value (ActiveRunnable.exec os_granting echo l s)
    end.
    match goal with
    | |- ?Hex ∧ _ ∧ ?Hex' ∧ _ =>
        assert (H : Hex) by by_evaluation;
        assert (H' : Hex') by by_evaluation
    end.
    split; [exact H|]. split; [reflexivity|]. split; [exact H'|].
    refine (proj2 (work_only_inside_loop os_granting) Z Z Z echo _ _
              [Put 7%Z 0; T] _ H' (or_intror (or_introl eq_refl))).
    repeat constructor; discriminate.
Defined.

Lemma producers_not_blocked_witness :
  ∃ s s',
    ActiveRunnable.exec os_granting echo
      [ActiveRunnable.Run; Put 7%Z 0; T; T; T; T; T; T] fresh_echo = Some s
    ∧ ActiveRunnable.thread s = Some (ActiveRunnable.PcWork 7%Z 0)
    ∧ ActiveRunnable.notify 8%Z s = Some (1, s').
Proof.
  exists_value (ActiveRunnable.exec os_granting echo
      [ActiveRunnable.Run; Put 7%Z 0; T; T; T; T; T; T] fresh_echo).
  match goal with
  | |- ∃ s', _ ∧ ActiveRunnable.thread ?s = _ ∧ _ =>
      destruct (producers_not_blocked os_granting echo fresh_echo
                  (default fresh_echo
                     (snd <$> ActiveRunnable.run os_granting fresh_echo))
                  s [Put 7%Z 0; T; T; T; T; T; T])
        as (_ & Hfree & _)
  end.
  - by repeat split.
  - by_evaluation.
  - repeat constructor; discriminate.
  - by_evaluation.
  - reflexivity.
  - destruct (proj1 (Hfree eq_refl) 8%Z) as [s' Hs'].
    exists s'. split; [by_evaluation|]. split; [reflexivity|exact Hs'].
Defined.

Lemma stop_before_wait_is_missed_witness :
  ∃ s s',
    ActiveRunnable.exec os_granting echo [ActiveRunnable.Run; T; T] fresh_echo
    = Some s
    ∧ ActiveRunnable.exec os_granting echo [ActiveRunnable.Stop; T; T] s
      = Some s'
    ∧ ActiveRunnable.status s' = false
    ∧ ActiveRunnable.step os_granting echo T s' = None
    ∧ ActiveRunnable.completed s' = false.
Proof.
  exists_value (ActiveRunnable.exec os_granting echo
                  [ActiveRunnable.Run; T; T] fresh_echo).
  match goal with
  | |- ∃ s', _ ∧ ActiveRunnable.exec _ _ _ ?s = _ ∧ _ =>
      destruct (stop_before_wait_is_missed os_granting echo s
                  eq_refl eq_refl eq_refl eq_refl)
        as (s' & Hex & _ & _ & Hst & Hstuck & Hc & _)
  end.
  exists s'. split; [by_evaluation|]. split; [exact Hex|].
  split; [exact Hst|]. split; [exact Hstuck|]. exact Hc.
Defined.

Lemma promise_set_once_witness :
  ∃ s s',
    ActiveRunnable.exec os_granting echo
      [ActiveRunnable.Run; Put 7%Z 0; Put 8%Z 1; T; T; T; T; T; T]
      fresh_echo = Some s
    ∧ ActiveRunnable.thread s = Some (ActiveRunnable.PcWork 7%Z 0)
    ∧ ActiveRunnable.step os_granting echo T s = Some s'
    ∧ ActiveRunnable.promises s' = [Some 7%Z; None].
Proof.
  exists_value (ActiveRunnable.exec os_granting echo
      [ActiveRunnable.Run; Put 7%Z 0; Put 8%Z 1; T; T; T; T; T; T]
      fresh_echo).
  match goal with
  | |- ∃ s', ?Hex ∧ _ =>
      assert (H : Hex) by by_evaluation;
      destruct (promise_set_once os_granting echo (-1)%Z _ _ H)
        as (_ & _ & Hset)
  end.
  destruct (Hset 7%Z 0 7%Z 7%Z eq_refl eq_refl eq_refl)
    as (s' & Hstep & _ & _ & Hp).
  exists s'. split; [exact H|]. split; [reflexivity|]. split; [exact Hstep|].
  exact Hp.
Defined.

Lemma handle_and_queue_present_witness :
  ∃ s,
    ActiveRunnable.exec os_granting echo
      [ActiveRunnable.Run; T; Name; Put 7%Z 0; T; T;
       Raise; T; T]
      fresh_echo = Some s
    ∧ ActiveRunnable.thread s = Some ActiveRunnable.PcTake
    ∧ ActiveRunnable._tasks s ≠ [].
Proof.
  exists_value (ActiveRunnable.exec os_granting echo
      [ActiveRunnable.Run; T; Name; Put 7%Z 0; T; T;
       Raise; T; T]
      fresh_echo).
  match goal with
  | |- _ ∧ ActiveRunnable.thread ?s = _ ∧ _ =>
      destruct (handle_and_queue_present os_granting echo fresh_echo
                  (default fresh_echo
                     (snd <$> ActiveRunnable.run os_granting fresh_echo))
                  s
                  [T; Name; Put 7%Z 0; T; T;
                   Raise; T; T])
        as (_ & Hlive)
  end.
  - by repeat split.
  - by_evaluation.
  - repeat constructor; discriminate.
  - by_evaluation.
  - split; [by_evaluation|]. split; [reflexivity|].
    exact (proj2 (Hlive eq_refl) eq_refl).
Defined.

Lemma queued_worker_serial_witness :
  ∃ s1 s,
    let es := [Call 0; Tick; Tick; Call 1; Tick; Tick; Tick; Tick;
               Call 2; Call 3; Tick; Call 4] in
    ActiveRunnable.run os_granting fresh_counter = Some (Returned (), s1)
    ∧ ActiveRunnable.exec os_granting counter es s1 = Some s
    ∧ ActiveRunnable.promises (ActiveRunnable.drain os_granting counter 40 s)
      = Some <$> [0; 1; 2; 3; 4]%Z
    ∧ ActiveRunnable.self (ActiveRunnable.drain os_granting counter 40 s)
      = 5%Z.
Proof.
  exists_value (snd <$> ActiveRunnable.run os_granting fresh_counter).
  match goal with
  | |- ∃ s, let es := ?l in _ = Some (_, ?s1) ∧ _ =>
      exists_value (ActiveRunnable.exec os_granting counter l s1)
  end.
  intros es.
  match goal with
  | |- ?Hrun ∧ ?Hex ∧ _ =>
      assert (H1 : Hrun) by by_evaluation;
      assert (H2 : Hex) by by_evaluation
  end.
  split; [exact H1|]. split; [exact H2|].
  destruct (queued_worker_serial os_granting counter counter_returns
              0%Z _ _ es H1 ltac:(repeat constructor) H2)
    as (_ & _ & Hdrain).
  destruct (Hdrain 40 ltac:(vm_compute; lia)) as (_ & _ & Hp & Hself).
  split; [exact Hp|exact Hself].
Defined.

Lemma notify_before_run_is_served_witness :
  ∃ s0 s1,
    ActiveRunnable.exec os_granting echo [Put 7%Z 0; Put 8%Z 1] fresh_echo
    = Some s0
    ∧ ActiveRunnable.promises s0 = [None; None]
    ∧ ActiveRunnable.run os_granting s0 = Some (Returned (), s1)
    ∧ ActiveRunnable.promises (ActiveRunnable.drain os_granting echo 40 s1)
      = [Some 7%Z; Some 8%Z].
Proof.
  exists_value (ActiveRunnable.exec os_granting echo [Put 7%Z 0; Put 8%Z 1]
                  fresh_echo).
  match goal with
  | |- ∃ s1, ?Hex ∧ _ =>
      assert (H : Hex) by by_evaluation;
      destruct (notify_before_run_is_served os_granting echo echo_returns
                  (-1)%Z [Put 7%Z 0; Put 8%Z 1] _
                  ltac:(repeat constructor; by eexists _, _) H)
        as (_ & _ & Hp & _ & s1 & Hrun & Hdrain)
  end.
  exists s1. split; [exact H|]. split; [exact Hp|]. split; [exact Hrun|].
  assert (Hs1 := Hrun). vm_compute in Hs1. injection Hs1 as <-.
  exact (proj1 (proj2 (proj2 (Hdrain 40 ltac:(vm_compute; lia))))).
Defined.

Lemma stop_after_work_completes_witness :
  ∃ s1 s s',
    ActiveRunnable.run os_granting fresh_counter = Some (Returned (), s1)
    ∧ ActiveRunnable.exec os_granting counter [Call 0; Tick; Call 1] s1
      = Some s
    ∧ ActiveRunnable.exec os_granting counter
        [ActiveRunnable.Stop; Tick; Tick; Tick]
        (ActiveRunnable.drain os_granting counter 40 s) = Some s'
    ∧ ActiveRunnable.completed s' = true
    ∧ ActiveRunnable.promises s' = [Some 0%Z; Some 1%Z].
Proof.
  exists_value (snd <$> ActiveRunnable.run os_granting fresh_counter).
  match goal with
  | |- ∃ s s', _ = Some (_, ?s1) ∧ _ =>
      exists_value (ActiveRunnable.exec os_granting counter
                      [Call 0; Tick; Call 1] s1)
  end.
  match goal with
  | |- ∃ s', ?Hrun ∧ ?Hex ∧ _ =>
      assert (H1 : Hrun) by by_evaluation;
      assert (H2 : Hex) by by_evaluation
  end.
  destruct (stop_after_work_completes os_granting counter counter_returns
              0%Z _ _ [Call 0; Tick; Call 1] 40 H1
              ltac:(repeat constructor) H2 ltac:(vm_compute; lia))
    as (s' & Hs' & _ & _ & Hc & _ & _ & Hp & _).
  exists s'. split; [exact H1|]. split; [exact H2|]. split; [exact Hs'|].
  split; [exact Hc|exact Hp].
Defined.

Lemma set_priority_keeps_last_accepted_witness :
  let r := set_priorities os_granting
             [THREAD_PRIORITY_HIGHEST; THREAD_PRIORITY_NORMAL] worker_handle in
  get_priority r.1.1 = THREAD_PRIORITY_HIGHEST
  ∧ r.1.2 = [true; true]
  ∧ r.2 = [OsSetPriority THREAD_PRIORITY_HIGHEST]
  ∧ accepted os_granting THREAD_PRIORITY_HIGHEST
    = granted os_granting THREAD_PRIORITY_HIGHEST.
Proof.
  intros r.
  destruct (set_priority_keeps_last_accepted os_granting
              [THREAD_PRIORITY_HIGHEST; THREAD_PRIORITY_NORMAL] worker_handle
              eq_refl) as ((H1 & H2 & H3 & _) & H4 & _).
  split; [exact H1|]. split; [exact H2|]. split; [exact H3|].
  exact (H4 (λ r, eq_refl) THREAD_PRIORITY_HIGHEST).
Defined.

Lemma running_worker_name_reaches_handle_witness :
  ∃ s1 s t,
    ActiveRunnable.run os_granting fresh_echo = Some (Returned (), s1)
    ∧ ActiveRunnable.exec os_granting echo [T; Name; T] s1 = Some s
    ∧ ActiveRunnable._t s = Some t
    ∧ get_name t = "queue".
Proof.
  exists_value (snd <$> ActiveRunnable.run os_granting fresh_echo).
  match goal with
  | |- ∃ s t, _ = Some (_, ?s1) ∧ _ =>
      exists_value (ActiveRunnable.exec os_granting echo [T; Name; T] s1)
  end.
  match goal with
  | |- ∃ t, ?Hrun ∧ ?Hex ∧ _ =>
      assert (H1 : Hrun) by by_evaluation;
      assert (H2 : Hex) by by_evaluation
  end.
  destruct (proj1 (proj2 (running_worker_name_reaches_handle os_granting)
                     Z Z Z echo fresh_echo _ _ [T; Name; T]
                     ltac:(by repeat split) H1
                     ltac:(repeat constructor; discriminate) H2)
              eq_refl eq_refl)
    as (t & Ht & Hn).
  exists t. split; [exact H1|]. split; [exact H2|].
  split; [exact Ht|exact Hn].
Defined.

Lemma destruction_while_running_witness :
  (∃ s1 s s',
      Runnable.run os_granting (Runnable.init false) = Some (Returned (), s1)
      ∧ Runnable.exec os_granting raise_flag
          [Runnable.ThreadStep; Runnable.ThreadStep] s1 = Some s
      ∧ Runnable.thread s = Some Runnable.PcWork
      ∧ Runnable.step os_granting raise_flag Runnable.Destroy s = Some s'
      ∧ Runnable.life s' = Faulted Undefined)
  ∧ (∃ s1 s s',
        ActiveRunnable.run os_granting fresh_echo = Some (Returned (), s1)
        ∧ ActiveRunnable.exec os_granting echo [T; T; T; T] s1 = Some s
        ∧ ActiveRunnable.thread s = Some ActiveRunnable.PcWait
        ∧ ActiveRunnable.step os_granting echo ActiveRunnable.Destroy s
          = Some s'
        ∧ ActiveRunnable.life s' = Faulted Undefined
        ∧ ActiveRunnable.step os_granting echo T s' = None).
Proof.
  split.
  - exists_value (snd <$> Runnable.run os_granting (Runnable.init false)).
    match goal with
    | |- ∃ s s', _ = Some (_, ?s1) ∧ _ =>
        exists_value (Runnable.exec os_granting raise_flag
                        [Runnable.ThreadStep; Runnable.ThreadStep] s1)
    end.
    match goal with
    | |- ∃ s', ?Hrun ∧ ?Hex ∧ _ =>
        assert (H1 : Hrun) by by_evaluation;
        assert (H2 : Hex) by by_evaluation
    end.
    destruct (proj1 (destruction_while_running os_granting) bool raise_flag
                false _ _ [Runnable.ThreadStep; Runnable.ThreadStep] H1
                ltac:(repeat constructor; discriminate) H2 eq_refl)
      as (_ & _ & _ & s' & Hd & Hl & _).
    exists s'. split; [exact H1|]. split; [exact H2|].
    split; [reflexivity|]. split; [exact Hd|exact Hl].
  - exists_value (snd <$> ActiveRunnable.run os_granting fresh_echo).
    match goal with
    | |- ∃ s s', _ = Some (_, ?s1) ∧ _ =>
        exists_value (ActiveRunnable.exec os_granting echo [T; T; T; T] s1)
    end.
    match goal with
    | |- ∃ s', ?Hrun ∧ ?Hex ∧ _ =>
        assert (H1 : Hrun) by by_evaluation;
        assert (H2 : Hex) by by_evaluation
    end.
    destruct (proj2 (destruction_while_running os_granting) Z Z Z echo
                (-1)%Z _ _ [T; T; T; T] H1
                ltac:(repeat constructor; discriminate) H2 eq_refl)
      as (_ & _ & _ & s' & Hd & Hl & _ & Hstuck).
    exists s'. split; [exact H1|]. split; [exact H2|].
    split; [reflexivity|]. split; [exact Hd|]. split; [exact Hl|apply Hstuck].
Defined.

Lemma destruction_after_return_witness :
  ∃ s1 s s',
    Runnable.run os_granting (Runnable.init false) = Some (Returned (), s1)
    ∧ Runnable.exec os_granting raise_flag
        [Runnable.ThreadStep; Runnable.ThreadStep; Runnable.ThreadStep;
         Runnable.Stop; Runnable.ThreadStep; Runnable.ThreadStep] s1 = Some s
    ∧ Runnable.thread s = Some Runnable.PcDone
    ∧ Runnable.step os_granting raise_flag Runnable.Destroy s = Some s'
    ∧ Runnable.life s' = Destroyed.
Proof.
  exists_value (snd <$> Runnable.run os_granting (Runnable.init false)).
  match goal with
  | |- ∃ s s', _ = Some (_, ?s1) ∧ _ =>
      exists_value (Runnable.exec os_granting raise_flag
        [Runnable.ThreadStep; Runnable.ThreadStep; Runnable.ThreadStep;
         Runnable.Stop; Runnable.ThreadStep; Runnable.ThreadStep] s1)
  end.
  match goal with
  | |- ∃ s', ?Hrun ∧ ?Hex ∧ _ =>
      assert (H1 : Hrun) by by_evaluation;
      assert (H2 : Hex) by by_evaluation
  end.
  destruct (proj1 (proj2 (proj2 (proj1 (destruction_after_return os_granting)
                                   bool raise_flag (Runnable.init false)
                                   ltac:(by repeat split))
                            _ _
                            [Runnable.ThreadStep; Runnable.ThreadStep;
                             Runnable.ThreadStep; Runnable.Stop;
                             Runnable.ThreadStep; Runnable.ThreadStep] H1
                            ltac:(repeat constructor; discriminate) H2))
              eq_refl eq_refl)
    as (s' & Hd & Hl & _).
  exists s'. split; [exact H1|]. split; [exact H2|]. split; [reflexivity|].
  split; [exact Hd|exact Hl].
Defined.

Lemma linux_failure_test_inverted_witness :
  let p : @Priority LINUX.priority := (LINUX.SCHED_FIFO, 10%Z) in
  let t : @ThreadDetail LINUX.priority :=
    @started_handle LINUX.priority (LINUX.SCHED_OTHER, 0%Z) "worker" in
  set_priority linux_refusing p t = (true, store_priority p t, [OsSetPriority p])
  ∧ set_priority linux_granting p t = (false, t, [OsSetPriority p; LogError 0]).
Proof.
  intros p t.
  destruct (linux_failure_test_inverted linux_refusing p t eq_refl
              ltac:(discriminate)) as [Hfail _].
  destruct (linux_failure_test_inverted linux_granting p t eq_refl
              ltac:(discriminate)) as [_ Hok].
  split; [exact (proj1 (Hfail eq_refl))|exact (proj1 (Hok eq_refl))].
Defined.
End Further_runs.
